(** * Correlation Engine 2.0

    A shallow embedding of the correlation engine of
    [src/services/api-server.ts] (the part after the API server:
    [findTemporalCorrelations], [findSpatialCorrelations],
    [findThematicCorrelations], [detectCascades], [findTemporalPatterns],
    [findGeographicClusters], [runCorrelationEngine],
    [correlationsToThreatSignals], [haversineDistance], [toRad]), and the
    properties the specification states about it; then an embedding of the
    API server of the same file ([apiKeyMiddleware], [rateLimitMiddleware],
    the routes of [createAPIServer], [WebhookService],
    [DataExportService.exportStoriesCSV]), and further properties of both
    parts.

    Number model.  A JavaScript number is modelled by an exact rational
    ([Q]); [Date.getTime()] of a valid date is an integer number of
    milliseconds ([Z]); a coordinate, when present, is a finite number.
    The places where the source leaves the finite numbers on such inputs
    are modelled with the explicit type [jsnum]: the division by the mean
    interval in [findTemporalPatterns] (0/0 is NaN, x/0 is Infinity) and
    [Math.max()] / [Math.min()] of an empty argument list in
    [findThematicCorrelations].  Rounding error of binary64 arithmetic is
    not modelled.  [Math.sin], [Math.cos], [Math.atan2], [Math.sqrt] and
    [Math.PI] are implementation-approximated in ECMAScript and are
    variables of the section, so every theorem holds for every
    implementation of them; [new Date()] is the variable [now].

    Objects.  The two dictionaries of the source are object literals: a
    lookup also sees the properties inherited from [Object.prototype], and
    [Object.entries] lists array-index keys first.  Both are modelled
    ([pushInto], [Object_entries]); a function that can throw returns a
    [completion]. *)

From Stdlib Require Import ZArith QArith Qround Qabs List String Ascii Bool Lia
  Lqa Permutation Sorted DecimalString DecimalPos.
From AAC_tactics Require Import AAC.
From AAC_tactics Require Instances.
Import Instances.Lists.
Import ListNotations.

Open Scope Z_scope.

Infix "+++" := String.append (right associativity, at level 60).

(** ** JavaScript values and built-ins used by the engine *)

(** Outcome of a function body: a value, or a thrown exception. *)
Inductive completion (A : Type) : Type :=
| Normal (a : A)
| Throw (err : string).
Arguments Normal {A} a.
Arguments Throw {A} err.

Definition bind {A B} (c : completion A) (k : A -> completion B) : completion B :=
  match c with
  | Normal a => k a
  | Throw e => Throw e
  end.

Notation "x <- c ;; k" := (bind c (fun x => k))
  (at level 61, c at next level, right associativity).

(** What a caller observes of a list-valued function: the list it returned,
    nothing when it threw. *)
Definition emitted {A} (c : completion (list A)) : list A :=
  match c with
  | Normal l => l
  | Throw _ => []
  end.

(** Numbers that may be non-finite. *)
Inductive jsnum : Type :=
| Fin (q : Q)
| PosInf
| NegInf
| NaN.

Definition Qltb (x y : Q) : bool := negb (Qle_bool y x).

(** [x / y] on finite operands, the zero divisor being [+0]. *)
Definition js_div (x y : Q) : jsnum :=
  if Qeq_bool y 0 then
    if Qeq_bool x 0 then NaN
    else if Qltb 0 x then PosInf else NegInf
  else Fin (x / y).

(** [a > b]; every comparison with NaN is false. *)
Definition js_gt (a : jsnum) (b : Q) : bool :=
  match a with
  | Fin q => Qltb b q
  | PosInf => true
  | NegInf => false
  | NaN => false
  end.

(** [Math.round]: the nearest integer, ties towards +Infinity. *)
Definition Math_round (x : Q) : Z := Qfloor (x + (1 # 2)).

Definition Math_max (a b : Q) : Q := if Qle_bool a b then b else a.

(** [String(n)] of an integral number. *)
Definition numToString (n : Z) : string := NilZero.string_of_int (Z.to_int n).

(** [`${Math.round(x)}`] *)
Definition roundToString (x : jsnum) : string :=
  match x with
  | Fin q => numToString (Math_round q)
  | PosInf => "Infinity"
  | NegInf => "-Infinity"
  | NaN => "NaN"
  end.

(** [Math.max(...l) - Math.min(...l)]: [-Infinity - Infinity] when [l] is
    empty. *)
Definition Math_max_minus_min (l : list Z) : jsnum :=
  match l with
  | [] => NegInf
  | x :: r => Fin (inject_Z (fold_left Z.max r x - fold_left Z.min r x))
  end.

Definition js_divq (a : jsnum) (d : Q) : jsnum :=
  match a with
  | Fin q => Fin (q / d)
  | other => other
  end.

(** The one-character string holding a double quote. *)
Definition dquote : string := String (ascii_of_nat 34) EmptyString.

(** [Array.prototype.includes] on strings. *)
Definition includes (k : string) (l : list string) : bool :=
  existsb (String.eqb k) l.

(** [Array.prototype.slice(-n)] *)
Definition slice_last {A} (n : nat) (l : list A) : list A :=
  skipn (List.length l - n) l.

(** [Array.prototype.sort(cmp)]: a stable sort; [x] stays before [y] unless
    [cmp x y > 0]. *)
Fixpoint insertBy {A} (cmp : A -> A -> Z) (x : A) (l : list A) : list A :=
  match l with
  | [] => [x]
  | y :: l' => if cmp x y <=? 0 then x :: l else y :: insertBy cmp x l'
  end.

Definition Array_sort {A} (cmp : A -> A -> Z) (l : list A) : list A :=
  fold_right (insertBy cmp) [] l.

(** [for (i = 0; i < n; i++) for (j = i + 1; j < n; j++) body(l[i], l[j])] *)
Fixpoint forEachPair {A S} (body : A -> A -> S -> S) (l : list A) (s : S) : S :=
  match l with
  | [] => s
  | x :: rest => forEachPair body rest (fold_left (fun s' y => body x y s') rest s)
  end.

Definition toUpperChar (c : ascii) : ascii :=
  let n := nat_of_ascii c in
  if ((97 <=? n) && (n <=? 122))%nat then ascii_of_nat (n - 32) else c.

Fixpoint toUpperCase (s : string) : string :=
  match s with
  | EmptyString => EmptyString
  | String c r => String (toUpperChar c) (toUpperCase r)
  end.

(** *** Plain objects used as dictionaries *)

(** Own enumerable properties, in insertion order. *)
Definition Dict (V : Type) : Type := list (string * V).

Fixpoint getOwn {V} (k : string) (d : Dict V) : option V :=
  match d with
  | [] => None
  | (k', v) :: r => if String.eqb k k' then Some v else getOwn k r
  end.

Fixpoint setOwn {V} (k : string) (v : V) (d : Dict V) : Dict V :=
  match d with
  | [] => [(k, v)]
  | (k', v') :: r => if String.eqb k k' then (k', v) :: r else (k', v') :: setOwn k v r
  end.

(** Property names every object literal inherits from [Object.prototype];
    each of them reads as a truthy value that has no [push]. *)
Definition ObjectPrototypeKeys : list string :=
  [ "constructor"; "__defineGetter__"; "__defineSetter__"; "hasOwnProperty";
    "__lookupGetter__"; "__lookupSetter__"; "isPrototypeOf";
    "propertyIsEnumerable"; "toString"; "valueOf"; "__proto__";
    "toLocaleString" ]%string.

(** [if (!d[k]) d[k] = []; d[k].push(v);] on an object literal [d]. *)
Definition pushInto {V} (k : string) (v : V) (d : Dict (list V)) : completion (Dict (list V)) :=
  match getOwn k d with
  | Some vs => Normal (setOwn k (vs ++ [v]) d)
  | None =>
      if includes k ObjectPrototypeKeys
      then Throw "TypeError: push is not a function"
      else Normal (d ++ [(k, [v])])
  end.

(** Array indices: canonical decimal strings of the integers below 2^32 - 1. *)
Definition isDigit (c : ascii) : bool :=
  let n := nat_of_ascii c in ((48 <=? n) && (n <=? 57))%nat.

Fixpoint digitsValue (s : string) (acc : Z) : option Z :=
  match s with
  | EmptyString => Some acc
  | String c r =>
      if isDigit c
      then digitsValue r (10 * acc + Z.of_nat (nat_of_ascii c - 48))
      else None
  end.

Definition arrayIndex (s : string) : option Z :=
  match s with
  | EmptyString => None
  | String c r =>
      if (String.eqb s "0") then Some 0
      else if Ascii.eqb c "0" then None
      else match digitsValue s 0 with
           | Some n => if n <? 4294967295 then Some n else None
           | None => None
           end
  end.

Definition indexOf (s : string) : Z :=
  match arrayIndex s with
  | Some n => n
  | None => 0
  end.

Definition isIndexKey {V} (kv : string * V) : bool :=
  match arrayIndex (fst kv) with
  | Some _ => true
  | None => false
  end.

(** [Object.entries]: array-index keys in ascending numeric order, then the
    other string keys in insertion order. *)
Definition Object_entries {V} (d : Dict V) : list (string * V) :=
  Array_sort (fun a b => indexOf (fst a) - indexOf (fst b)) (filter isIndexKey d)
  ++ filter (fun kv => negb (isIndexKey kv)) d.

(** ** Data model *)

Record CorrelationEvent : Type := mkEvent {
  e_id : string;
  e_title : string;
  e_date : Z;                 (* date.getTime(), milliseconds *)
  e_lat : option Q;           (* lat?: number *)
  e_lon : option Q;           (* lon?: number *)
  e_region : string;
  e_keywords : list string;
  e_source : string;
  e_category : string
}.

Inductive CorrelationType : Type := temporal | spatial | thematic | cascade.

Inductive Significance : Type := high | medium | low.

Record CorrelationResult : Type := mkResult {
  r_id : string;
  r_type : CorrelationType;
  r_score : Z;
  r_events : list string;
  r_description : string;
  r_significance : Significance;
  r_timestamp : Z
}.

Record TemporalPattern : Type := mkPattern {
  p_pattern : string;
  p_frequency : Q;            (* hours *)
  p_confidence : Z;
  p_recentHits : list Z
}.

Record GeographicCluster : Type := mkCluster {
  centerLat : Q;
  centerLon : Q;
  radiusKm : Q;
  eventCount : Z;
  categories : list string;
  dateRange_start : Z;
  dateRange_end : Z
}.

Record EngineResults : Type := mkResults {
  res_temporal : list CorrelationResult;
  res_spatial : list CorrelationResult;
  res_thematic : list CorrelationResult;
  res_cascades : list CorrelationResult;
  res_patterns : list TemporalPattern;
  res_clusters : list GeographicCluster
}.

Record ThreatSignal : Type := mkSignal {
  s_type : string;
  s_title : string;
  s_description : string;
  s_severity : string;
  s_score : Z;
  s_events : list string;
  s_timestamp : Z
}.

Definition typeName (t : CorrelationType) : string :=
  match t with
  | temporal => "temporal"
  | spatial => "spatial"
  | thematic => "thematic"
  | cascade => "cascade"
  end.

Definition CORRELATION_WINDOW : Q := 72.
Definition SPATIAL_THRESHOLD_KM : Q := 500.

(** The value of [(1000 * 60 * 60)]. *)
Definition MS_PER_HOUR : Q := 1000 * 60 * 60.

Definition byScoreDesc (a b : CorrelationResult) : Z := r_score b - r_score a.

(** [e1.keywords.filter(k => e2.keywords.includes(k))] *)
Definition sharedKeywords (e1 e2 : CorrelationEvent) : list string :=
  filter (fun k => includes k (e_keywords e2)) (e_keywords e1).

Definition lengthZ {A} (l : list A) : Z := Z.of_nat (List.length l).

(** A number is truthy unless it is 0 (or NaN); [undefined] is falsy.
    [coords e] is the pair the source works with after [e.lat && e.lon]. *)
Definition truthy (x : option Q) : bool :=
  match x with
  | Some q => negb (Qeq_bool q 0)
  | None => false
  end.

Definition coords (e : CorrelationEvent) : option (Q * Q) :=
  match e_lat e, e_lon e with
  | Some la, Some lo => if truthy (Some la) && truthy (Some lo) then Some (la, lo) else None
  | _, _ => None
  end.

(** ** Example inputs *)

Module Examples.

Local Open Scope string_scope.

Definition hour : Z := 3600000.

Definition event (i : string) (date : Z) (lat lon : option Q) (region : string)
  (keywords : list string) : CorrelationEvent :=
  {| e_id := i; e_title := "Event " +++ i; e_date := date;
     e_lat := lat; e_lon := lon; e_region := region;
     e_keywords := keywords; e_source := "wire"; e_category := "conflict" |}.

(** Region "X", keywords ["a", "b"], 24 hours apart; a fourth event 30
    hours after the third. *)
Definition day1 : CorrelationEvent := event "d1" 0 None None "X" ["a"; "b"].
Definition day2 : CorrelationEvent := event "d2" (24 * hour) None None "X" ["a"; "b"].
Definition day3 : CorrelationEvent := event "d3" (48 * hour) None None "X" ["a"; "b"].
Definition day4 : CorrelationEvent := event "d4" (78 * hour) None None "X" ["a"; "b"].

(** Three events ten hours apart, the third in another region. *)
Definition step1 : CorrelationEvent := event "s1" 0 None None "X" ["a"; "b"].
Definition step2 : CorrelationEvent := event "s2" (10 * hour) None None "X" ["a"; "b"].
Definition step3 : CorrelationEvent := event "s3" (20 * hour) None None "Y" ["a"; "b"].

Definition once : CorrelationEvent := event "t2" (10 * hour) None None "R2" ["a"].



(** Three events with one timestamp. *)
Definition same1 : CorrelationEvent := event "m1" 5 None None "X" ["a"; "b"; "c"].
Definition same2 : CorrelationEvent := event "m2" 5 None None "X" ["a"; "b"].
Definition same3 : CorrelationEvent := event "m3" 5 None None "X" ["a"; "b"; "d"].

(** Three events in Paris and one in Berlin. *)
Definition paris1 : CorrelationEvent :=
  event "g1" 0 (Some 48.85%Q) (Some 2.35%Q) "EU" [].
Definition paris2 : CorrelationEvent :=
  event "g2" hour (Some 48.86%Q) (Some 2.36%Q) "EU" [].
Definition paris3 : CorrelationEvent :=
  event "g3" (2 * hour) (Some 48.84%Q) (Some 2.34%Q) "EU" [].
Definition berlin : CorrelationEvent :=
  event "g4" 0 (Some 52.52%Q) (Some 13.40%Q) "EU" [].

(** Two events on the equator, half a degree of longitude apart. *)
Definition equatorA : CorrelationEvent :=
  event "q1" 0 (Some 0%Q) (Some 10%Q) "AF" [].
Definition equatorB : CorrelationEvent :=
  event "q2" hour (Some 0%Q) (Some 10.5%Q) "AF" [].

(** Three events on one parallel, one degree of longitude apart: the
    middle one is within 100 km of both ends, the ends are not within
    100 km of each other. *)
Definition chainA : CorrelationEvent :=
  event "c1" 0 (Some 48%Q) (Some 2%Q) "EU" [].
Definition chainB : CorrelationEvent :=
  event "c2" hour (Some 48%Q) (Some 3%Q) "EU" [].
Definition chainC : CorrelationEvent :=
  event "c3" (2 * hour) (Some 48%Q) (Some 4%Q) "EU" [].

End Examples.

(** ** A rational implementation of the Math functions

    Truncated power series on rationals kept to 18 decimal places; it is
    one admissible implementation of the implementation-approximated
    functions, used to run the engine on concrete coordinates. *)
Module Approx.
Local Open Scope Q_scope.

Definition scale : Z := (10 ^ 18)%Z.

Definition trunc (x : Q) : Q := Qred (Qfloor (x * inject_Z scale) # Z.to_pos scale).

Definition PI : Q := 3141592653589793238 # 1000000000000000000.

(** [acc + t1 + t2 + ...] with [t(i+1) = - t(i) * x2 / (k * (k + 1))], [k]
    advancing by 2. *)
Fixpoint series (fuel : nat) (x2 term : Q) (k : Z) (acc : Q) : Q :=
  match fuel with
  | O => acc
  | S fuel' =>
      let term' := trunc (- term * x2 / inject_Z (k * (k + 1))%Z) in
      series fuel' x2 term' (k + 2)%Z (trunc (acc + term'))
  end.

Definition sin (x : Q) : Q := series 14 (x * x) x 2 x.
Definition cos (x : Q) : Q := series 14 (x * x) 1 1 1.

Definition sqrt (x : Q) : Q :=
  if Qle_bool x 0 then 0
  else Qred (Z.sqrt (Qfloor (x * inject_Z (scale * scale)%Z)) # Z.to_pos scale).

(** [t - t^3/3 + t^5/5 - ...] *)
Fixpoint atan_series (fuel : nat) (t2 power : Q) (k : Z) (acc : Q) : Q :=
  match fuel with
  | O => acc
  | S fuel' =>
      let power' := trunc (- power * t2) in
      atan_series fuel' t2 power' (k + 2)%Z (trunc (acc + power' / inject_Z k))
  end.

(** arctangent on [0, 1], after halving the angle *)
Definition atan01 (t : Q) : Q :=
  let h := trunc (t / (1 + sqrt (1 + t * t))) in
  2 * atan_series 30 (h * h) h 3 h.

Definition atan (t : Q) : Q :=
  let a := Qabs t in
  let r := if Qle_bool a 1 then atan01 a else PI / 2 - atan01 (/ a) in
  if Qle_bool 0 t then r else - r.

Definition atan2 (y x : Q) : Q :=
  if Qeq_bool x 0 then
    if Qeq_bool y 0 then 0 else if Qle_bool 0 y then PI / 2 else - (PI / 2)
  else if Qle_bool 0 x then atan (y / x)
  else if Qle_bool 0 y then atan (y / x) + PI else atan (y / x) - PI.

End Approx.

(** ** The HTTP layer

    [apiKeyMiddleware], [rateLimitMiddleware], the routes of
    [createAPIServer], [WebhookService] and [DataExportService.exportStoriesCSV].
    A string is a sequence of UTF-8 bytes.  Express's own work is taken as
    given: a request carries the route its method and path match, header
    and query values arrive parsed, and a request reaches the chain only
    after [express.json()] accepted its body.  [new Date()] and
    [Date.now()] of one request are one time value.  Values typed [any]
    that the code only passes through are opaque strings. *)

Definition LF : string := String (ascii_of_nat 10) EmptyString.

Record APIConfig : Type := mkConfig {
  cfg_port : Z;
  cfg_apiKey : string;
  cfg_corsOrigins : list string;
  cfg_rateLimit : Z           (* requests per minute *)
}.

(** A header or query value: absent, a string, an array of strings (a
    repeated parameter) or a nested object. *)
Inductive reqValue : Type :=
| VUndefined
| VString (s : string)
| VArray (l : list string)
| VObject.

(** The empty string and [undefined] are falsy; arrays and objects are
    truthy. *)
Definition truthyValue (v : reqValue) : bool :=
  match v with
  | VUndefined => false
  | VString s => negb (String.eqb s EmptyString)
  | VArray _ => true
  | VObject => true
  end.

(** [a || b] *)
Definition orElse (a b : reqValue) : reqValue := if truthyValue a then a else b.

(** [v === s] for a string [s] *)
Definition strictEqString (v : reqValue) (s : string) : bool :=
  match v with
  | VString s' => String.eqb s' s
  | _ => false
  end.

(** [String(v)] *)
Definition toStringValue (v : reqValue) : string :=
  match v with
  | VUndefined => "undefined"
  | VString s => s
  | VArray l => String.concat "," l
  | VObject => "[object Object]"
  end.

(** A field of a value typed [any]. *)
Inductive anyField : Type :=
| FNullish                    (* undefined or null *)
| FString (s : string)
| FOther.                     (* a number, a boolean, an object *)

(** A story or a signal: the fields the routes look at, and the rest. *)
Record Item : Type := mkItem {
  it_region : anyField;
  it_category : anyField;
  it_severity : anyField;
  it_rest : string
}.

Inductive responseData : Type :=
| HealthData (health : string)
| ApiDocs (rateLimit : string)
| StoriesData (stories : list Item) (count : Z) (region category : reqValue) (limit : Z)
| SignalsData (signals : list Item) (count : Z) (severity region : reqValue) (limit : Z)
| ReportData (report : string)
| CountriesData (countries : list string)
| CategoriesData (categories : list string)
| NotFoundPage.               (* Express's answer when no route matches *)

(** The JSON envelope [{success, data | error, timestamp}] with its status
    and the headers the chain has set. *)
Record response : Type := mkResponse {
  rsp_status : Z;
  rsp_headers : list (string * string);
  rsp_success : bool;
  rsp_data : option responseData;
  rsp_error : option string;
  rsp_timestamp : Z
}.

(** [res.json({success: true, data, timestamp})] *)
Definition okResponse (now : Z) (data : responseData) : response :=
  {| rsp_status := 200; rsp_headers := []; rsp_success := true;
     rsp_data := Some data; rsp_error := None; rsp_timestamp := now |}.

(** [res.status(code).json({success: false, error, timestamp})] *)
Definition errorResponse (now : Z) (code : Z) (error : string) : response :=
  {| rsp_status := code; rsp_headers := []; rsp_success := false;
     rsp_data := None; rsp_error := Some error; rsp_timestamp := now |}.

(** A middleware either answers or calls [next()]. *)
Inductive verdict : Type :=
| Next
| Respond (r : response).

(** *** apiKeyMiddleware *)

Definition apiKeyMiddleware (config : APIConfig) (now : Z) (header query : reqValue)
  : verdict :=
  let apiKey := orElse header query in
  if negb (truthyValue apiKey) || negb (strictEqString apiKey (cfg_apiKey config))
  then Respond (errorResponse now 401 "Invalid or missing API key")
  else Next.

(** *** rateLimitMiddleware *)

Record clientData : Type := mkClientData {
  cd_count : Z;
  cd_resetTime : Z
}.

(** [rateLimitStore], a [Map]: entries in insertion order, [set] on a
    present key replaces its value in place. *)
Definition RateStore : Type := Dict clientData.

(** [req.ip || 'unknown'] *)
Definition clientIdOf (ip : option string) : string :=
  match ip with
  | Some s => if String.eqb s EmptyString then "unknown" else s
  | None => "unknown"
  end.

Definition rateLimitMiddleware (config : APIConfig) (now : Z) (ip : option string)
  (store : RateStore) : RateStore * verdict :=
  let clientId := clientIdOf ip in
  let windowMs := 60000 in
  let fresh := {| cd_count := 1; cd_resetTime := now + windowMs |} in
  let next :=
    match getOwn clientId store with
    | None => fresh
    | Some found =>
        if cd_resetTime found <? now then fresh
        else {| cd_count := cd_count found + 1; cd_resetTime := cd_resetTime found |}
    end in
  let store' := setOwn clientId next store in
  if cfg_rateLimit config <? cd_count next
  then (store', Respond (errorResponse now 429 "Rate limit exceeded"))
  else (store', Next).

(** *** parseInt and slice *)

Definition code (c : ascii) : nat := nat_of_ascii c.

Definition isAsciiSpace (c : ascii) : bool :=
  ((9 <=? code c) && (code c <=? 13) || (code c =? 32))%nat.

(** The UTF-8 encodings of the white space and line terminators beyond
    ASCII: U+00A0, U+1680, U+2000..U+200A, U+2028, U+2029, U+202F, U+205F,
    U+3000, U+FEFF. *)
Definition isSpace2 (a b : ascii) : bool :=
  ((code a =? 194) && (code b =? 160))%nat.

Definition isSpace3 (a b c : ascii) : bool :=
  ((code a =? 225) && (code b =? 154) && (code c =? 128)
   || (code a =? 226) && (code b =? 128)
      && ((128 <=? code c) && (code c <=? 138)
          || (code c =? 168) || (code c =? 169) || (code c =? 175))
   || (code a =? 226) && (code b =? 129) && (code c =? 159)
   || (code a =? 227) && (code b =? 128) && (code c =? 128)
   || (code a =? 239) && (code b =? 187) && (code c =? 191))%nat.

(** Removal of leading white space. *)
Fixpoint trimStart (s : string) : string :=
  match s with
  | EmptyString => EmptyString
  | String a r =>
      if isAsciiSpace a then trimStart r
      else
        match r with
        | String b r2 =>
            if isSpace2 a b then trimStart r2
            else
              match r2 with
              | String c r3 => if isSpace3 a b c then trimStart r3 else s
              | EmptyString => s
              end
        | EmptyString => s
        end
  end.

Definition digitOf (radix : Z) (c : ascii) : option Z :=
  let n := Z.of_nat (code c) in
  let v :=
    if (48 <=? n) && (n <=? 57) then Some (n - 48)
    else if (97 <=? n) && (n <=? 122) then Some (n - 87)
    else if (65 <=? n) && (n <=? 90) then Some (n - 55)
    else None in
  match v with
  | Some d => if d <? radix then Some d else None
  | None => None
  end.

(** The value of the longest prefix of digits; [None] when it is empty. *)
Fixpoint digitsPrefix (radix : Z) (s : string) (acc : option Z) : option Z :=
  match s with
  | EmptyString => acc
  | String c r =>
      match digitOf radix c with
      | Some d =>
          digitsPrefix radix r
            (Some (radix * match acc with Some a => a | None => 0 end + d))
      | None => acc
      end
  end.

(** [parseInt(s)] without a radix argument; [None] is NaN, and both zeros
    are [Some 0].  The integer is exact (the source rounds it to a double
    above 2^53). *)
Definition parseInt (s : string) : option Z :=
  let s1 := trimStart s in
  let '(sign, s2) :=
    match s1 with
    | String c r =>
        if (code c =? 45)%nat then (-1, r)
        else if (code c =? 43)%nat then (1, r)
        else (1, s1)
    | EmptyString => (1, s1)
    end in
  let '(radix, s3) :=
    match s2 with
    | String c (String x r) =>
        if ((code c =? 48) && ((code x =? 120) || (code x =? 88)))%nat
        then (16, r) else (10, s2)
    | _ => (10, s2)
    end in
  match digitsPrefix radix s3 None with
  | Some n => Some (sign * n)
  | None => None
  end.

(** [Math.min(parseInt(limit as string) || 50, 100)] *)
Definition maxLimitOf (limit : reqValue) : Z :=
  Z.min (match parseInt (toStringValue limit) with
         | Some n => if n =? 0 then 50 else n
         | None => 50
         end) 100.

(** [l.slice(0, finish)]; a negative [finish] counts from the end. *)
Definition slice0 {A} (finish : Z) (l : list A) : list A :=
  if finish <? 0
  then firstn (Z.to_nat (Z.max (lengthZ l + finish) 0)) l
  else firstn (Z.to_nat finish) l.

(** *** The routes of createAPIServer *)

(** [Array.prototype.filter] with a callback that may throw. *)
Fixpoint filterM {A} (test : A -> completion bool) (l : list A) : completion (list A) :=
  match l with
  | [] => Normal []
  | x :: rest =>
      keep <- test x ;;
      kept <- filterM test rest ;;
      Normal (if keep then x :: kept else kept)
  end.

(** [field?.toLowerCase() === (wanted as string).toLowerCase()] *)
Definition lowerCaseTest (toLowerCase : string -> string) (field : anyField)
  (wanted : reqValue) : completion bool :=
  left <- match field with
          | FNullish => Normal None
          | FString s => Normal (Some (toLowerCase s))
          | FOther => Throw "TypeError: toLowerCase is not a function"
          end ;;
  right <- match wanted with
           | VString s => Normal (toLowerCase s)
           | _ => Throw "TypeError: toLowerCase is not a function"
           end ;;
  Normal match left with
         | Some l => String.eqb l right
         | None => false
         end.

(** [field === wanted] *)
Definition strictTest (field : anyField) (wanted : reqValue) : bool :=
  match field, wanted with
  | FString s, VString w => String.eqb s w
  | _, _ => false
  end.

Definition storiesRoute (toLowerCase : string -> string) (now : Z)
  (getStories : completion (list Item)) (region category limit : reqValue)
  : response :=
  let attempt :=
    stories <- getStories ;;
    stories <- (if truthyValue region
                then filterM (fun s => lowerCaseTest toLowerCase (it_region s) region) stories
                else Normal stories) ;;
    stories <- (if truthyValue category
                then filterM (fun s => lowerCaseTest toLowerCase (it_category s) category) stories
                else Normal stories) ;;
    let maxLimit := maxLimitOf limit in
    let stories := slice0 maxLimit stories in
    Normal (okResponse now
              (StoriesData stories (lengthZ stories) region category maxLimit)) in
  match attempt with
  | Normal r => r
  | Throw _ => errorResponse now 500 "Failed to fetch stories"
  end.

Definition signalsRoute (toLowerCase : string -> string) (now : Z)
  (getSignals : completion (list Item)) (severity region limit : reqValue)
  : response :=
  let attempt :=
    signals <- getSignals ;;
    let signals :=
      if truthyValue severity
      then filter (fun s => strictTest (it_severity s) severity) signals
      else signals in
    signals <- (if truthyValue region
                then filterM (fun s => lowerCaseTest toLowerCase (it_region s) region) signals
                else Normal signals) ;;
    let maxLimit := maxLimitOf limit in
    let signals := slice0 maxLimit signals in
    Normal (okResponse now
              (SignalsData signals (lengthZ signals) severity region maxLimit)) in
  match attempt with
  | Normal r => r
  | Throw _ => errorResponse now 500 "Failed to fetch signals"
  end.












(** *** WebhookService *)

Record WebhookConfig : Type := mkWebhook {
  wh_url : string;
  wh_events : list string;
  wh_secret : string
}.

(** [this.webhooks], a [Map] from id to configuration. *)
Definition Registry : Type := Dict WebhookConfig.

(** [Map.prototype.delete] *)
Fixpoint deleteOwn {V} (k : string) (d : Dict V) : Dict V :=
  match d with
  | [] => []
  | (k', v) :: r => if String.eqb k k' then r else (k', v) :: deleteOwn k r
  end.

(** [registerWebhook]: [validURL url] tells whether [new URL(url)] returns
    rather than throws. *)
Definition registerWebhook (validURL : string -> bool) (id : string)
  (config : WebhookConfig) (webhooks : Registry) : Registry * bool :=
  if validURL (wh_url config)
  then (setOwn id config webhooks, true)
  else (webhooks, false).

Definition removeWebhook (id : string) (webhooks : Registry) : Registry * bool :=
  (deleteOwn id webhooks,
   match getOwn id webhooks with
   | Some _ => true
   | None => false
   end).

Definition listWebhooks (webhooks : Registry) : list (string * list string) :=
  map (fun entry => (fst entry, wh_events (snd entry))) webhooks.

(** What a delivery does to the outside: an HTTP request, or a line on
    [console.error]. *)
Inductive effect : Type :=
| Fetch (url signature body : string)
| ConsoleError (message error : string).

Record Payload : Type := mkPayload {
  pl_event : string;
  pl_data : string;
  pl_timestamp : Z;
  pl_signature : string
}.

(** Reading a [const] binding inside its own initializer throws. *)
Definition readBeforeInit {A} (name : string) : completion A :=
  Throw ("ReferenceError: Cannot access '" +++ name +++ "' before initialization").

(** [sendWebhook]: the initializer of [payload] reads [payload] to sign it.
    [hmac] is [generateSignature], [stringify] is [JSON.stringify]. *)
Definition sendWebhook (hmac : string -> string -> string)
  (stringify : Payload -> string) (now : Z) (config : WebhookConfig)
  (event data : string) : list effect :=
  let attempt :=
    payload <- (self <- readBeforeInit "payload" ;;
                Normal {| pl_event := event;
                          pl_data := data;
                          pl_timestamp := now;
                          pl_signature := hmac (wh_secret config) (stringify self) |}) ;;
    Normal [Fetch (wh_url config) (pl_signature payload) (stringify payload)] in
  match attempt with
  | Normal effects => effects
  | Throw error => [ConsoleError ("Webhook " +++ wh_url config +++ " failed:") error]
  end.

(** [trigger]: the deliveries in registry order. *)
Definition trigger (hmac : string -> string -> string)
  (stringify : Payload -> string) (now : Z) (webhooks : Registry)
  (event data : string) : list effect :=
  fold_left
    (fun effects entry =>
       if includes event (wh_events (snd entry))
       then effects ++ sendWebhook hmac stringify now (snd entry) event data
       else effects)
    webhooks [].

(** *** DataExportService.exportStoriesCSV *)

(** A story as the CSV export reads it: every field a string or absent. *)
Record CsvStory : Type := mkCsvStory {
  cs_id : option string;
  cs_title : option string;
  cs_region : option string;
  cs_category : option string;
  cs_date : option string;
  cs_source : option string
}.

(** [x || ''], and what [join] makes of an absent element. *)
Definition orEmpty (x : option string) : string :=
  match x with
  | Some s => s
  | None => EmptyString
  end.

Definition isQuote (c : ascii) : bool := (code c =? 34)%nat.

(** The [replace] of the source: every double quote becomes two. *)
Fixpoint doubleQuotes (s : string) : string :=
  match s with
  | EmptyString => EmptyString
  | String c r =>
      if isQuote c then String c (String c (doubleQuotes r))
      else String c (doubleQuotes r)
  end.

(** The quoted form of a field, between double quotes *)
Definition quoted (x : option string) : string :=
  dquote +++ doubleQuotes (orEmpty x) +++ dquote.

Definition csvHeaders : list string :=
  ["id"; "title"; "region"; "category"; "date"; "source"]%string.

Definition csvRow (s : CsvStory) : list string :=
  [ orEmpty (cs_id s); quoted (cs_title s); orEmpty (cs_region s);
    orEmpty (cs_category s); orEmpty (cs_date s); quoted (cs_source s) ].

Definition exportStoriesCSV (stories : list CsvStory) : string :=
  String.concat LF
    (String.concat "," csvHeaders
     :: map (fun r => String.concat "," r) (map csvRow stories)).

(** *** Reading the export back

    A reader for the format [exportStoriesCSV] writes: a header line, then
    one row per story, the title and the source between double quotes with
    every quote doubled.  The source has no reader; this one states what
    the export preserves. *)

(** The content of a quoted field, from after its opening quote, and the
    text that follows its closing quote. *)
Fixpoint readQuotedBody (s : string) : option (string * string) :=
  match s with
  | EmptyString => None
  | String c r =>
      if isQuote c then
        match r with
        | String c2 r2 =>
            if isQuote c2 then
              match readQuotedBody r2 with
              | Some (body, rest) => Some (String c body, rest)
              | None => None
              end
            else Some (EmptyString, r)
        | EmptyString => Some (EmptyString, EmptyString)
        end
      else
        match readQuotedBody r with
        | Some (body, rest) => Some (String c body, rest)
        | None => None
        end
  end.

Definition readQuoted (s : string) : option (string * string) :=
  match s with
  | String c r => if isQuote c then readQuotedBody r else None
  | EmptyString => None
  end.

Definition isDelimiter (c : ascii) : bool := ((code c =? 44) || (code c =? 10))%nat.

(** An unquoted field: the text up to the next comma or line feed. *)
Fixpoint readPlain (s : string) : string * string :=
  match s with
  | EmptyString => (EmptyString, EmptyString)
  | String c r =>
      if isDelimiter c then (EmptyString, s)
      else let (field, rest) := readPlain r in (String c field, rest)
  end.

Definition expect (n : nat) (s : string) : option string :=
  match s with
  | String c r => if (code c =? n)%nat then Some r else None
  | EmptyString => None
  end.

(** One row: plain, quoted, plain, plain, plain, quoted. *)
Definition readRow (s : string) : option (list string * string) :=
  let (id, s) := readPlain s in
  match expect 44 s with None => None | Some s =>
  match readQuoted s with None => None | Some (title, s) =>
  match expect 44 s with None => None | Some s =>
  let (region, s) := readPlain s in
  match expect 44 s with None => None | Some s =>
  let (category, s) := readPlain s in
  match expect 44 s with None => None | Some s =>
  let (date, s) := readPlain s in
  match expect 44 s with None => None | Some s =>
  match readQuoted s with None => None | Some (source, s) =>
  Some ([id; title; region; category; date; source], s)
  end end end end end end end.

(** The rows after the header line, each preceded by a line feed. *)
Fixpoint readRows (fuel : nat) (s : string) : option (list (list string)) :=
  match s with
  | EmptyString => Some []
  | String _ _ =>
      match fuel with
      | O => None
      | S fuel' =>
          match expect 10 s with None => None | Some s =>
          match readRow s with None => None | Some (row, s) =>
          match readRows fuel' s with None => None | Some rows =>
          Some (row :: rows)
          end end end
      end
  end.

(** The rows of an export: the header line, then the rows. *)
Definition readCSV (s : string) : option (list (list string)) :=
  let header := String.concat "," csvHeaders in
  if String.prefix header s
  then readRows (String.length s) (String.substring (String.length header)
                                     (String.length s - String.length header) s)
  else None.

(** The fields of a story as the export writes them. *)
Definition csvFields (s : CsvStory) : list string :=
  [ orEmpty (cs_id s); orEmpty (cs_title s); orEmpty (cs_region s);
    orEmpty (cs_category s); orEmpty (cs_date s); orEmpty (cs_source s) ].

Fixpoint plain (s : string) : bool :=
  match s with
  | EmptyString => true
  | String c r => negb (isDelimiter c) && plain r
  end.

(** The unquoted fields of a story hold no comma and no line feed. *)
Definition plainStory (s : CsvStory) : bool :=
  plain (orEmpty (cs_id s)) && plain (orEmpty (cs_region s))
  && plain (orEmpty (cs_category s)) && plain (orEmpty (cs_date s)).

(** *** The configuration *)

(** The initial value of [config]; [envKey] is
    [process.env.WORLDMONITOR_API_KEY]. *)
Definition defaultConfig (envKey : option string) : APIConfig :=
  {| cfg_port := 3001;
     cfg_apiKey :=
       match envKey with
       | Some k => if String.eqb k EmptyString then "dev-key-change-in-production" else k
       | None => "dev-key-change-in-production"
       end;
     cfg_corsOrigins := ["http://localhost:3000"%string];
     cfg_rateLimit := 100 |}.

(** *** Vocabulary of the HTTP layer *)

Definition isNext (v : verdict) : bool :=
  match v with
  | Next => true
  | Respond _ => false
  end.

(** The requests of one client, made at the given times, through
    [rateLimitMiddleware]. *)
Fixpoint serve (config : APIConfig) (ip : option string) (times : list Z)
  (store : RateStore) : RateStore * list verdict :=
  match times with
  | [] => (store, [])
  | t :: rest =>
      let (store', v) := rateLimitMiddleware config t ip store in
      let (store'', vs) := serve config ip rest store' in
      (store'', v :: vs)
  end.

(** The client has no entry, or the window of its entry ended before [t]. *)
Definition windowOver (store : RateStore) (ip : option string) (t : Z) : Prop :=
  match getOwn (clientIdOf ip) store with
  | None => True
  | Some found => cd_resetTime found < t
  end.



(** A query parameter that is absent or given once. *)
Definition givenOnce (v : reqValue) : Prop :=
  match v with
  | VUndefined | VString _ => True
  | _ => False
  end.

(** The comparison of the region and category filters, on a field that is
    a string or absent. *)
Definition matchesLower (toLowerCase : string -> string) (field : anyField)
  (wanted : string) : bool :=
  match field with
  | FString s => String.eqb (toLowerCase s) (toLowerCase wanted)
  | _ => false
  end.

(** The comparison of the severity filter. *)
Definition matchesExactly (field : anyField) (wanted : string) : bool :=
  match field with
  | FString s => String.eqb s wanted
  | _ => false
  end.

(** What a filter parameter keeps: everything when it is absent or empty. *)
Definition keptBy (test : Item -> string -> bool) (wanted : reqValue)
  (items : list Item) : list Item :=
  match wanted with
  | VString w =>
      if String.eqb w EmptyString then items else filter (fun i => test i w) items
  | _ => items
  end.

(** The region and category fields of the items are strings or absent. *)
Definition textFields (items : list Item) : Prop :=
  Forall (fun i => it_region i <> FOther /\ it_category i <> FOther) items.

(** The answers of the two list routes when something throws. *)
Definition storiesFailure (now : Z) : response :=
  errorResponse now 500 "Failed to fetch stories".

Definition signalsFailure (now : Z) : response :=
  errorResponse now 500 "Failed to fetch signals".

(** The configurations subscribed to an event, in registry order. *)
Definition subscribers (event : string) (webhooks : Registry) : list WebhookConfig :=
  filter (fun config => includes event (wh_events config)) (map snd webhooks).

Definition isFetch (e : effect) : bool :=
  match e with
  | Fetch _ _ _ => true
  | ConsoleError _ _ => false
  end.

(** The first argument of [console.error]. *)
Definition messageOf (e : effect) : string :=
  match e with
  | Fetch _ _ _ => EmptyString
  | ConsoleError message _ => message
  end.

(** The operations of a [WebhookService], and a sequence of them applied
    to a registry. *)
Inductive registryOp : Type :=
| OpRegister (id : string) (config : WebhookConfig)
| OpRemove (id : string).

Definition applyOp (validURL : string -> bool) (webhooks : Registry) (op : registryOp)
  : Registry :=
  match op with
  | OpRegister id config => fst (registerWebhook validURL id config webhooks)
  | OpRemove id => fst (removeWebhook id webhooks)
  end.

(** The stories an export can be read back from: no comma and no line
    feed in the unquoted fields. *)
Definition plainStories (stories : list CsvStory) : Prop :=
  Forall (fun s => plainStory s = true) stories.

(** Text that does not begin another field: the end of the export, or a
    comma or a line feed. *)
Definition atDelimiter (s : string) : Prop :=
  match s with
  | EmptyString => True
  | String c _ => isDelimiter c = true
  end.

(** *** Example requests and stories *)

Module ApiExamples.

Local Open Scope string_scope.

Definition item (region category severity : string) : Item :=
  {| it_region := FString region; it_category := FString category;
     it_severity := FString severity; it_rest := "" |}.

Definition kyiv : Item := item "Ukraine" "military" "high".
Definition taipei : Item := item "Taiwan" "politics" "low".
Definition odesa : Item :=
  {| it_region := FString "ukraine"; it_category := FNullish;
     it_severity := FString "high"; it_rest := "" |}.

(** A lower-casing of the ASCII letters. *)
Definition lowerChar (c : ascii) : ascii :=
  let n := nat_of_ascii c in
  if ((65 <=? n) && (n <=? 90))%nat then ascii_of_nat (n + 32) else c.

Fixpoint lower (s : string) : string :=
  match s with
  | EmptyString => EmptyString
  | String c r => String (lowerChar c) (lower r)
  end.

(** A story whose title holds a quote, a comma and a line feed. *)
Definition quotedStory : CsvStory :=
  {| cs_id := Some "s-1";
     cs_title := Some ("He said " +++ dquote +++ "no" +++ dquote +++ ", twice" +++ LF +++ "today");
     cs_region := Some "Taiwan";
     cs_category := None;
     cs_date := Some "2026-01-05T10:00:00Z";
     cs_source := Some "wire" |}.

Definition bareStory : CsvStory :=
  {| cs_id := None; cs_title := None; cs_region := Some ""; cs_category := None;
     cs_date := None; cs_source := None |}.

End ApiExamples.

(** ** The engine *)

Section Engine.

Set Default Proof Using "Type".

(** [new Date()] at the time of the run. *)
Variable now : Z.

Variables (Math_sin Math_cos Math_sqrt : Q -> Q) (Math_atan2 : Q -> Q -> Q) (Math_PI : Q).

Definition toRad (deg : Q) : Q := (deg * (Math_PI / 180))%Q.

Definition haversineDistance (lat1 lon1 lat2 lon2 : Q) : Q :=
  (let R := 6371 in
   let dLat := toRad (lat2 - lat1) in
   let dLon := toRad (lon2 - lon1) in
   let a :=
     Math_sin (dLat / 2) * Math_sin (dLat / 2) +
     Math_cos (toRad lat1) * Math_cos (toRad lat2) *
     Math_sin (dLon / 2) * Math_sin (dLon / 2) in
   let c := 2 * Math_atan2 (Math_sqrt a) (Math_sqrt (1 - a)) in
   R * c)%Q.

(** *** findTemporalCorrelations *)

Definition temporalBody (e1 e2 : CorrelationEvent) (results : list CorrelationResult)
  : list CorrelationResult :=
  let timeDiff := (inject_Z (Z.abs (e_date e1 - e_date e2)) / MS_PER_HOUR)%Q in
  if Qle_bool timeDiff CORRELATION_WINDOW then
    let shared := sharedKeywords e1 e2 in
    if 2 <=? lengthZ shared then
      let score :=
        Z.min 100 (Math_round ((1 - timeDiff / CORRELATION_WINDOW) * 100
                               + inject_Z (lengthZ shared) * 10)%Q) in
      results ++
      [ {| r_id := "temp_" +++ e_id e1 +++ "_" +++ e_id e2;
           r_type := temporal;
           r_score := score;
           r_events := [e_id e1; e_id e2];
           r_description :=
             e_title e1 +++ " and " +++ e_title e2 +++ " occurred within "
             +++ numToString (Math_round timeDiff) +++ " hours, sharing: "
             +++ String.concat ", " shared;
           r_significance :=
             if 70 <? score then high else if 50 <? score then medium else low;
           r_timestamp := now |} ]
    else results
  else results.

Definition findTemporalCorrelations (events : list CorrelationEvent)
  : list CorrelationResult :=
  Array_sort byScoreDesc (forEachPair temporalBody events []).

(** *** findSpatialCorrelations *)

Definition spatialBody (e1 e2 : CorrelationEvent) (results : list CorrelationResult)
  : list CorrelationResult :=
  match coords e1, coords e2 with
  | Some (lat1, lon1), Some (lat2, lon2) =>
      let distance := haversineDistance lat1 lon1 lat2 lon2 in
      if Qle_bool distance SPATIAL_THRESHOLD_KM then
        let score :=
          Z.min 100 (Math_round ((1 - distance / SPATIAL_THRESHOLD_KM) * 100)%Q) in
        results ++
        [ {| r_id := "spat_" +++ e_id e1 +++ "_" +++ e_id e2;
             r_type := spatial;
             r_score := score;
             r_events := [e_id e1; e_id e2];
             r_description :=
               e_title e1 +++ " and " +++ e_title e2 +++ " occurred within "
               +++ numToString (Math_round distance) +++ "km of each other";
             r_significance :=
               if Qltb distance 100 then high
               else if Qltb distance 250 then medium else low;
             r_timestamp := now |} ]
      else results
  | _, _ => results
  end.

Definition findSpatialCorrelations (events : list CorrelationEvent)
  : list CorrelationResult :=
  Array_sort byScoreDesc (forEachPair spatialBody events []).

(** *** findThematicCorrelations *)

(** The grouping loops: every keyword occurrence of every event pushes the
    event's id. *)
Definition groupKeywords (events : list CorrelationEvent)
  : completion (Dict (list string)) :=
  fold_left
    (fun acc event =>
       fold_left
         (fun acc' keyword => d <- acc' ;; pushInto keyword (e_id event) d)
         (e_keywords event) acc)
    events (Normal []).

Definition thematicBody (events : list CorrelationEvent)
  (results : list CorrelationResult) (entry : string * list string)
  : list CorrelationResult :=
  let (keyword, eventIds) := entry in
  if 3 <=? lengthZ eventIds then
    let eventsData := filter (fun e => includes (e_id e) eventIds) events in
    let dateRange := Math_max_minus_min (map e_date eventsData) in
    let daysRange := js_divq dateRange (1000 * 60 * 60 * 24) in
    results ++
    [ {| r_id := "theme_" +++ keyword;
         r_type := thematic;
         r_score := Z.min 100 (Math_round (inject_Z (lengthZ eventIds) * 15)%Q);
         r_events := eventIds;
         r_description :=
           numToString (lengthZ eventIds) +++ " events share " +++ dquote
           +++ keyword +++ dquote +++ " theme over "
           +++ roundToString daysRange +++ " days";
         r_significance :=
           if 5 <=? lengthZ eventIds then high
           else if 3 <=? lengthZ eventIds then medium else low;
         r_timestamp := now |} ]
  else results.

Definition findThematicCorrelations (events : list CorrelationEvent)
  : completion (list CorrelationResult) :=
  keywordToEvents <- groupKeywords events ;;
  Normal (Array_sort byScoreDesc
            (fold_left (thematicBody events) (Object_entries keywordToEvents) [])).

(** *** detectCascades *)

Definition byDateAsc (a b : CorrelationEvent) : Z := e_date a - e_date b.

Definition cascadeBody (e1 e2 : CorrelationEvent) (results : list CorrelationResult)
  : list CorrelationResult :=
  let hoursDiff := (inject_Z (e_date e2 - e_date e1) / MS_PER_HOUR)%Q in
  if Qltb 6 hoursDiff && Qltb hoursDiff 48 then
    let sameRegion := String.eqb (e_region e1) (e_region e2) in
    let shared := sharedKeywords e1 e2 in
    if sameRegion || (2 <=? lengthZ shared) then
      let score :=
        Z.min 100 (Math_round ((1 - hoursDiff / 48) * 100
                               + (if sameRegion then 20
                                  else inject_Z (lengthZ shared) * 10))%Q) in
      results ++
      [ {| r_id := "cascade_" +++ e_id e1 +++ "_" +++ e_id e2;
           r_type := cascade;
           r_score := score;
           r_events := [e_id e1; e_id e2];
           r_description :=
             "Possible cascade: " +++ e_title e1 +++ " → " +++ e_title e2
             +++ " (" +++ numToString (Math_round hoursDiff) +++ "h later)"
             +++ (if sameRegion then " [same region]" else EmptyString);
           r_significance := if Qltb hoursDiff 12 then high else medium;
           r_timestamp := now |} ]
    else results
  else results.

Definition detectCascades (events : list CorrelationEvent) : list CorrelationResult :=
  let sorted := Array_sort byDateAsc events in
  Array_sort byScoreDesc (forEachPair cascadeBody sorted []).

(** *** findTemporalPatterns *)

(** [`${event.region}:${event.keywords.slice(0, 2).join(',')}`] *)
Definition groupKey (event : CorrelationEvent) : string :=
  e_region event +++ ":" +++ String.concat "," (firstn 2 (e_keywords event)).

Definition groupDates (sorted : list CorrelationEvent) : completion (Dict (list Z)) :=
  fold_left
    (fun acc event => groups <- acc ;; pushInto (groupKey event) (e_date event) groups)
    sorted (Normal []).

(** [dates[i] - dates[i-1]] for [i = 1 .. dates.length - 1] *)
Fixpoint intervals (dates : list Z) : list Z :=
  match dates with
  | a :: (b :: _) as rest => (b - a) :: intervals rest
  | _ => []
  end.

(** The consistency loop; it stops at the first interval that deviates. *)
Fixpoint consistentLoop (avgIntervalHours : Q) (ivs : list Z) : bool :=
  match ivs with
  | [] => true
  | iv :: rest =>
      let interval := (inject_Z iv / MS_PER_HOUR)%Q in
      if js_gt (js_div (Qabs (interval - avgIntervalHours)) avgIntervalHours) 0.2
      then false
      else consistentLoop avgIntervalHours rest
  end.

Definition patternBody (patterns : list TemporalPattern) (entry : string * list Z)
  : list TemporalPattern :=
  let (key, dates) := entry in
  if 3 <=? lengthZ dates then
    let totalInterval := fold_left Z.add (intervals dates) 0 in
    let avgIntervalMs := (inject_Z totalInterval / inject_Z (lengthZ dates - 1))%Q in
    let avgIntervalHours := (avgIntervalMs / MS_PER_HOUR)%Q in
    let consistent := consistentLoop avgIntervalHours (intervals dates) in
    if consistent && Qltb avgIntervalHours 168 then
      patterns ++
      [ {| p_pattern :=
             "recurring every " +++ numToString (Math_round avgIntervalHours) +++ " hours";
           p_frequency := avgIntervalHours;
           p_confidence := Z.min 100 (Math_round (inject_Z (lengthZ dates) * 20)%Q);
           p_recentHits := slice_last 5 dates |} ]
    else patterns
  else patterns.

Definition byConfidenceDesc (a b : TemporalPattern) : Z := p_confidence b - p_confidence a.

Definition findTemporalPatterns (events : list CorrelationEvent)
  : completion (list TemporalPattern) :=
  let sorted := Array_sort byDateAsc events in
  groups <- groupDates sorted ;;
  Normal (Array_sort byConfidenceDesc (fold_left patternBody (Object_entries groups) [])).

(** *** findGeographicClusters *)

(** [Set.prototype.add] *)
Definition Set_add (x : string) (s : list string) : list string :=
  if includes x s then s else s ++ [x].

(** The cluster a seed starts with. *)
Definition seedCluster (event : CorrelationEvent) (lat lon : Q) : GeographicCluster :=
  {| centerLat := lat;
     centerLon := lon;
     radiusKm := 50;
     eventCount := 1;
     categories := [e_category event];
     dateRange_start := e_date event;
     dateRange_end := e_date event |}.

(** Body of the inner loop [for (const other of events)]. *)
Definition absorb (event : CorrelationEvent) (lat lon : Q)
  (st : GeographicCluster * list string) (other : CorrelationEvent)
  : GeographicCluster * list string :=
  let (cluster, used) := st in
  if String.eqb (e_id event) (e_id other) then st
  else
    match coords other with
    | None => st
    | Some (olat, olon) =>
        let distance := haversineDistance lat lon olat olon in
        if Qle_bool distance 100 then
          ({| centerLat := centerLat cluster;
              centerLon := centerLon cluster;
              radiusKm := Math_max (radiusKm cluster) distance;
              eventCount := eventCount cluster + 1;
              categories :=
                if includes (e_category other) (categories cluster)
                then categories cluster
                else categories cluster ++ [e_category other];
              dateRange_start :=
                if e_date other <? dateRange_start cluster
                then e_date other else dateRange_start cluster;
              dateRange_end :=
                if dateRange_end cluster <? e_date other
                then e_date other else dateRange_end cluster |},
           Set_add (e_id other) used)
        else st
    end.

(** Body of the outer loop [for (const event of events)]. *)
Definition clusterBody (events : list CorrelationEvent)
  (st : list GeographicCluster * list string) (event : CorrelationEvent)
  : list GeographicCluster * list string :=
  let (clusters, used) := st in
  match coords event with
  | None => st
  | Some (lat, lon) =>
      if includes (e_id event) used then st
      else
        let (cluster, used') :=
          fold_left (absorb event lat lon) events (seedCluster event lat lon, used) in
        if 2 <=? eventCount cluster
        then (clusters ++ [cluster], used')
        else (clusters, used')
  end.

Definition byEventCountDesc (a b : GeographicCluster) : Z := eventCount b - eventCount a.

Definition findGeographicClusters (events : list CorrelationEvent)
  : list GeographicCluster :=
  Array_sort byEventCountDesc (fst (fold_left (clusterBody events) events ([], []))).

(** *** runCorrelationEngine *)

(** An exception of a pass rejects the promise the engine returns. *)
Definition runCorrelationEngine (events : list CorrelationEvent)
  : completion EngineResults :=
  let temporal := findTemporalCorrelations events in
  let spatial := findSpatialCorrelations events in
  thematic <- findThematicCorrelations events ;;
  let cascades := detectCascades events in
  patterns <- findTemporalPatterns events ;;
  let clusters := findGeographicClusters events in
  Normal {| res_temporal := temporal;
            res_spatial := spatial;
            res_thematic := thematic;
            res_cascades := cascades;
            res_patterns := patterns;
            res_clusters := clusters |}.

(** *** correlationsToThreatSignals *)

Definition isHigh (r : CorrelationResult) : bool :=
  match r_significance r with
  | high => true
  | _ => false
  end.

Definition signalBody (signals : list ThreatSignal) (corr : CorrelationResult)
  : list ThreatSignal :=
  signals ++
  [ {| s_type := "correlation_" +++ typeName (r_type corr);
       s_title := toUpperCase (typeName (r_type corr)) +++ " Correlation Detected";
       s_description := r_description corr;
       s_severity := if isHigh corr then "medium" else "low";
       s_score := r_score corr;
       s_events := r_events corr;
       s_timestamp := now |} ].

Definition correlationsToThreatSignals (results : EngineResults) : list ThreatSignal :=
  let all :=
    filter isHigh (res_temporal results)
    ++ filter isHigh (res_spatial results)
    ++ filter isHigh (res_cascades results) in
  fold_left signalBody (firstn 5 all) [].

(** Propositional reasoning that leaves the section variables alone. *)
Ltac propositional :=
  try clear Math_sin Math_cos Math_sqrt Math_atan2 Math_PI; try clear now; tauto.

(** ** The specification's vocabulary *)

(** *** Scores and views *)

(** [clamp0_100]: clamping to the interval [0, 100]. *)
Definition clamp0_100 (z : Z) : Z := Z.max 0 (Z.min 100 z).

Definition inRange0_100 (z : Z) : Prop := 0 <= z <= 100.

Definition scoreInRange (r : CorrelationResult) : Prop := inRange0_100 (r_score r).



(** *** Pairs of events *)

(** All pairs of list positions [i < j], in loop order. *)
Fixpoint pairs {A} (l : list A) : list (A * A) :=
  match l with
  | [] => []
  | x :: rest => map (pair x) rest ++ pairs rest
  end.

Definition swap {A} (p : A * A) : A * A := (snd p, fst p).

(** All pairs of distinct list positions, in either order. *)
Definition orderedPairs {A} (l : list A) : list (A * A) :=
  pairs l ++ map swap (pairs l).

(** *** Keywords *)






(** *** Temporal correlator *)

(** Absolute time difference in hours. *)
Definition hoursApart (e1 e2 : CorrelationEvent) : Q :=
  (inject_Z (Z.abs (e_date e1 - e_date e2)) / 3600000)%Q.






(** *** Cascade detector *)

(** Time from the first event to the second, in hours. *)
Definition gapHours (e1 e2 : CorrelationEvent) : Q :=
  (inject_Z (e_date e2 - e_date e1) / 3600000)%Q.

Definition sameRegion (e1 e2 : CorrelationEvent) : bool :=
  String.eqb (e_region e1) (e_region e2).







(** *** Thematic correlator *)







(** *** Pattern detector *)

(** Milliseconds in [h] hours. *)
Definition hoursMs (h : Z) : Z := h * 3600000.

(** Region "X" and first keywords ["a", "b"]. *)
Definition signatureXab (e : CorrelationEvent) : Prop :=
  e_region e = "X"%string /\ firstn 2 (e_keywords e) = ["a"; "b"]%string.

(** The events of a group: those with the given
    region-plus-first-two-keywords signature. *)
Definition groupOf (key : string) (events : list CorrelationEvent)
  : list CorrelationEvent :=
  filter (fun e => String.eqb (groupKey e) key) events.

(** *** Spatial correlator and cluster builder *)

(** The coordinates an event carries, zero or not. *)
Definition position (e : CorrelationEvent) : option (Q * Q) :=
  match e_lat e, e_lon e with
  | Some la, Some lo => Some (la, lo)
  | _, _ => None
  end.

(** Great-circle distance between two events that carry coordinates. *)
Definition distanceKm (e1 e2 : CorrelationEvent) : Q :=
  match position e1, position e2 with
  | Some (lat1, lon1), Some (lat2, lon2) => haversineDistance lat1 lon1 lat2 lon2
  | _, _ => 0%Q
  end.

(** An event that carries both coordinates, neither of them zero. *)
Definition nonzeroCoords (e : CorrelationEvent) : Prop :=
  exists la lo, e_lat e = Some la /\ e_lon e = Some lo /\ ~ (la == 0)%Q /\ ~ (lo == 0)%Q.

(** The events a seed absorbs: the other events (by id) that pass the
    coordinate check and lie within 100 km of the seed. *)
Definition joins (seed other : CorrelationEvent) : bool :=
  negb (String.eqb (e_id seed) (e_id other))
  && match coords other with
     | Some _ => Qle_bool (distanceKm seed other) 100
     | None => false
     end.

Definition absorbed (seed : CorrelationEvent) (events : list CorrelationEvent)
  : list CorrelationEvent :=
  filter (joins seed) events.

(** The members of the cluster seeded by [seed]. *)
Definition members (seed : CorrelationEvent) (events : list CorrelationEvent)
  : list CorrelationEvent :=
  seed :: absorbed seed events.

(** [m] is the largest element of [l]. *)
Definition isMaximum (m : Q) (l : list Q) : Prop :=
  In m l /\ forall d, In d l -> (d <= m)%Q.

(** The cluster the inner loop builds around a seed. *)
Definition clusterOf (seed : CorrelationEvent) (events : list CorrelationEvent)
  (c : GeographicCluster) : Prop :=
  position seed = Some (centerLat c, centerLon c)
  /\ eventCount c = lengthZ (members seed events)
  /\ isMaximum (radiusKm c) (50%Q :: map (distanceKm seed) (absorbed seed events)).

(** *** Signal projector *)

(** The high-significance temporal, spatial and cascade results of a
    bundle, in that order. *)
Definition alertable (results : EngineResults) : list CorrelationResult :=
  filter isHigh (res_temporal results)
  ++ filter isHigh (res_spatial results)
  ++ filter isHigh (res_cascades results).

(** The alert record of a result: medium severity, the original score,
    description and contributing events. *)
Definition signalFor (r : CorrelationResult) : ThreatSignal :=
  {| s_type := "correlation_" +++ typeName (r_type r);
     s_title := toUpperCase (typeName (r_type r)) +++ " Correlation Detected";
     s_description := r_description r;
     s_severity := "medium";
     s_score := r_score r;
     s_events := r_events r;
     s_timestamp := now |}.

(** The alert types the projector may produce. *)
Definition signalTypes : list string :=
  ["correlation_temporal"; "correlation_spatial"; "correlation_cascade"]%string.

(** The same bundle with other thematic results, patterns and clusters. *)
Definition withOthers (results : EngineResults)
  (thematic' : list CorrelationResult) (patterns' : list TemporalPattern)
  (clusters' : list GeographicCluster) : EngineResults :=
  {| res_temporal := res_temporal results;
     res_spatial := res_spatial results;
     res_thematic := thematic';
     res_cascades := res_cascades results;
     res_patterns := patterns';
     res_clusters := clusters' |}.

(** *** Further vocabulary *)

(** An event that passes the coordinate check: both coordinates present
    and different from zero. *)
Definition located (e : CorrelationEvent) : bool :=
  match e_lat e, e_lon e with
  | Some la, Some lo => negb (Qeq_bool la 0) && negb (Qeq_bool lo 0)
  | _, _ => false
  end.





(** A list in descending order of a key. *)
Definition descending {A} (key : A -> Z) (l : list A) : Prop :=
  StronglySorted (fun a b => key b <= key a) l.

(** A list of dates in ascending order. *)
Definition ascending (l : list Z) : Prop := StronglySorted Z.le l.


(** [m] is the least or the greatest element of [l]. *)
Definition isLeast (m : Z) (l : list Z) : Prop := In m l /\ forall d, In d l -> m <= d.
Definition isGreatest (m : Z) (l : list Z) : Prop := In m l /\ forall d, In d l -> d <= m.

(** The dates of the events of a group, in date order. *)
Definition groupDatesOf (key : string) (events : list CorrelationEvent) : list Z :=
  map e_date (groupOf key (Array_sort byDateAsc events)).

(** The score bands of the significance levels of a spatial result, of a
    cascade result, and the way a thematic result depends on the number of
    its events. *)
Definition spatialBand (r : CorrelationResult) : Prop :=
  match r_significance r with
  | high => 80 <= r_score r <= 100
  | medium => 50 <= r_score r <= 80
  | low => 0 <= r_score r <= 50
  end.

Definition cascadeBand (r : CorrelationResult) : Prop :=
  match r_significance r with
  | high => 95 <= r_score r <= 100
  | medium => 20 <= r_score r <= 100
  | low => False
  end.

Definition thematicBand (r : CorrelationResult) : Prop :=
  3 <= lengthZ (r_events r)
  /\ r_score r = Z.min 100 (15 * lengthZ (r_events r))
  /\ r_significance r = (if 5 <=? lengthZ (r_events r) then high else medium).

(** ** Auxiliary definitions of the proofs *)

(** [pushInto] when it does not throw. *)
Definition pushOwn {V} (k : string) (v : V) (d : Dict (list V)) : Dict (list V) :=
  match getOwn k d with
  | Some vs => setOwn k (vs ++ [v]) d
  | None => d ++ [(k, [v])]
  end.

Definition pushAll {V} (occ : list (string * V)) (d : Dict (list V))
  : Dict (list V) :=
  fold_left (fun d' kv => pushOwn (fst kv) (snd kv) d') occ d.

(** The values pushed under key [k], in order. *)
Definition valuesOf {V} (k : string) (occ : list (string * V)) : list V :=
  map snd (filter (fun kv => String.eqb (fst kv) k) occ).

Definition keysOf {V} (d : Dict (list V)) : list string := map fst d.

Fixpoint hasColon (s : string) : bool :=
  match s with
  | EmptyString => false
  | String c r => Ascii.eqb c ":" || hasColon r
  end.

(** The (key, date) pushes of the grouping loop of [findTemporalPatterns]. *)
Definition datePushes (sorted : list CorrelationEvent) : list (string * Z) :=
  map (fun e => (groupKey e, e_date e)) sorted.


(** ** General facts about the built-ins *)

Lemma insertBy_perm {A} (cmp : A -> A -> Z) (x : A) (l : list A) :
  Permutation (insertBy cmp x l) (x :: l).
Proof.
  induction l as [|y l IH]; simpl.
  - apply Permutation_refl.
  - destruct (cmp x y <=? 0).
    + apply Permutation_refl.
    + apply perm_trans with (y :: x :: l).
      * apply perm_skip, IH.
      * apply perm_swap.
Qed.

Lemma Array_sort_perm {A} (cmp : A -> A -> Z) (l : list A) :
  Permutation (Array_sort cmp l) l.
Proof.
  induction l as [|x l IH]; simpl.
  - apply perm_nil.
  - eapply perm_trans; [apply insertBy_perm|]. now apply perm_skip.
Qed.

Lemma Array_sort_In {A} (cmp : A -> A -> Z) (l : list A) (x : A) :
  In x (Array_sort cmp l) <-> In x l.
Proof.
  split; apply Permutation_in;
    [apply Array_sort_perm | apply Permutation_sym, Array_sort_perm].
Qed.

Lemma Array_sort_Forall {A} (P : A -> Prop) (cmp : A -> A -> Z) (l : list A) :
  Forall P l -> Forall P (Array_sort cmp l).
Proof.
  rewrite !Forall_forall. intros H x Hx. apply H. now apply Array_sort_In in Hx.
Qed.

Lemma fold_left_append {A B} (body : B -> list A -> list A) (emit : B -> list A) :
  (forall y s, body y s = s ++ emit y) ->
  forall l s, fold_left (fun s' y => body y s') l s = s ++ flat_map emit l.
Proof.
  intros Hb l. induction l as [|y l IH]; intros s; simpl.
  - now rewrite app_nil_r.
  - rewrite IH, Hb. now rewrite <- app_assoc.
Qed.

(** A loop over pairs whose body only appends visits [pairs] in order. *)
Lemma forEachPair_append {A B} (body : A -> A -> list B -> list B)
  (emit : A * A -> list B) :
  (forall x y s, body x y s = s ++ emit (x, y)) ->
  forall l s, forEachPair body l s = s ++ flat_map emit (pairs l).
Proof.
  intros Hb l. induction l as [|x l IH]; intros s; simpl.
  - now rewrite app_nil_r.
  - rewrite IH.
    rewrite (fold_left_append (fun y s' => body x y s') (fun y => emit (x, y)))
      by (intros; apply Hb).
    rewrite flat_map_app, <- app_assoc. f_equal. f_equal.
    clear. induction l as [|y l IH]; simpl; [reflexivity | now rewrite IH].
Qed.

Lemma flat_map_filter {A B} (q : A -> bool) (f : A -> B) (l : list A) :
  flat_map (fun p => if q p then [f p] else []) l = map f (filter q l).
Proof.
  induction l as [|x l IH]; simpl; [reflexivity|].
  destruct (q x); simpl; now rewrite IH.
Qed.

Lemma pairs_In {A} (l : list A) (x y : A) :
  In (x, y) (pairs l) -> In x l /\ In y l.
Proof.
  induction l as [|z l IH]; simpl; [contradiction|].
  rewrite in_app_iff, in_map_iff. intros [[w [Hw Hin]] | H].
  - inversion Hw; subst. auto.
  - destruct (IH H). auto.
Qed.

Lemma includes_In (k : string) (l : list string) : includes k l = true <-> In k l.
Proof.
  unfold includes. rewrite existsb_exists. split.
  - intros [x [Hx He]]. apply String.eqb_eq in He. now subst.
  - intros H. exists k. split; [assumption | apply String.eqb_refl].
Qed.



Lemma Math_round_nonneg (q : Q) : (0 <= q)%Q -> 0 <= Math_round q.
Proof.
  intros H. unfold Math_round.
  change 0 with (Qfloor 0). apply Qfloor_resp_le. lra.
Qed.

Lemma clamp_of_nonneg (z : Z) : 0 <= z -> Z.min 100 z = clamp0_100 z.
Proof. unfold clamp0_100. lia. Qed.

Lemma lengthZ_nonneg {A} (l : list A) : 0 <= lengthZ l.
Proof. unfold lengthZ. lia. Qed.

Lemma inject_Z_nonneg (n : Z) : 0 <= n -> (0 <= inject_Z n)%Q.
Proof. intros H. change 0%Q with (inject_Z 0). now rewrite <- Zle_Qle. Qed.

(** ** Temporal correlator *)

Lemma temporalBody_emit (e1 e2 : CorrelationEvent) (s : list CorrelationResult) :
  temporalBody e1 e2 s = s ++ temporalBody e1 e2 [].
Proof.
  unfold temporalBody.
  destruct (Qle_bool _ CORRELATION_WINDOW); [|now rewrite app_nil_r].
  destruct (2 <=? _); [reflexivity | now rewrite app_nil_r].
Qed.

(** The list the double loop builds, before it is sorted. *)
Lemma findTemporalCorrelations_unfold (events : list CorrelationEvent) :
  findTemporalCorrelations events =
  Array_sort byScoreDesc
    (flat_map (fun p => temporalBody (fst p) (snd p) []) (pairs events)).
Proof.
  unfold findTemporalCorrelations. f_equal.
  apply (forEachPair_append temporalBody (fun p => temporalBody (fst p) (snd p) [])).
  intros; apply temporalBody_emit.
Qed.

Lemma temporal_base_nonneg (e1 e2 : CorrelationEvent) (n : Z) :
  Qle_bool (hoursApart e1 e2) 72 = true -> 0 <= n ->
  0 <= Math_round ((1 - hoursApart e1 e2 / 72) * 100 + inject_Z n * 10)%Q.
Proof.
  intros Hw Hn. apply Math_round_nonneg.
  apply Qle_bool_iff in Hw.
  pose proof (inject_Z_nonneg n Hn).
  assert (hoursApart e1 e2 / 72 <= 1)%Q by (apply Qle_shift_div_r; lra).
  lra.
Qed.




(** ** Sorting by a key, and the pairs of a sorted list *)

Section SortedPairs.

Context {A : Type} (key : A -> Z).

Let cmp (a b : A) : Z := key a - key b.
Let le (a b : A) : Prop := key a <= key b.

Lemma insertBy_sorted (x : A) (l : list A) :
  StronglySorted le l -> StronglySorted le (insertBy cmp x l).
Proof.
  induction 1 as [|y l Hs IH Hy]; simpl.
  - constructor; constructor.
  - unfold cmp at 1. destruct (key x - key y <=? 0) eqn:E.
    + apply Z.leb_le in E. constructor.
      * now constructor.
      * constructor; [unfold le; lia|].
        eapply Forall_impl; [|exact Hy]. unfold le. intros; lia.
    + apply Z.leb_gt in E. constructor; [assumption|].
      eapply Permutation_Forall; [apply Permutation_sym, insertBy_perm|].
      constructor; [unfold le; lia | assumption].
Qed.

Lemma Array_sort_sorted (l : list A) : StronglySorted le (Array_sort cmp l).
Proof.
  induction l as [|x l IH]; simpl; [constructor | now apply insertBy_sorted].
Qed.

Lemma pairs_sorted (l : list A) (x y : A) :
  StronglySorted le l -> In (x, y) (pairs l) -> key x <= key y.
Proof.
  induction 1 as [|z l Hs IH Hz]; simpl; [contradiction|].
  rewrite in_app_iff, in_map_iff. intros [[w [Hw Hin]] | H].
  - inversion Hw; subst. rewrite Forall_forall in Hz. now apply Hz.
  - now apply IH.
Qed.

(** A filter that only accepts pairs going strictly forward in the key
    finds all of its pairs among the [pairs] of the sorted list. *)
Lemma filter_pairs_sorted (q : A * A -> bool) (l : list A) :
  (forall p, q p = true -> key (fst p) < key (snd p)) ->
  filter q (orderedPairs (Array_sort cmp l)) = filter q (pairs (Array_sort cmp l)).
Proof.
  intros Hq. unfold orderedPairs. rewrite filter_app.
  assert (E : filter q (map swap (pairs (Array_sort cmp l))) = []).
  { pose proof (pairs_sorted (Array_sort cmp l)) as Hs.
    induction (pairs (Array_sort cmp l)) as [|[x y] ps IH]; simpl; [reflexivity|].
    destruct (q (swap (x, y))) eqn:E.
    - apply Hq in E. simpl in E.
      specialize (Hs x y (Array_sort_sorted l) (or_introl eq_refl)). lia.
    - apply IH. intros a b Hab Hin. apply Hs; [assumption | now right]. }
  rewrite E. apply app_nil_r.
Qed.

End SortedPairs.

Lemma orderedPairs_cons {A} (x : A) (l : list A) :
  Permutation (orderedPairs (x :: l))
              (map (pair x) l ++ map (fun y => (y, x)) l ++ orderedPairs l).
Proof.
  unfold orderedPairs. simpl. rewrite !map_app, map_map. simpl.
  change (fun x0 : A => swap (x, x0)) with (fun y : A => (y, x)).
  aac_reflexivity.
Qed.

Lemma perm_shuffle {B} (a b : B) (p q r s t : list B) :
  Permutation (a :: p ++ b :: q ++ r ++ s ++ t) (b :: r ++ a :: s ++ p ++ q ++ t).
Proof.
  change (Permutation ([a] ++ p ++ [b] ++ q ++ r ++ s ++ t)
                      ([b] ++ r ++ [a] ++ s ++ p ++ q ++ t)).
  aac_reflexivity.
Qed.

Lemma orderedPairs_perm {A} (l l' : list A) :
  Permutation l l' -> Permutation (orderedPairs l) (orderedPairs l').
Proof.
  induction 1 as [|x l l' Hp IH|x y l|l l' l'' _ IH1 _ IH2].
  - apply Permutation_refl.
  - rewrite !orderedPairs_cons.
    rewrite IH, (Permutation_map (pair x) Hp), (Permutation_map (fun y => (y, x)) Hp).
    apply Permutation_refl.
  - rewrite (orderedPairs_cons y), (orderedPairs_cons x (y :: l)), !orderedPairs_cons.
    simpl. apply perm_shuffle.
  - now rewrite IH1.
Qed.


Lemma filter_perm {A} (q : A -> bool) (l l' : list A) :
  Permutation l l' -> Permutation (filter q l) (filter q l').
Proof.
  induction 1 as [|x l l' Hp IH|x y l|l l' l'' _ IH1 _ IH2]; simpl.
  - apply perm_nil.
  - destruct (q x); [now apply perm_skip | assumption].
  - destruct (q x), (q y); try apply Permutation_refl. apply perm_swap.
  - now apply perm_trans with (filter q l').
Qed.

(** ** Cascade detector *)

Lemma cascadeBody_emit (e1 e2 : CorrelationEvent) (s : list CorrelationResult) :
  cascadeBody e1 e2 s = s ++ cascadeBody e1 e2 [].
Proof.
  unfold cascadeBody.
  destruct (Qltb 6 _ && Qltb _ 48); [|now rewrite app_nil_r].
  destruct (_ || _); [reflexivity | now rewrite app_nil_r].
Qed.

Lemma detectCascades_unfold (events : list CorrelationEvent) :
  detectCascades events =
  Array_sort byScoreDesc
    (flat_map (fun p => cascadeBody (fst p) (snd p) [])
              (pairs (Array_sort byDateAsc events))).
Proof.
  unfold detectCascades. f_equal.
  apply (forEachPair_append cascadeBody (fun p => cascadeBody (fst p) (snd p) [])).
  intros; apply cascadeBody_emit.
Qed.

Lemma Qltb_lt (x y : Q) : Qltb x y = true <-> (x < y)%Q.
Proof.
  unfold Qltb. rewrite negb_true_iff. split; intros H.
  - apply Qnot_le_lt. intros Hle. apply Qle_bool_iff in Hle. congruence.
  - destruct (Qle_bool y x) eqn:E; [|reflexivity].
    apply Qle_bool_iff in E. apply Qle_not_lt in E. contradiction.
Qed.

Lemma cascade_base_nonneg (e1 e2 : CorrelationEvent) (bonus : Q) :
  Qltb (gapHours e1 e2) 48 = true -> (0 <= bonus)%Q ->
  0 <= Math_round ((1 - gapHours e1 e2 / 48) * 100 + bonus)%Q.
Proof.
  intros Hw Hb. apply Math_round_nonneg. apply Qltb_lt in Hw.
  assert (gapHours e1 e2 / 48 <= 1)%Q by (apply Qle_shift_div_r; lra).
  lra.
Qed.



Lemma inject_Z_hours_lt (a b : Z) :
  (inject_Z a < inject_Z b / 3600000)%Q <-> a * 3600000 < b.
Proof.
  unfold Qlt, Qdiv, Qmult, Qinv, inject_Z. simpl. lia.
Qed.





(** ** Score ranges *)

Lemma min100_inRange (z : Z) : 0 <= z -> inRange0_100 (Z.min 100 z).
Proof. unfold inRange0_100. lia. Qed.

Lemma Forall_flat_map_intro {A B} (P : B -> Prop) (f : A -> list B) (l : list A) :
  (forall x, In x l -> Forall P (f x)) -> Forall P (flat_map f l).
Proof.
  intros H. apply Forall_flat_map. apply Forall_forall. exact H.
Qed.

Lemma temporal_scores (events : list CorrelationEvent) :
  Forall scoreInRange (findTemporalCorrelations events).
Proof.
  rewrite findTemporalCorrelations_unfold. apply Array_sort_Forall.
  apply Forall_flat_map_intro. intros [e1 e2] _. simpl fst; simpl snd.
  unfold temporalBody.
  change (inject_Z (Z.abs (e_date e1 - e_date e2)) / MS_PER_HOUR)%Q
    with (hoursApart e1 e2).
  change CORRELATION_WINDOW with 72%Q.
  destruct (Qle_bool (hoursApart e1 e2) 72) eqn:Hw; [|constructor].
  destruct (2 <=? _); [|constructor].
  constructor; [|constructor]. unfold scoreInRange; simpl.
  apply min100_inRange, temporal_base_nonneg; [assumption | apply lengthZ_nonneg].
Qed.

Lemma spatialBody_emit (e1 e2 : CorrelationEvent) (s : list CorrelationResult) :
  spatialBody e1 e2 s = s ++ spatialBody e1 e2 [].
Proof.
  unfold spatialBody.
  destruct (coords e1) as [[lat1 lon1]|]; [|now rewrite app_nil_r].
  destruct (coords e2) as [[lat2 lon2]|]; [|now rewrite app_nil_r].
  destruct (Qle_bool _ SPATIAL_THRESHOLD_KM); [reflexivity | now rewrite app_nil_r].
Qed.

Lemma findSpatialCorrelations_unfold (events : list CorrelationEvent) :
  findSpatialCorrelations events =
  Array_sort byScoreDesc
    (flat_map (fun p => spatialBody (fst p) (snd p) []) (pairs events)).
Proof.
  unfold findSpatialCorrelations. f_equal.
  apply (forEachPair_append spatialBody (fun p => spatialBody (fst p) (snd p) [])).
  intros; apply spatialBody_emit.
Qed.

Lemma spatial_scores (events : list CorrelationEvent) :
  Forall scoreInRange (findSpatialCorrelations events).
Proof.
  rewrite findSpatialCorrelations_unfold. apply Array_sort_Forall.
  apply Forall_flat_map_intro. intros [e1 e2] _. simpl fst; simpl snd.
  unfold spatialBody.
  destruct (coords e1) as [[lat1 lon1]|]; [|constructor].
  destruct (coords e2) as [[lat2 lon2]|]; [|constructor].
  change SPATIAL_THRESHOLD_KM with 500%Q.
  destruct (Qle_bool _ 500) eqn:Hd; [|constructor].
  constructor; [|constructor]. unfold scoreInRange; simpl.
  apply min100_inRange, Math_round_nonneg.
  apply Qle_bool_iff in Hd.
  set (d := haversineDistance lat1 lon1 lat2 lon2) in *.
  assert (d / 500 <= 1)%Q by (apply Qle_shift_div_r; lra).
  lra.
Qed.

Lemma thematicBody_emit (events : list CorrelationEvent)
  (entry : string * list string) (s : list CorrelationResult) :
  thematicBody events s entry = s ++ thematicBody events [] entry.
Proof.
  unfold thematicBody. destruct entry as [keyword eventIds].
  destruct (3 <=? _); [reflexivity | now rewrite app_nil_r].
Qed.

Lemma thematic_fold (events : list CorrelationEvent)
  (entries : list (string * list string)) :
  fold_left (thematicBody events) entries [] =
  flat_map (thematicBody events []) entries.
Proof.
  apply (fold_left_append (fun entry s => thematicBody events s entry)
           (thematicBody events [])).
  intros; apply thematicBody_emit.
Qed.

Lemma thematic_scores (events : list CorrelationEvent) :
  Forall scoreInRange (emitted (findThematicCorrelations events)).
Proof.
  unfold findThematicCorrelations.
  destruct (groupKeywords events) as [d|err]; simpl; [|constructor].
  apply Array_sort_Forall. rewrite thematic_fold.
  apply Forall_flat_map_intro. intros [keyword eventIds] _.
  unfold thematicBody. destruct (3 <=? _); [|constructor].
  constructor; [|constructor]. unfold scoreInRange; simpl.
  apply min100_inRange, Math_round_nonneg.
  pose proof (inject_Z_nonneg _ (lengthZ_nonneg eventIds)). lra.
Qed.

Lemma cascade_scores (events : list CorrelationEvent) :
  Forall scoreInRange (detectCascades events).
Proof.
  rewrite detectCascades_unfold. apply Array_sort_Forall.
  apply Forall_flat_map_intro. intros [e1 e2] _. simpl fst; simpl snd.
  unfold cascadeBody.
  change (inject_Z (e_date e2 - e_date e1) / MS_PER_HOUR)%Q with (gapHours e1 e2).
  destruct (Qltb 6 (gapHours e1 e2)); simpl; [|constructor].
  destruct (Qltb (gapHours e1 e2) 48) eqn:Hhi; simpl; [|constructor].
  destruct (_ || _); [|constructor].
  constructor; [|constructor]. unfold scoreInRange; simpl.
  apply min100_inRange, cascade_base_nonneg; [assumption|].
  destruct (String.eqb _ _); [lra|].
  pose proof (inject_Z_nonneg _ (lengthZ_nonneg (sharedKeywords e1 e2))). lra.
Qed.

Lemma patternBody_emit (entry : string * list Z) (s : list TemporalPattern) :
  patternBody s entry = s ++ patternBody [] entry.
Proof.
  unfold patternBody. destruct entry as [key dates].
  destruct (3 <=? _); [|now rewrite app_nil_r].
  destruct (_ && _); [reflexivity | now rewrite app_nil_r].
Qed.

Lemma pattern_fold (entries : list (string * list Z)) :
  fold_left patternBody entries [] = flat_map (patternBody []) entries.
Proof.
  apply (fold_left_append (fun entry s => patternBody s entry) (patternBody [])).
  intros; apply patternBody_emit.
Qed.

Lemma pattern_confidences (events : list CorrelationEvent) :
  Forall (fun p => inRange0_100 (p_confidence p))
         (emitted (findTemporalPatterns events)).
Proof.
  unfold findTemporalPatterns.
  destruct (groupDates _) as [d|err]; simpl; [|constructor].
  apply Array_sort_Forall. rewrite pattern_fold.
  apply Forall_flat_map_intro. intros [key dates] _.
  unfold patternBody. destruct (3 <=? _); [|constructor].
  destruct (_ && _); [|constructor].
  constructor; [|constructor]. simpl.
  apply min100_inRange, Math_round_nonneg.
  pose proof (inject_Z_nonneg _ (lengthZ_nonneg dates)). lra.
Qed.

(** C7.  Every score emitted by the temporal, spatial, thematic and cascade
    passes and every confidence emitted by the pattern pass lies in
    [0, 100], for every input event list. *)
Theorem C7_scores_in_range (events : list CorrelationEvent) :
  Forall scoreInRange (findTemporalCorrelations events)
  /\ Forall scoreInRange (findSpatialCorrelations events)
  /\ Forall scoreInRange (emitted (findThematicCorrelations events))
  /\ Forall scoreInRange (detectCascades events)
  /\ Forall (fun p => inRange0_100 (p_confidence p))
            (emitted (findTemporalPatterns events)).
Proof.
  repeat split.
  - apply temporal_scores.
  - apply spatial_scores.
  - apply thematic_scores.
  - apply cascade_scores.
  - apply pattern_confidences.
Qed.

(** ** Signal projector *)

Lemma signalBody_fold (l : list CorrelationResult) (s : list ThreatSignal) :
  Forall (fun r => isHigh r = true) l ->
  fold_left signalBody l s = s ++ map signalFor l.
Proof.
  revert s. induction l as [|r l IH]; intros s H; simpl.
  - now rewrite app_nil_r.
  - inversion H as [|? ? Hr Hl]; subst.
    rewrite IH by assumption. unfold signalBody. rewrite Hr.
    now rewrite <- app_assoc.
Qed.

Lemma alertable_high (results : EngineResults) :
  Forall (fun r => isHigh r = true) (alertable results).
Proof.
  unfold alertable. rewrite !Forall_app.
  repeat split; apply Forall_forall; intros r Hr; now apply filter_In in Hr.
Qed.

Lemma In_firstn {A} (n : nat) (l : list A) (x : A) : In x (firstn n l) -> In x l.
Proof.
  intros H. rewrite <- (firstn_skipn n l). apply in_or_app. now left.
Qed.

Lemma Forall_firstn {A} (P : A -> Prop) (n : nat) (l : list A) :
  Forall P l -> Forall P (firstn n l).
Proof.
  rewrite !Forall_forall. intros H x Hx. apply H. eapply In_firstn; eassumption.
Qed.

Lemma correlationsToThreatSignals_eq (results : EngineResults) :
  correlationsToThreatSignals results = map signalFor (firstn 5 (alertable results)).
Proof.
  unfold correlationsToThreatSignals. fold (alertable results).
  now rewrite signalBody_fold by apply Forall_firstn, alertable_high.
Qed.

Lemma isHigh_true (r : CorrelationResult) : isHigh r = true <-> r_significance r = high.
Proof. unfold isHigh. destruct (r_significance r); split; congruence. Qed.

Lemma alertable_sources (results : EngineResults) (r : CorrelationResult) :
  In r (alertable results) ->
  In r (res_temporal results ++ res_spatial results ++ res_cascades results)
  /\ r_significance r = high.
Proof.
  unfold alertable. rewrite !in_app_iff, !filter_In, !isHigh_true.
  intros [[H1 H2] | [[H1 H2] | [H1 H2]]]; auto.
Qed.

(** *** Bundles produced by the engine *)

Lemma temporal_types (events : list CorrelationEvent) :
  Forall (fun r => r_type r = temporal) (findTemporalCorrelations events).
Proof.
  rewrite findTemporalCorrelations_unfold. apply Array_sort_Forall.
  apply Forall_flat_map_intro. intros [e1 e2] _. cbn [fst snd]. unfold temporalBody.
  destruct (Qle_bool _ _); [|constructor].
  destruct (2 <=? _); [|constructor].
  constructor; [reflexivity | constructor].
Qed.

Lemma spatial_types (events : list CorrelationEvent) :
  Forall (fun r => r_type r = spatial) (findSpatialCorrelations events).
Proof.
  rewrite findSpatialCorrelations_unfold. apply Array_sort_Forall.
  apply Forall_flat_map_intro. intros [e1 e2] _. cbn [fst snd]. unfold spatialBody.
  destruct (coords e1) as [[lat1 lon1]|]; [|constructor].
  destruct (coords e2) as [[lat2 lon2]|]; [|constructor].
  destruct (Qle_bool _ _); [|constructor].
  constructor; [reflexivity | constructor].
Qed.

Lemma cascade_types (events : list CorrelationEvent) :
  Forall (fun r => r_type r = cascade) (detectCascades events).
Proof.
  rewrite detectCascades_unfold. apply Array_sort_Forall.
  apply Forall_flat_map_intro. intros [e1 e2] _. cbn [fst snd]. unfold cascadeBody.
  destruct (_ && _); [|constructor].
  destruct (_ || _); [|constructor].
  constructor; [reflexivity | constructor].
Qed.

Lemma Forall_filter_weaken {A} (P : A -> Prop) (q : A -> bool) (l : list A) :
  Forall P l -> Forall P (filter q l).
Proof.
  rewrite !Forall_forall. intros H x Hx. apply H. now apply filter_In in Hx.
Qed.

(** On a bundle the engine produced, every alert is a temporal, spatial or
    cascade alert. *)
Lemma engine_signal_types (events : list CorrelationEvent) (results : EngineResults) :
  runCorrelationEngine events = Normal results ->
  Forall (fun s => In (s_type s) signalTypes) (correlationsToThreatSignals results).
Proof.
  intros Hrun. unfold runCorrelationEngine in Hrun.
  destruct (findThematicCorrelations events) as [th|]; [|discriminate].
  destruct (findTemporalPatterns events) as [ps|]; [|discriminate].
  cbn [bind] in Hrun. injection Hrun as <-.
  rewrite correlationsToThreatSignals_eq. apply Forall_map, Forall_firstn.
  unfold alertable. cbn [res_temporal res_spatial res_cascades].
  rewrite !Forall_app. repeat split; apply Forall_filter_weaken.
  - eapply Forall_impl; [|apply temporal_types].
    intros r Hr. cbn [signalFor s_type]. rewrite Hr. now left.
  - eapply Forall_impl; [|apply spatial_types].
    intros r Hr. cbn [signalFor s_type]. rewrite Hr. right; now left.
  - eapply Forall_impl; [|apply cascade_types].
    intros r Hr. cbn [signalFor s_type]. rewrite Hr. right; right; now left.
Qed.

(** C6.  For every result bundle [correlationsToThreatSignals] returns at
    most 5 alert records; they are the alert records of the
    high-significance temporal, then spatial, then cascade results, cut
    after the first 5 by position; every record has severity "medium",
    never "high"; the thematic results, the patterns and the clusters of the
    bundle have no influence on the output; and on a bundle the engine
    produced every alert is a temporal, spatial or cascade alert. *)
Theorem C6_signal_projection (results : EngineResults) :
  correlationsToThreatSignals results = map signalFor (firstn 5 (alertable results))
  /\ (List.length (correlationsToThreatSignals results) <= 5)%nat
  /\ Forall (fun s => s_severity s = "medium"%string /\ s_severity s <> "high"%string)
            (correlationsToThreatSignals results)
  /\ Forall (fun s => exists r,
                 In r (res_temporal results ++ res_spatial results
                       ++ res_cascades results)
                 /\ r_significance r = high /\ s = signalFor r)
            (correlationsToThreatSignals results)
  /\ (forall thematic' patterns' clusters',
         correlationsToThreatSignals (withOthers results thematic' patterns' clusters')
         = correlationsToThreatSignals results)
  /\ (forall events,
         match runCorrelationEngine events with
         | Normal produced =>
             Forall (fun s => In (s_type s) signalTypes)
                    (correlationsToThreatSignals produced)
         | Throw _ => True
         end).
Proof.
  split; [apply correlationsToThreatSignals_eq|].
  split; [rewrite correlationsToThreatSignals_eq, length_map; apply firstn_le_length|].
  split; [|split; [|split]].
  - rewrite correlationsToThreatSignals_eq.
    apply Forall_forall. intros s Hs. apply in_map_iff in Hs.
    destruct Hs as [r [<- _]]. simpl. split; [reflexivity | discriminate].
  - rewrite correlationsToThreatSignals_eq.
    apply Forall_forall. intros s Hs. apply in_map_iff in Hs.
    destruct Hs as [r [<- Hr]]. exists r.
    apply In_firstn in Hr. destruct (alertable_sources _ _ Hr) as [H1 H2].
    split; [exact H1 | split; [exact H2 | reflexivity]].
  - intros. now rewrite !correlationsToThreatSignals_eq.
  - intros events. destruct (runCorrelationEngine events) as [produced|] eqn:E; [|exact I].
    now apply (engine_signal_types events).
Qed.

(** ** Cluster builder *)

Lemma coords_position (e : CorrelationEvent) (lat lon : Q) :
  coords e = Some (lat, lon) -> position e = Some (lat, lon).
Proof.
  unfold coords, position.
  destruct (e_lat e) as [la|], (e_lon e) as [lo|]; try discriminate.
  destruct (truthy (Some la) && truthy (Some lo)); [trivial | discriminate].
Qed.

Lemma absorb_step (seed : CorrelationEvent) (lat lon : Q) (c : GeographicCluster)
  (used : list string) (other : CorrelationEvent) :
  coords seed = Some (lat, lon) ->
  absorb seed lat lon (c, used) other =
  if joins seed other
  then ({| centerLat := centerLat c;
           centerLon := centerLon c;
           radiusKm := Math_max (radiusKm c) (distanceKm seed other);
           eventCount := eventCount c + 1;
           categories :=
             if includes (e_category other) (categories c)
             then categories c else categories c ++ [e_category other];
           dateRange_start :=
             if e_date other <? dateRange_start c
             then e_date other else dateRange_start c;
           dateRange_end :=
             if dateRange_end c <? e_date other
             then e_date other else dateRange_end c |},
        Set_add (e_id other) used)
  else (c, used).
Proof.
  intros Hs. unfold absorb, joins, distanceKm.
  rewrite (coords_position seed lat lon Hs).
  destruct (String.eqb (e_id seed) (e_id other)); simpl; [reflexivity|].
  destruct (coords other) as [[olat olon]|] eqn:Ho; [|reflexivity].
  rewrite (coords_position other olat olon Ho). reflexivity.
Qed.

(** What the inner loop computes, field by field. *)
Lemma absorb_fold (seed : CorrelationEvent) (lat lon : Q) :
  coords seed = Some (lat, lon) ->
  forall (l : list CorrelationEvent) (c : GeographicCluster) (used : list string),
    let r := fold_left (absorb seed lat lon) l (c, used) in
    centerLat (fst r) = centerLat c
    /\ centerLon (fst r) = centerLon c
    /\ eventCount (fst r) = eventCount c + lengthZ (absorbed seed l)
    /\ radiusKm (fst r) =
       fold_left Math_max (map (distanceKm seed) (absorbed seed l)) (radiusKm c)
    /\ snd r = fold_left (fun u o => Set_add (e_id o) u) (absorbed seed l) used.
Proof.
  intros Hs l. induction l as [|o l IH]; intros c used; cbv zeta.
  - unfold lengthZ; simpl. repeat split; lia.
  - cbn [fold_left]. rewrite (absorb_step seed lat lon c used o Hs).
    unfold absorbed; cbn [filter].
    destruct (joins seed o).
    + specialize (IH
        {| centerLat := centerLat c;
           centerLon := centerLon c;
           radiusKm := Math_max (radiusKm c) (distanceKm seed o);
           eventCount := eventCount c + 1;
           categories :=
             if includes (e_category o) (categories c)
             then categories c else categories c ++ [e_category o];
           dateRange_start :=
             if e_date o <? dateRange_start c then e_date o else dateRange_start c;
           dateRange_end :=
             if dateRange_end c <? e_date o then e_date o else dateRange_end c |}
        (Set_add (e_id o) used)).
      simpl in IH. destruct IH as (H1 & H2 & H3 & H4 & H5).
      fold (absorbed seed l) in *.
      repeat split; try assumption.
      rewrite H3. unfold lengthZ. simpl List.length. lia.
    + apply IH.
Qed.

Lemma Math_max_cases (a b : Q) :
  (Math_max a b = a \/ Math_max a b = b) /\ (a <= Math_max a b)%Q /\ (b <= Math_max a b)%Q.
Proof.
  unfold Math_max. destruct (Qle_bool a b) eqn:E.
  - apply Qle_bool_iff in E. repeat split; [now right | assumption | apply Qle_refl].
  - assert (b < a)%Q by (apply Qltb_lt; unfold Qltb; now rewrite E).
    repeat split; [now left | apply Qle_refl | now apply Qlt_le_weak].
Qed.

Lemma fold_max_isMaximum (ds : list Q) (r0 : Q) :
  isMaximum (fold_left Math_max ds r0) (r0 :: ds).
Proof.
  revert r0. induction ds as [|d ds IH]; intros r0; simpl.
  - split; [now left|]. intros d [<- | []]. apply Qle_refl.
  - destruct (IH (Math_max r0 d)) as [Hin Hle].
    destruct (Math_max_cases r0 d) as [Hc [Ha Hb]].
    split.
    + destruct Hin as [Hin | Hin]; [|right; now right].
      rewrite <- Hin. destruct Hc as [-> | ->]; [now left | right; now left].
    + intros x [<- | [<- | Hx]].
      * eapply Qle_trans; [exact Ha | apply Hle; now left].
      * eapply Qle_trans; [exact Hb | apply Hle; now left].
      * apply Hle. now right.
Qed.

(** The cluster a seed ends up with. *)
Lemma seed_clusterOf (seed : CorrelationEvent) (lat lon : Q)
  (events : list CorrelationEvent) (used : list string) :
  coords seed = Some (lat, lon) ->
  clusterOf seed events
    (fst (fold_left (absorb seed lat lon) events (seedCluster seed lat lon, used))).
Proof.
  intros Hs.
  destruct (absorb_fold seed lat lon Hs events (seedCluster seed lat lon) used)
    as (H1 & H2 & H3 & H4 & _).
  unfold clusterOf. rewrite H1, H2, H3, H4.
  unfold seedCluster; cbn [centerLat centerLon eventCount radiusKm]. repeat split.
  - now apply coords_position.
  - unfold members, lengthZ. simpl List.length. lia.
  - apply fold_max_isMaximum.
  - apply fold_max_isMaximum.
Qed.

(** Every cluster in the list comes from a seed of the input that passed
    the coordinate check, and counts at least 2 events. *)
Lemma clusters_from_seeds (events : list CorrelationEvent) :
  Forall (fun c => 2 <= eventCount c
                   /\ exists seed, In seed events /\ coords seed <> None
                                   /\ clusterOf seed events c)
         (findGeographicClusters events).
Proof.
  unfold findGeographicClusters. apply Array_sort_Forall.
  set (P := fun c => 2 <= eventCount c
                     /\ exists seed, In seed events /\ coords seed <> None
                                     /\ clusterOf seed events c).
  assert (G : forall todo st,
             (forall e, In e todo -> In e events) ->
             Forall P (fst st) ->
             Forall P (fst (fold_left (clusterBody events) todo st))).
  { induction todo as [|e todo IH]; intros [clusters used] Hsub Hst; simpl.
    - exact Hst.
    - apply IH; [intros; apply Hsub; now right|].
      unfold clusterBody.
      destruct (coords e) as [[lat lon]|] eqn:Hc; [|exact Hst].
      destruct (includes (e_id e) used); [exact Hst|].
      pose proof (seed_clusterOf e lat lon events used Hc) as Hk.
      destruct (fold_left (absorb e lat lon) events (seedCluster e lat lon, used))
        as [c used'].
      simpl in Hk. destruct (2 <=? eventCount c) eqn:E; [|exact Hst].
      simpl. apply Forall_app. split; [exact Hst|].
      constructor; [|constructor]. split; [now apply Z.leb_le|].
      exists e. split; [apply Hsub; now left|]. split; [congruence | exact Hk]. }
  apply G; [trivial | constructor].
Qed.

(** C9.  Every cluster emitted by [findGeographicClusters] has a radius
    equal to the maximum of 50 and the seed-to-member distances of the
    events it absorbed; so the radius is at least 50 km, and it is exactly
    50 km when no absorbed member lies farther than 50 km from the seed. *)
Theorem C9_cluster_radius (events : list CorrelationEvent) :
  Forall (fun c =>
            exists seed,
              In seed events
              /\ position seed = Some (centerLat c, centerLon c)
              /\ isMaximum (radiusKm c)
                   (50%Q :: map (distanceKm seed) (absorbed seed events))
              /\ (50 <= radiusKm c)%Q
              /\ ((forall m, In m (absorbed seed events) -> (distanceKm seed m < 50)%Q)
                  -> radiusKm c = 50%Q))
         (findGeographicClusters events).
Proof.
  eapply Forall_impl; [|apply clusters_from_seeds].
  intros c [_ [seed (Hin & _ & Hpos & _ & Hmax)]].
  exists seed. repeat split; try assumption.
  - apply Hmax.
  - apply Hmax.
  - apply Hmax. now left.
  - intros Hclose. destruct Hmax as [[H | H] Hle]; [now symmetry|].
    apply in_map_iff in H. destruct H as [m [Hm Hmem]].
    specialize (Hclose m Hmem). rewrite Hm in Hclose.
    specialize (Hle 50%Q (or_introl eq_refl)).
    exfalso. apply (Qlt_not_le _ _ Hclose Hle).
Qed.

(** *** One tight group and one remote event *)

Lemma ids_inj (events : list CorrelationEvent) :
  NoDup (map e_id events) ->
  forall x y, In x events -> In y events -> e_id x = e_id y -> x = y.
Proof.
  induction events as [|e events IH]; simpl; intros Hnd x y Hx Hy Hxy; [contradiction|].
  inversion Hnd as [|? ? Hnotin Hnd']; subst.
  destruct Hx as [-> | Hx], Hy as [-> | Hy].
  - reflexivity.
  - exfalso. apply Hnotin. rewrite Hxy. now apply in_map.
  - exfalso. apply Hnotin. rewrite <- Hxy. now apply in_map.
  - now apply IH.
Qed.

Lemma nonzeroCoords_coords (e : CorrelationEvent) :
  nonzeroCoords e -> exists lat lon, coords e = Some (lat, lon).
Proof.
  intros (la & lo & Hla & Hlo & Hza & Hzo). exists la, lo.
  unfold coords, truthy. rewrite Hla, Hlo.
  destruct (Qeq_bool la 0) eqn:Ea; [apply Qeq_bool_iff in Ea; contradiction|].
  destruct (Qeq_bool lo 0) eqn:Eo; [apply Qeq_bool_iff in Eo; contradiction|].
  reflexivity.
Qed.

Lemma Qle_bool_false (x y : Q) : (y < x)%Q -> Qle_bool x y = false.
Proof.
  intros H. destruct (Qle_bool x y) eqn:E; [|reflexivity].
  apply Qle_bool_iff in E. exfalso. apply (Qlt_not_le _ _ H E).
Qed.

Lemma includes_Set_add (x y : string) (used : list string) :
  includes x (Set_add y used) = String.eqb x y || includes x used.
Proof.
  unfold Set_add. destruct (includes y used) eqn:E.
  - destruct (String.eqb_spec x y) as [-> | _]; [now rewrite E | reflexivity].
  - unfold includes. rewrite existsb_app. simpl.
    rewrite orb_false_r. apply orb_comm.
Qed.

Lemma includes_used (x : CorrelationEvent) (l : list CorrelationEvent)
  (used : list string) :
  In x l ->
  includes (e_id x) (fold_left (fun u o => Set_add (e_id o) u) l used) = true.
Proof.
  assert (K : forall l u, includes (e_id x) u = true ->
              includes (e_id x) (fold_left (fun u o => Set_add (e_id o) u) l u) = true).
  { clear. induction l as [|o l IH]; intros u H; simpl; [exact H|].
    apply IH. rewrite includes_Set_add, H. apply orb_true_r. }
  revert used. induction l as [|o l IH]; intros used; simpl; [contradiction|].
  intros [-> | H].
  - apply K. rewrite includes_Set_add, String.eqb_refl. reflexivity.
  - now apply IH.
Qed.

Lemma filter_none {A} (l : list A) : filter (fun _ => false) l = [].
Proof. induction l; simpl; auto. Qed.

Lemma exists_other_id (l : list CorrelationEvent) (i : string) :
  NoDup (map e_id l) -> (2 <= List.length l)%nat ->
  exists x, In x l /\ e_id x <> i.
Proof.
  destruct l as [|a [|b l]]; simpl; intros Hnd Hlen; try lia.
  destruct (string_dec (e_id a) i) as [Ea | Ea].
  - exists b. split; [now (right; left)|]. intros Eb.
    inversion Hnd as [|? ? Hn _]; subst. apply Hn. left. congruence.
  - exists a. split; [now left | assumption].
Qed.

(** The first event of a list whose id differs from [i]. *)
Lemma first_other_id (l : list CorrelationEvent) (i : string) :
  (exists x, In x l /\ e_id x <> i) ->
  exists pre s post,
    l = pre ++ s :: post /\ e_id s <> i /\ forall x, In x pre -> e_id x = i.
Proof.
  induction l as [|a l IH]; intros [x [Hx Hne]]; [contradiction|].
  destruct (string_dec (e_id a) i) as [Ea | Ea].
  - destruct IH as (pre & s & post & Hl & Hs & Hpre).
    { exists x. split; [|assumption]. destruct Hx as [-> | Hx]; [contradiction | assumption]. }
    exists (a :: pre), s, post. rewrite Hl. repeat split; try assumption.
    intros y [<- | Hy]; [assumption | now apply Hpre].
  - exists [], a, l. repeat split; try assumption. intros y [].
Qed.

Section TightGroup.

Variable events : list CorrelationEvent.
Variable far : CorrelationEvent.

Hypothesis ids_unique : NoDup (map e_id events).
Hypothesis all_located : forall e, In e events -> nonzeroCoords e.
Hypothesis far_in : In far events.
Hypothesis near_close :
  forall x y, In x events -> In y events -> x <> far -> y <> far ->
              (distanceKm x y <= 50)%Q.
Hypothesis far_remote :
  forall x, In x events -> x <> far ->
            (500 < distanceKm x far)%Q /\ (500 < distanceKm far x)%Q.

Let others (seed : CorrelationEvent) (o : CorrelationEvent) : bool :=
  negb (String.eqb (e_id seed) (e_id o)) && negb (String.eqb (e_id far) (e_id o)).

Local Set Default Proof Using
  "ids_unique all_located far_in near_close far_remote others".

Lemma joins_near (seed o : CorrelationEvent) :
  In seed events -> In o events -> seed <> far -> joins seed o = others seed o.
Proof.
  intros Hs Ho Hsf. unfold joins, others.
  destruct (nonzeroCoords_coords o (all_located o Ho)) as (lat & lon & ->).
  destruct (String.eqb_spec (e_id seed) (e_id o)) as [E | E]; simpl; [reflexivity|].
  destruct (String.eqb_spec (e_id far) (e_id o)) as [F | F]; simpl.
  - apply (ids_inj events ids_unique) in F; [subst o | assumption..].
    apply Qle_bool_false.
    destruct (far_remote seed Hs Hsf) as [H _]. lra.
  - apply Qle_bool_iff.
    assert (o <> far) by (intros ->; now apply F).
    pose proof (near_close seed o Hs Ho Hsf H). lra.
Qed.

Lemma joins_far (o : CorrelationEvent) : In o events -> joins far o = false.
Proof.
  intros Ho. unfold joins.
  destruct (nonzeroCoords_coords o (all_located o Ho)) as (lat & lon & ->).
  destruct (String.eqb_spec (e_id far) (e_id o)) as [E | E]; simpl; [reflexivity|].
  apply Qle_bool_false.
  assert (o <> far) by (intros ->; now apply E).
  destruct (far_remote o Ho H) as [_ H']. lra.
Qed.

Lemma absorbed_far : absorbed far events = [].
Proof.
  unfold absorbed.
  rewrite (filter_ext_in (joins far) (fun _ => false)) by (intros; now apply joins_far).
  apply filter_none.
Qed.

(** The remote event changes nothing when the outer loop reaches it. *)
Lemma clusterBody_far (st : list GeographicCluster * list string) :
  clusterBody events st far = st.
Proof.
  destruct st as [clusters used]. unfold clusterBody.
  destruct (nonzeroCoords_coords far (all_located far far_in)) as (lat & lon & Hc).
  rewrite Hc. destruct (includes (e_id far) used); [reflexivity|].
  destruct (absorb_fold far lat lon Hc events (seedCluster far lat lon) used)
    as (_ & _ & H3 & _ & H5).
  destruct (fold_left (absorb far lat lon) events (seedCluster far lat lon, used))
    as [c used'].
  simpl in H3, H5. rewrite absorbed_far in H3, H5. simpl in H5.
  unfold lengthZ in H3; simpl in H3.
  replace (2 <=? eventCount c) with false by (symmetry; apply Z.leb_gt; lia).
  now subst used'.
Qed.

(** A near event that an earlier seed absorbed is skipped. *)
Lemma clusterBody_used (clusters : list GeographicCluster) (used : list string)
  (e : CorrelationEvent) :
  includes (e_id e) used = true ->
  clusterBody events (clusters, used) e = (clusters, used).
Proof.
  intros H. unfold clusterBody. destruct (coords e) as [[lat lon]|]; [|reflexivity].
  now rewrite H.
Qed.

Lemma eq_far_dec (x : CorrelationEvent) : In x events -> x = far \/ x <> far.
Proof.
  intros Hx. destruct (string_dec (e_id x) (e_id far)) as [E | E].
  - left. now apply (ids_inj events ids_unique).
  - right. intros ->. now apply E.
Qed.

(** Events the loop passes over without any effect: the remote event, and
    events already marked used. *)
Lemma clusterBody_idle (l : list CorrelationEvent)
  (clusters : list GeographicCluster) (used : list string) :
  (forall x, In x l -> x = far \/ includes (e_id x) used = true) ->
  fold_left (clusterBody events) l (clusters, used) = (clusters, used).
Proof.
  induction l as [|x l IH]; intros H; cbn [fold_left]; [reflexivity|].
  destruct (H x (or_introl eq_refl)) as [-> | Hu].
  - rewrite clusterBody_far. apply IH. intros; apply H; now right.
  - rewrite clusterBody_used by assumption. apply IH. intros; apply H; now right.
Qed.

Lemma absorbed_near (seed : CorrelationEvent) :
  In seed events -> seed <> far -> absorbed seed events = filter (others seed) events.
Proof.
  intros Hs Hsf. unfold absorbed. apply filter_ext_in.
  intros o Ho. now apply joins_near.
Qed.

Lemma others_iff (seed o : CorrelationEvent) :
  In o events ->
  others seed o = true <-> e_id o <> e_id seed /\ o <> far.
Proof.
  intros Ho. unfold others. rewrite andb_true_iff, !negb_true_iff.
  split.
  - intros [Hs Hf]. apply String.eqb_neq in Hs, Hf. split.
    + intros E. now apply Hs.
    + intros ->. now apply Hf.
  - intros [Hs Hf]. split; apply String.eqb_neq.
    + intros E. now apply Hs.
    + intros E. apply Hf. now apply (ids_inj events ids_unique).
Qed.

(** A near seed absorbs every event but itself and the remote one. *)
Lemma absorbed_length (seed : CorrelationEvent) :
  In seed events -> seed <> far ->
  (List.length (absorbed seed events) + 2 = List.length events)%nat.
Proof.
  intros Hs Hsf. rewrite absorbed_near by assumption.
  destruct (in_split _ _ Hs) as (l1 & l2 & Hsplit).
  assert (Hfar' : In far (l1 ++ l2)).
  { pose proof far_in as Hf. rewrite Hsplit in Hf. apply in_app_or in Hf.
    apply in_or_app.
    destruct Hf as [H | [H | H]]; [now left | now elim Hsf | now right]. }
  destruct (in_split _ _ Hfar') as (m1 & m2 & Hsplit').
  assert (Hperm : Permutation events (seed :: far :: m1 ++ m2)).
  { rewrite Hsplit. apply Permutation_sym, Permutation_cons_app.
    rewrite Hsplit'. apply Permutation_cons_app, Permutation_refl. }
  rewrite (Permutation_length (filter_perm (others seed) _ _ Hperm)).
  rewrite (Permutation_length Hperm).
  assert (Hnd : NoDup (map e_id (seed :: far :: m1 ++ m2))).
  { eapply Permutation_NoDup; [apply Permutation_map, Hperm | exact ids_unique]. }
  assert (E1 : others seed seed = false)
    by (unfold others; now rewrite String.eqb_refl).
  assert (E2 : others seed far = false)
    by (unfold others; rewrite String.eqb_refl; apply andb_false_r).
  cbn [filter]. rewrite E1, E2.
  rewrite (forallb_filter_id (others seed) (m1 ++ m2)).
  - cbn [List.length]. lia.
  - apply forallb_forall. intros o Ho.
    assert (Hin : In o events).
    { eapply Permutation_in; [apply Permutation_sym, Hperm|]. right; now right. }
    apply others_iff; [assumption|].
    cbn [map] in Hnd. inversion Hnd as [|? ? Hn1 Hnd']; subst.
    inversion Hnd' as [|? ? Hn2 _]; subst.
    split.
    + intros E. apply Hn1. rewrite <- E. right. now apply in_map.
    + intros ->. apply Hn2. now apply in_map.
Qed.

Lemma clusterBody_seed (clusters : list GeographicCluster) (used : list string)
  (seed : CorrelationEvent) :
  In seed events -> seed <> far -> includes (e_id seed) used = false ->
  (3 <= List.length events)%nat ->
  exists c,
    clusterBody events (clusters, used) seed =
      (clusters ++ [c],
       fold_left (fun u o => Set_add (e_id o) u) (absorbed seed events) used)
    /\ clusterOf seed events c
    /\ eventCount c = lengthZ events - 1.
Proof.
  intros Hs Hsf Hu Hlen. unfold clusterBody.
  destruct (nonzeroCoords_coords seed (all_located seed Hs)) as (lat & lon & Hc).
  rewrite Hc, Hu.
  pose proof (seed_clusterOf seed lat lon events used Hc) as Hk.
  destruct (absorb_fold seed lat lon Hc events (seedCluster seed lat lon) used)
    as (_ & _ & H3 & _ & H5).
  destruct (fold_left (absorb seed lat lon) events (seedCluster seed lat lon, used))
    as [c used'].
  cbn [fst snd] in *. unfold seedCluster in H3; cbn [eventCount] in H3.
  pose proof (absorbed_length seed Hs Hsf) as Hn.
  assert (Hcount : eventCount c = lengthZ events - 1) by (unfold lengthZ in *; lia).
  replace (2 <=? eventCount c) with true
    by (symmetry; apply Z.leb_le; unfold lengthZ in *; lia).
  exists c. subst used'. auto.
Qed.

Lemma tight_group :
  (3 <= List.length events)%nat ->
  exists c seed,
    findGeographicClusters events = [c]
    /\ In seed events /\ seed <> far
    /\ clusterOf seed events c
    /\ eventCount c = lengthZ events - 1
    /\ ~ In far (members seed events)
    /\ (forall e, In e events -> e <> far -> In e (members seed events)).
Proof.
  intros Hlen.
  destruct (first_other_id events (e_id far)) as (pre & seed & post & Hsplit & Hsf & Hpre).
  { apply exists_other_id; [exact ids_unique | lia]. }
  assert (Hs : In seed events) by (rewrite Hsplit; apply in_elt).
  assert (Hsf' : seed <> far) by (intros ->; now apply Hsf).
  assert (Hsub : forall x, In x post -> In x events)
    by (intros x Hx; rewrite Hsplit; apply in_or_app; right; now right).
  assert (Hpost : forall x, In x post -> e_id x <> e_id seed).
  { intros x Hx E. pose proof ids_unique as Hnd. rewrite Hsplit, map_app in Hnd.
    apply NoDup_remove_2 in Hnd. apply Hnd. apply in_or_app. right.
    rewrite <- E. now apply in_map. }
  destruct (clusterBody_seed [] [] seed Hs Hsf' eq_refl Hlen) as (c & Hstep & Hk & Hcount).
  assert (F : fold_left (clusterBody events) (pre ++ seed :: post) ([], []) =
              ([c], fold_left (fun u o => Set_add (e_id o) u) (absorbed seed events) [])).
  { rewrite fold_left_app. rewrite clusterBody_idle.
    - cbn [fold_left]. rewrite Hstep. cbn [app]. apply clusterBody_idle.
      intros x Hx. destruct (eq_far_dec x (Hsub x Hx)) as [E | E]; [now left | right].
      apply includes_used. rewrite absorbed_near by assumption.
      apply filter_In. split; [now apply Hsub|].
      apply others_iff; [now apply Hsub|]. split; [now apply Hpost | assumption].
    - intros x Hx. left. apply (ids_inj events ids_unique); [|exact far_in|now apply Hpre].
      rewrite Hsplit. apply in_or_app. now left. }
  rewrite <- Hsplit in F.
  exists c, seed. unfold findGeographicClusters. rewrite F. cbn [fst].
  split; [reflexivity|]. split; [exact Hs|]. split; [exact Hsf'|].
  split; [exact Hk|]. split; [exact Hcount|]. split.
  - unfold members. intros [E | Hin]; [now apply Hsf'|].
    apply filter_In in Hin. destruct Hin as [_ Hj].
    rewrite joins_near in Hj by assumption.
    apply others_iff in Hj; [|exact far_in]. now destruct Hj.
  - intros e He Hef. unfold members.
    destruct (string_dec (e_id e) (e_id seed)) as [E | E].
    + left. symmetry. now apply (ids_inj events ids_unique).
    + right. rewrite absorbed_near by assumption.
      apply filter_In. split; [assumption|]. now apply others_iff.
Qed.

End TightGroup.



(** C8.  For an input of four events with unique ids, all carrying
    nonzero coordinates, three of them pairwise within 50 km of each other
    and the fourth more than 500 km from each of the three,
    [findGeographicClusters] returns exactly one cluster, of event count 3,
    whose members are the three near events and not the fourth; and for
    every input a cluster is emitted only when its event count is at
    least 2. *)
Theorem C8_one_cluster_of_three (events : list CorrelationEvent)
  (far : CorrelationEvent) :
  List.length events = 4%nat ->
  NoDup (map e_id events) ->
  (forall e, In e events -> nonzeroCoords e) ->
  In far events ->
  (forall x y, In x events -> In y events -> x <> far -> y <> far ->
               (distanceKm x y <= 50)%Q) ->
  (forall x, In x events -> x <> far ->
             (500 < distanceKm x far)%Q /\ (500 < distanceKm far x)%Q) ->
  (exists c seed,
      findGeographicClusters events = [c]
      /\ eventCount c = 3
      /\ In seed events
      /\ clusterOf seed events c
      /\ ~ In far (members seed events)
      /\ (forall e, In e events -> e <> far -> In e (members seed events)))
  /\ (forall input : list CorrelationEvent,
         Forall (fun c => 2 <= eventCount c) (findGeographicClusters input)).
Proof.
  intros Hlen Hids Hloc Hfar Hnear Hremote. split.
  - destruct (tight_group events far Hids Hloc Hfar Hnear Hremote)
      as (c & seed & H1 & H2 & H3 & H4 & H5 & H6 & H7); [lia|].
    exists c, seed. repeat split; try assumption; try apply H4.
    rewrite H5. unfold lengthZ. rewrite Hlen. reflexivity.
  - intros input. eapply Forall_impl; [|apply clusters_from_seeds].
    intros c [H _]. exact H.
Qed.

(** ** Dictionaries built by pushing *)

Section Pushing.

Context {V : Type}.

Lemma pushInto_plain (k : string) (v : V) (d : Dict (list V)) :
  includes k ObjectPrototypeKeys = false -> pushInto k v d = Normal (pushOwn k v d).
Proof.
  intros H. unfold pushInto, pushOwn. destruct (getOwn k d); [reflexivity|].
  now rewrite H.
Qed.

Lemma pushInto_fold (occ : list (string * V)) (d : Dict (list V)) :
  (forall kv, In kv occ -> includes (fst kv) ObjectPrototypeKeys = false) ->
  fold_left (fun acc kv => d' <- acc ;; pushInto (fst kv) (snd kv) d') occ (Normal d)
  = Normal (pushAll occ d).
Proof.
  revert d. induction occ as [|kv occ IH]; intros d H; cbn [fold_left]; [reflexivity|].
  cbn [bind]. rewrite pushInto_plain by (apply H; now left).
  apply IH. intros; apply H; now right.
Qed.

Lemma getOwn_app (k : string) (d d' : Dict (list V)) :
  getOwn k (d ++ d') = match getOwn k d with Some vs => Some vs | None => getOwn k d' end.
Proof.
  induction d as [|[k' v'] d IH]; simpl; [reflexivity|].
  destruct (String.eqb k k'); [reflexivity | exact IH].
Qed.

Lemma getOwn_setOwn (k k' : string) (vs : list V) (d : Dict (list V)) :
  getOwn k' d <> None ->
  getOwn k (setOwn k' vs d) = if String.eqb k k' then Some vs else getOwn k d.
Proof.
  induction d as [|[k0 v0] d IH]; simpl; intros H; [congruence|].
  destruct (String.eqb_spec k' k0) as [-> | Hne]; simpl.
  - destruct (String.eqb k k0); reflexivity.
  - rewrite IH by assumption.
    destruct (String.eqb_spec k k0) as [-> | _]; [|reflexivity].
    destruct (String.eqb_spec k0 k') as [E | _]; [now elim Hne | reflexivity].
Qed.

Lemma getOwn_pushOwn (k k' : string) (v : V) (d : Dict (list V)) :
  getOwn k (pushOwn k' v d) =
  if String.eqb k k'
  then Some (match getOwn k d with Some vs => vs ++ [v] | None => [v] end)
  else getOwn k d.
Proof.
  unfold pushOwn. destruct (getOwn k' d) as [vs|] eqn:E.
  - rewrite getOwn_setOwn by congruence.
    destruct (String.eqb_spec k k') as [-> | _]; [now rewrite E | reflexivity].
  - rewrite getOwn_app. simpl.
    destruct (String.eqb_spec k k') as [-> | _]; [now rewrite E|].
    now destruct (getOwn k d).
Qed.

(** After all the pushes, a key holds what it held before followed by the
    values pushed under it. *)
Lemma getOwn_pushAll (k : string) (occ : list (string * V)) (d : Dict (list V)) :
  getOwn k (pushAll occ d) =
  match getOwn k d, valuesOf k occ with
  | Some vs, new => Some (vs ++ new)
  | None, [] => None
  | None, new => Some new
  end.
Proof.
  revert d. induction occ as [|[k' v] occ IH]; intros d.
  - simpl. destruct (getOwn k d); [now rewrite app_nil_r | reflexivity].
  - unfold pushAll in *. cbn [fold_left fst snd]. rewrite IH, getOwn_pushOwn.
    unfold valuesOf. cbn [filter fst]. rewrite (String.eqb_sym k' k).
    destruct (String.eqb k k'); cbn [map snd].
    + destruct (getOwn k d); [now rewrite <- app_assoc | reflexivity].
    + reflexivity.
Qed.

Lemma keysOf_setOwn (k : string) (vs : list V) (d : Dict (list V)) :
  getOwn k d <> None -> keysOf (setOwn k vs d) = keysOf d.
Proof.
  unfold keysOf. induction d as [|[k0 v0] d IH]; simpl; intros H; [congruence|].
  destruct (String.eqb k k0); simpl; [reflexivity|]. now rewrite IH.
Qed.

Lemma getOwn_None (k : string) (d : Dict (list V)) :
  getOwn k d = None <-> ~ In k (keysOf d).
Proof.
  unfold keysOf. induction d as [|[k0 v0] d IH]; simpl; [propositional|].
  destruct (String.eqb_spec k k0) as [-> | Hne].
  - split; [discriminate | intros H; elim H; now left].
  - rewrite IH. split; [intros H [E | Hin]; [now elim Hne | contradiction] | propositional].
Qed.

Lemma keysOf_pushOwn (k : string) (v : V) (d : Dict (list V)) :
  NoDup (keysOf d) ->
  NoDup (keysOf (pushOwn k v d))
  /\ forall k', In k' (keysOf (pushOwn k v d)) <-> k' = k \/ In k' (keysOf d).
Proof.
  intros Hnd. unfold pushOwn. destruct (getOwn k d) as [vs|] eqn:E.
  - rewrite keysOf_setOwn by congruence. split; [assumption|].
    intros k'. split; [propositional|]. intros [-> | H]; [|assumption].
    destruct (in_dec string_dec k (keysOf d)) as [Hin | Hout]; [assumption|].
    apply getOwn_None in Hout. congruence.
  - apply getOwn_None in E. unfold keysOf in *. rewrite map_app. simpl. split.
    + apply NoDup_app; [assumption | repeat constructor; intros [] |].
      intros x Hx [<- | []]. contradiction.
    + intros k'. rewrite in_app_iff. simpl. split; [intros [H | [H | []]] | intros [H | H]]; auto.
Qed.

Lemma keysOf_pushAll (occ : list (string * V)) (d : Dict (list V)) :
  NoDup (keysOf d) ->
  NoDup (keysOf (pushAll occ d))
  /\ forall k, In k (keysOf (pushAll occ d)) <-> In k (map fst occ) \/ In k (keysOf d).
Proof.
  revert d. induction occ as [|[k v] occ IH]; intros d Hnd.
  - simpl. split; [assumption | propositional].
  - unfold pushAll in *. cbn [fold_left fst snd map].
    destruct (keysOf_pushOwn k v d Hnd) as [Hnd' Hk].
    destruct (IH _ Hnd') as [Hnd'' Hk'']. split; [assumption|].
    intros k'. rewrite Hk'', Hk. simpl.
    split; [intros [H | [H | H]] | intros [[H | H] | H]]; auto.
Qed.

(** With distinct keys, the entries are exactly the bindings. *)
Lemma In_getOwn (k : string) (vs : list V) (d : Dict (list V)) :
  NoDup (keysOf d) -> (In (k, vs) d <-> getOwn k d = Some vs).
Proof.
  unfold keysOf. induction d as [|[k0 v0] d IH]; simpl; intros Hnd.
  - split; [contradiction | discriminate].
  - inversion Hnd as [|? ? Hn Hnd']; subst.
    destruct (String.eqb_spec k k0) as [-> | Hne].
    + split.
      * intros [E | Hin]; [congruence|]. elim Hn. apply (in_map fst) in Hin. exact Hin.
      * intros E. left. congruence.
    + rewrite <- IH by assumption. split; [intros [E | H]; [congruence | assumption] | propositional].
Qed.

End Pushing.

Lemma filter_split_perm {A} (f : A -> bool) (l : list A) :
  Permutation (filter f l ++ filter (fun x => negb (f x)) l) l.
Proof.
  induction l as [|x l IH]; simpl; [apply perm_nil|].
  destruct (f x); simpl.
  - now apply perm_skip.
  - apply Permutation_sym, Permutation_cons_app, Permutation_sym, IH.
Qed.

Lemma Object_entries_perm {V} (d : Dict V) : Permutation (Object_entries d) d.
Proof.
  unfold Object_entries.
  eapply perm_trans; [|apply (filter_split_perm isIndexKey)].
  apply Permutation_app_tail, Array_sort_perm.
Qed.

Lemma fold_left_map {A B C} (f : C -> B -> C) (g : A -> B) (l : list A) (c : C) :
  fold_left f (map g l) c = fold_left (fun c' x => f c' (g x)) l c.
Proof.
  revert c. induction l as [|x l IH]; intros c; simpl; [reflexivity | apply IH].
Qed.

(** ** Pattern detector *)

Lemma hasColon_append (a b : string) : hasColon (a +++ b) = hasColon a || hasColon b.
Proof.
  induction a as [|c a IH]; simpl; [reflexivity|].
  rewrite IH. apply orb_assoc.
Qed.

Lemma prototype_key_no_colon (k : string) :
  includes k ObjectPrototypeKeys = true -> hasColon k = false.
Proof.
  intros H. apply includes_In in H. simpl in H.
  repeat (destruct H as [<- | H]; [reflexivity|]). contradiction.
Qed.

(** A group key is never the name of an inherited property. *)
Lemma groupKey_plain (e : CorrelationEvent) :
  includes (groupKey e) ObjectPrototypeKeys = false.
Proof.
  destruct (includes (groupKey e) ObjectPrototypeKeys) eqn:E; [|reflexivity].
  apply prototype_key_no_colon in E. unfold groupKey in E.
  rewrite !hasColon_append in E. simpl in E. now rewrite orb_true_r in E.
Qed.

Lemma groupDates_eq (sorted : list CorrelationEvent) :
  groupDates sorted = Normal (pushAll (datePushes sorted) []).
Proof.
  unfold groupDates, datePushes.
  rewrite <- (pushInto_fold (map (fun e => (groupKey e, e_date e)) sorted) []).
  - now rewrite fold_left_map.
  - intros kv Hkv. apply in_map_iff in Hkv. destruct Hkv as [e [<- _]].
    apply groupKey_plain.
Qed.

(** [findTemporalPatterns] never throws; its result is the sorted list of
    the patterns of the groups. *)
Lemma findTemporalPatterns_eq (events : list CorrelationEvent) :
  findTemporalPatterns events =
  Normal (Array_sort byConfidenceDesc
            (flat_map (patternBody [])
               (Object_entries
                  (pushAll (datePushes (Array_sort byDateAsc events)) [])))).
Proof.
  unfold findTemporalPatterns. rewrite groupDates_eq. cbn [bind].
  now rewrite pattern_fold.
Qed.

Lemma pushAll_same_key {V} (k : string) (occ : list (string * V)) (vs : list V) :
  (forall kv, In kv occ -> fst kv = k) ->
  pushAll occ [(k, vs)] = [(k, vs ++ map snd occ)].
Proof.
  revert vs. induction occ as [|[k' v] occ IH]; intros vs H.
  - simpl. now rewrite app_nil_r.
  - assert (k' = k) as -> by (apply (H (k', v)); now left).
    unfold pushAll in *. cbn [fold_left fst snd]. unfold pushOwn at 2.
    cbn [getOwn setOwn]. rewrite String.eqb_refl.
    rewrite IH by (intros; apply H; now right).
    cbn [map snd]. now rewrite <- app_assoc.
Qed.

(** A single group: every event pushes under the same key. *)
Lemma pushAll_one_group {V} (k : string) (kv : string * V) (occ : list (string * V)) :
  (forall x, In x (kv :: occ) -> fst x = k) ->
  pushAll (kv :: occ) [] = [(k, map snd (kv :: occ))].
Proof.
  intros H. destruct kv as [k' v].
  assert (k' = k) as -> by (apply (H (k', v)); now left).
  unfold pushAll. cbn [fold_left fst snd]. unfold pushOwn at 2. cbn [getOwn app].
  apply (pushAll_same_key k occ [v]). intros; apply H; now right.
Qed.

(** A list sorted by date, with no two equal dates, is what sorting any of
    its permutations returns. *)
Lemma sorted_unique (s l : list CorrelationEvent) :
  StronglySorted (fun a b => e_date a <= e_date b) s ->
  StronglySorted (fun a b => e_date a < e_date b) l ->
  Permutation s l -> s = l.
Proof.
  intros Hs Hl. revert s Hs.
  induction Hl as [|x l Hl IH Hx]; intros s Hs Hp.
  - now apply Permutation_sym, Permutation_nil in Hp.
  - destruct s as [|y s]; [now apply Permutation_nil in Hp|].
    inversion Hs as [|? ? Hs' Hy]; subst.
    assert (y = x) as ->.
    { assert (Hyin : In y (x :: l)) by (eapply Permutation_in; [exact Hp | now left]).
      assert (Hxin : In x (y :: s))
        by (eapply Permutation_in; [apply Permutation_sym, Hp | now left]).
      destruct Hyin as [E | Hyin]; [now symmetry|].
      destruct Hxin as [E | Hxin]; [assumption|].
      rewrite Forall_forall in Hx, Hy.
      specialize (Hx y Hyin). specialize (Hy x Hxin). lia. }
    f_equal. apply IH; [assumption|]. eapply Permutation_cons_inv; exact Hp.
Qed.

Lemma Array_sort_byDate_unique (events l : list CorrelationEvent) :
  Permutation events l ->
  StronglySorted (fun a b => e_date a < e_date b) l ->
  Array_sort byDateAsc events = l.
Proof.
  intros Hp Hl. apply sorted_unique; [|assumption|].
  - apply (Array_sort_sorted e_date).
  - eapply perm_trans; [apply Array_sort_perm | exact Hp].
Qed.

Lemma Object_entries_single {V} (k : string) (v : V) :
  arrayIndex k = None -> Object_entries [(k, v)] = [(k, v)].
Proof.
  intros H. unfold Object_entries, isIndexKey. cbn [filter fst]. now rewrite H.
Qed.

Lemma signatureXab_key (e : CorrelationEvent) :
  signatureXab e -> groupKey e = "X:a,b"%string.
Proof. intros [Hr Hk]. unfold groupKey. now rewrite Hr, Hk. Qed.

(** The patterns of a list of events of signature X/a,b, given in date
    order with distinct dates. *)
Lemma patterns_Xab (events sorted : list CorrelationEvent) (e : CorrelationEvent)
  (rest : list CorrelationEvent) :
  sorted = e :: rest ->
  Permutation events sorted ->
  StronglySorted (fun a b => e_date a < e_date b) sorted ->
  (forall x, In x sorted -> signatureXab x) ->
  findTemporalPatterns events =
  Normal (Array_sort byConfidenceDesc
            (patternBody [] ("X:a,b"%string, map e_date sorted))).
Proof.
  intros Hs Hp Hsorted Hsig. rewrite findTemporalPatterns_eq.
  rewrite (Array_sort_byDate_unique events sorted Hp Hsorted).
  subst sorted. unfold datePushes. cbn [map].
  rewrite (pushAll_one_group "X:a,b"%string).
  - cbn [map snd]. rewrite map_map. cbn [snd].
    rewrite Object_entries_single by reflexivity.
    cbn [flat_map]. now rewrite app_nil_r.
  - intros x [<- | Hx]; cbn [fst].
    + apply signatureXab_key, Hsig. now left.
    + apply in_map_iff in Hx. destruct Hx as [y [<- Hy]]. cbn [fst].
      apply signatureXab_key, Hsig. now right.
Qed.

(** C1 (as amended).  Three events of region "X" and first keywords
    ["a", "b"], 24 hours apart, in any input order, yield exactly one
    pattern, with frequency 24 and confidence 60.  With a fourth event of
    the same signature 30 hours after the third, the mean interval is 26
    hours, every interval is within 20% of it, and exactly one pattern is
    emitted, with frequency 26 and confidence 80. *)
Theorem C1_daily_pattern (e1 e2 e3 e4 : CorrelationEvent) (t : Z) :
  signatureXab e1 -> signatureXab e2 -> signatureXab e3 -> signatureXab e4 ->
  e_date e1 = t ->
  e_date e2 = t + hoursMs 24 ->
  e_date e3 = t + hoursMs 48 ->
  e_date e4 = t + hoursMs 78 ->
  (forall events, Permutation events [e1; e2; e3] ->
     exists p, findTemporalPatterns events = Normal [p]
               /\ (p_frequency p == 24)%Q /\ p_confidence p = 60
               /\ p_recentHits p = [e_date e1; e_date e2; e_date e3])
  /\ (forall events, Permutation events [e1; e2; e3; e4] ->
        exists p, findTemporalPatterns events = Normal [p]
                  /\ (p_frequency p == 26)%Q /\ p_confidence p = 80
                  /\ p_recentHits p = [e_date e1; e_date e2; e_date e3; e_date e4]).
Proof.
  intros S1 S2 S3 S4 D1 D2 D3 D4. unfold hoursMs in *. split.
  - intros events Hp.
    rewrite (patterns_Xab events [e1; e2; e3] e1 [e2; e3] eq_refl Hp).
    + cbn [map]. unfold patternBody.
      replace (intervals [e_date e1; e_date e2; e_date e3])
        with [86400000; 86400000] by (simpl; f_equal; [|f_equal]; lia).
      eexists. split; [reflexivity|]. repeat split.
    + repeat constructor; lia.
    + intros x [<- | [<- | [<- | []]]]; assumption.
  - intros events Hp.
    rewrite (patterns_Xab events [e1; e2; e3; e4] e1 [e2; e3; e4] eq_refl Hp).
    + cbn [map]. unfold patternBody.
      replace (intervals [e_date e1; e_date e2; e_date e3; e_date e4])
        with [86400000; 86400000; 108000000]
        by (simpl; f_equal; [|f_equal; [|f_equal]]; lia).
      eexists. split; [reflexivity|]. repeat split.
    + repeat constructor; lia.
    + intros x [<- | [<- | [<- | [<- | []]]]]; assumption.
Qed.

(** *** Groups of simultaneous events *)

Lemma valuesOf_datePushes (key : string) (l : list CorrelationEvent) :
  valuesOf key (datePushes l) = map e_date (groupOf key l).
Proof.
  unfold valuesOf, datePushes, groupOf.
  induction l as [|e l IH]; simpl; [reflexivity|].
  destruct (String.eqb (groupKey e) key); simpl; now rewrite IH.
Qed.

Lemma map_constant {A B} (f : A -> B) (b : B) (l : list A) :
  (forall x, In x l -> f x = b) -> map f l = repeat b (List.length l).
Proof.
  induction l as [|x l IH]; intros H; simpl; [reflexivity|].
  rewrite (H x) by now left. f_equal. apply IH. intros; apply H; now right.
Qed.

Lemma intervals_repeat (t : Z) (n : nat) :
  intervals (repeat t (S n)) = repeat 0 n.
Proof.
  induction n as [|n IH]; [reflexivity|].
  cbn [repeat] in *. cbn [intervals]. rewrite Z.sub_diag. f_equal. exact IH.
Qed.

Lemma sum_zeros (n : nat) (acc : Z) : fold_left Z.add (repeat 0 n) acc = acc.
Proof.
  revert acc. induction n as [|n IH]; intros acc; simpl; [reflexivity|].
  rewrite IH. lia.
Qed.

Lemma js_gt_zero_over_zero (x avg : Q) :
  (x == 0)%Q -> (avg == 0)%Q -> js_gt (js_div x avg) 0.2 = false.
Proof.
  intros Hx Ha. unfold js_div.
  rewrite (proj2 (Qeq_bool_iff avg 0) Ha), (proj2 (Qeq_bool_iff x 0) Hx).
  reflexivity.
Qed.

(** With a zero mean, intervals of zero never fail the deviation test: the
    quotient is NaN and NaN > 0.2 is false. *)
Lemma consistentLoop_zeros (avg : Q) (n : nat) :
  (avg == 0)%Q -> consistentLoop avg (repeat 0 n) = true.
Proof.
  intros Ha. induction n as [|n IH]; cbn [repeat consistentLoop]; [reflexivity|].
  rewrite js_gt_zero_over_zero; [exact IH | | exact Ha].
  rewrite Ha. reflexivity.
Qed.

Lemma skipn_repeat {A} (a : A) (m n : nat) :
  skipn m (repeat a n) = repeat a (n - m).
Proof.
  revert m. induction n as [|n IH]; intros m; simpl.
  - now destruct m.
  - destruct m; simpl; [reflexivity | apply IH].
Qed.

Lemma slice_last_repeat {A} (a : A) (n : nat) :
  slice_last 5 (repeat a n) = repeat a (Nat.min 5 n).
Proof.
  unfold slice_last. rewrite repeat_length, skipn_repeat. f_equal. lia.
Qed.

Lemma zero_mean (n : Z) : (inject_Z 0 / inject_Z n / MS_PER_HOUR == 0)%Q.
Proof. unfold Qdiv. rewrite <- Qmult_assoc. apply Qmult_0_l. Qed.

Lemma Math_round_zero (q : Q) : (q == 0)%Q -> Math_round q = 0.
Proof. intros H. unfold Math_round. now rewrite H. Qed.

(** The pattern of a group of [n >= 3] events with one common timestamp. *)
Lemma patternBody_simultaneous (key : string) (t : Z) (n : nat) :
  (3 <= n)%nat ->
  patternBody [] (key, repeat t n) =
  [ {| p_pattern := "recurring every 0 hours";
       p_frequency := (inject_Z 0 / inject_Z (Z.of_nat n - 1) / MS_PER_HOUR)%Q;
       p_confidence := clamp0_100 (Math_round (inject_Z (Z.of_nat n) * 20)%Q);
       p_recentHits := repeat t (Nat.min 5 n) |} ].
Proof.
  intros Hn. unfold patternBody, lengthZ. rewrite repeat_length.
  replace (3 <=? Z.of_nat n) with true by (symmetry; apply Z.leb_le; lia).
  destruct n as [|m]; [lia|]. rewrite intervals_repeat, sum_zeros.
  pose proof (zero_mean (Z.of_nat (S m) - 1)) as Hz.
  rewrite consistentLoop_zeros by exact Hz.
  replace (Qltb _ 168) with true
    by (symmetry; apply Qltb_lt; rewrite Hz; reflexivity).
  cbn [andb app]. rewrite (Math_round_zero _ Hz), slice_last_repeat.
  rewrite clamp_of_nonneg; [reflexivity|].
  apply Math_round_nonneg.
  pose proof (inject_Z_nonneg (Z.of_nat (S m)) (Zle_0_nat _)). lra.
Qed.

(** C10.  If at least 3 events share a region-plus-first-two-keywords
    signature and all of them have the same timestamp,
    [findTemporalPatterns] emits a pattern for that group, with frequency 0
    and confidence [clamp0_100 (round (count * 20))]: the mean interval is
    0, dividing by it gives NaN, which never exceeds 0.2, and 0 < 168. *)
Theorem C10_simultaneous_group (events : list CorrelationEvent) (key : string)
  (t : Z) :
  (3 <= List.length (groupOf key events))%nat ->
  (forall e, In e (groupOf key events) -> e_date e = t) ->
  exists patterns p,
    findTemporalPatterns events = Normal patterns
    /\ In p patterns
    /\ (p_frequency p == 0)%Q
    /\ p_confidence p =
       clamp0_100 (Math_round (inject_Z (lengthZ (groupOf key events)) * 20)%Q)
    /\ p_pattern p = "recurring every 0 hours"%string
    /\ p_recentHits p = repeat t (Nat.min 5 (List.length (groupOf key events))).
Proof.
  intros Hlen Hsame. rewrite findTemporalPatterns_eq.
  set (sorted := Array_sort byDateAsc events).
  set (d := pushAll (datePushes sorted) []).
  set (n := List.length (groupOf key events)) in *.
  assert (Hperm : Permutation (groupOf key sorted) (groupOf key events))
    by apply filter_perm, Array_sort_perm.
  assert (Hdates : valuesOf key (datePushes sorted) = repeat t n).
  { rewrite valuesOf_datePushes.
    rewrite (map_constant e_date t).
    - f_equal. apply (Permutation_length Hperm).
    - intros x Hx. apply Hsame. eapply Permutation_in; eassumption. }
  assert (Hentry : In (key, repeat t n) d).
  { destruct (keysOf_pushAll (datePushes sorted) [] (NoDup_nil _)) as [Hnd _].
    apply (In_getOwn key (repeat t n) d Hnd). unfold d.
    rewrite getOwn_pushAll, Hdates. cbn [getOwn].
    destruct n as [|m]; [lia | reflexivity]. }
  eexists. eexists. split; [reflexivity|]. split.
  - apply Array_sort_In. apply in_flat_map. exists (key, repeat t n). split.
    + eapply Permutation_in; [apply Permutation_sym, Object_entries_perm | exact Hentry].
    + rewrite (patternBody_simultaneous key t n Hlen). now left.
  - cbn [p_frequency p_confidence p_pattern p_recentHits]. unfold lengthZ. fold n.
    split; [apply zero_mean|]. repeat split.
Qed.

(** ** Thematic correlator *)












Lemma flat_map_perm {A B} (f : A -> list B) (l l' : list A) :
  Permutation l l' -> Permutation (flat_map f l) (flat_map f l').
Proof.
  induction 1 as [|x l l' Hp IH|x y l|l l' l'' _ IH1 _ IH2]; simpl.
  - apply perm_nil.
  - now apply Permutation_app_head.
  - rewrite !app_assoc. apply Permutation_app_tail, Permutation_app_comm.
  - now apply perm_trans with (flat_map f l').
Qed.



(** ** Events with a zero coordinate *)

Lemma coords_zero (e : CorrelationEvent) (q : Q) :
  (q == 0)%Q -> e_lat e = Some q \/ e_lon e = Some q -> coords e = None.
Proof.
  intros Hq H. apply Qeq_bool_iff in Hq. unfold coords, truthy.
  destruct (e_lat e) as [la|], (e_lon e) as [lo|]; try reflexivity.
  destruct H as [H | H]; inversion H; subst; rewrite Hq; simpl;
    [reflexivity | now rewrite andb_false_r].
Qed.

Lemma spatialBody_unlocated (e1 e2 : CorrelationEvent) (s : list CorrelationResult) :
  coords e1 = None \/ coords e2 = None -> spatialBody e1 e2 s = s.
Proof.
  intros H. unfold spatialBody.
  destruct (coords e1) as [[lat1 lon1]|]; [|reflexivity].
  destruct H as [H | H]; [discriminate | now rewrite H].
Qed.

Lemma clusterBody_unlocated (events : list CorrelationEvent)
  (st : list GeographicCluster * list string) (e : CorrelationEvent) :
  coords e = None -> clusterBody events st e = st.
Proof. intros H. unfold clusterBody. destruct st. now rewrite H. Qed.

Lemma flat_map_nothing {A B} (f : A -> list B) (l : list A) :
  (forall x, In x l -> f x = []) -> flat_map f l = [].
Proof.
  induction l as [|x l IH]; intros H; simpl; [reflexivity|].
  rewrite (H x) by now left. apply IH. intros; apply H; now right.
Qed.

(** Events that fail the coordinate check produce no spatial result and no
    cluster, whatever their distance. *)
Lemma unlocated_ignored (events : list CorrelationEvent) :
  (forall e, In e events -> coords e = None) ->
  findSpatialCorrelations events = [] /\ findGeographicClusters events = [].
Proof.
  intros H. split.
  - rewrite findSpatialCorrelations_unfold.
    rewrite flat_map_nothing; [reflexivity|].
    intros [x y] Hp. apply pairs_In in Hp. cbn [fst snd].
    apply spatialBody_unlocated. left. apply H, Hp.
  - unfold findGeographicClusters.
    assert (G : forall todo st, (forall e, In e todo -> coords e = None) ->
                fold_left (clusterBody events) todo st = st).
    { induction todo as [|e todo IH]; intros st Hc; cbn [fold_left]; [reflexivity|].
      rewrite clusterBody_unlocated by (apply Hc; now left).
      apply IH. intros; apply Hc; now right. }
    now rewrite G.
Qed.

(** ** Further properties of the engine *)

(** *** Spatial correlator *)

Lemma coords_located (e : CorrelationEvent) :
  coords e = if located e then position e else None.
Proof.
  unfold coords, located, position, truthy.
  destruct (e_lat e) as [la|], (e_lon e) as [lo|]; try reflexivity;
    destruct (negb (Qeq_bool la 0) && negb (Qeq_bool lo 0)); reflexivity.
Qed.




(** *** Order of the results *)

Lemma insertBy_ext {A} (cmp cmp' : A -> A -> Z) (x : A) (l : list A) :
  (forall a b, cmp a b = cmp' a b) -> insertBy cmp x l = insertBy cmp' x l.
Proof.
  intros H. induction l as [|y l IH]; simpl; [reflexivity|].
  now rewrite H, IH.
Qed.

Lemma Array_sort_ext {A} (cmp cmp' : A -> A -> Z) (l : list A) :
  (forall a b, cmp a b = cmp' a b) -> Array_sort cmp l = Array_sort cmp' l.
Proof.
  intros H. induction l as [|x l IH]; simpl; [reflexivity|].
  rewrite IH. now apply insertBy_ext.
Qed.

Lemma StronglySorted_impl {A} (R R' : A -> A -> Prop) (l : list A) :
  (forall a b, R a b -> R' a b) -> StronglySorted R l -> StronglySorted R' l.
Proof.
  intros H. induction 1 as [|x l Hs IH Hx]; constructor; [assumption|].
  eapply Forall_impl; [|exact Hx]. intros b Hb. now apply H.
Qed.

(** Sorting with [(a, b) => key(b) - key(a)] gives a descending list. *)
Lemma Array_sort_descending {A} (key : A -> Z) (l : list A) :
  descending key (Array_sort (fun a b => key b - key a) l).
Proof.
  unfold descending.
  rewrite (Array_sort_ext _ (fun a b => - key a - - key b)) by (intros; lia).
  pose proof (Array_sort_sorted (fun a => - key a) l) as H. cbv zeta in H.
  eapply StronglySorted_impl; [|exact H].
  intros a b Hab. cbv beta in Hab. lia.
Qed.

(** X2.  Every pass returns its list in descending order of its ranking
    key: score for the temporal, spatial, thematic and cascade results,
    confidence for the patterns, event count for the clusters. *)
Theorem X2_results_descending (events : list CorrelationEvent) :
  descending r_score (findTemporalCorrelations events)
  /\ descending r_score (findSpatialCorrelations events)
  /\ descending r_score (emitted (findThematicCorrelations events))
  /\ descending r_score (detectCascades events)
  /\ descending p_confidence (emitted (findTemporalPatterns events))
  /\ descending eventCount (findGeographicClusters events).
Proof.
  split; [apply (Array_sort_descending r_score)|].
  split; [apply (Array_sort_descending r_score)|].
  split.
  { unfold findThematicCorrelations.
    destruct (groupKeywords events); cbn [bind emitted];
      [apply (Array_sort_descending r_score) | constructor]. }
  split; [apply (Array_sort_descending r_score)|].
  split.
  { rewrite findTemporalPatterns_eq. apply (Array_sort_descending p_confidence). }
  apply (Array_sort_descending eventCount).
Qed.

(** *** When the engine throws *)










(** *** Invariants of the patterns *)

Lemma intervals_sum (dates : list Z) (acc : Z) :
  fold_left Z.add (intervals dates) acc = acc + (last dates 0 - hd 0 dates).
Proof.
  revert acc. induction dates as [|a dates IH]; intros acc; [simpl; lia|].
  destruct dates as [|b rest]; [simpl; lia|].
  cbn [intervals fold_left]. rewrite IH.
  change (last (a :: b :: rest) 0) with (last (b :: rest) 0). cbn [hd]. lia.
Qed.

Lemma StronglySorted_filter {A} (R : A -> A -> Prop) (q : A -> bool) (l : list A) :
  StronglySorted R l -> StronglySorted R (filter q l).
Proof.
  induction 1 as [|x l Hl IH Hx]; simpl; [constructor|].
  destruct (q x); [|assumption]. constructor; [assumption|].
  rewrite Forall_forall in *. intros y Hy. apply filter_In in Hy. apply Hx, Hy.
Qed.

Lemma StronglySorted_map {A B} (R : B -> B -> Prop) (f : A -> B) (l : list A) :
  StronglySorted (fun a b => R (f a) (f b)) l -> StronglySorted R (map f l).
Proof.
  induction 1 as [|x l Hl IH Hx]; simpl; constructor; [assumption|].
  rewrite Forall_forall in *. intros y Hy. apply in_map_iff in Hy.
  destruct Hy as [z [<- Hz]]. now apply Hx.
Qed.

Lemma StronglySorted_skipn {A} (R : A -> A -> Prop) (n : nat) (l : list A) :
  StronglySorted R l -> StronglySorted R (skipn n l).
Proof.
  revert l. induction n as [|n IH]; intros l H; [assumption|].
  destruct l as [|x l]; [constructor|]. simpl. apply IH.
  now inversion H.
Qed.

Lemma In_skipn {A} (n : nat) (l : list A) (x : A) : In x (skipn n l) -> In x l.
Proof.
  intros H. rewrite <- (firstn_skipn n l). apply in_or_app. now right.
Qed.

Lemma ascending_ends (dates : list Z) : ascending dates -> hd 0 dates <= last dates 0.
Proof.
  intros H. destruct dates as [|a dates]; [simpl; lia|].
  inversion H as [|? ? _ Ha]; subst. cbn [hd].
  destruct (exists_last (l := a :: dates)) as [l' [z E]]; [discriminate|].
  rewrite E, last_last.
  destruct l' as [|b l']; simpl in E; injection E as <- E; [lia|].
  rewrite Forall_forall in Ha. apply Ha. rewrite E. apply in_or_app. right. now left.
Qed.

Lemma Math_round_integer (z : Z) (q : Q) : (q == inject_Z z)%Q -> Math_round q = z.
Proof.
  intros H. unfold Math_round. rewrite H.
  unfold Qfloor, inject_Z, Qplus. cbn [Qnum Qden Pos.mul].
  symmetry. apply Z.div_unique with (r := 1); lia.
Qed.

(** The entries of the grouping dictionary hold the dates of the events of
    each key, in date order. *)
Lemma group_entries (events : list CorrelationEvent) (key : string) (dates : list Z) :
  In (key, dates)
     (Object_entries (pushAll (datePushes (Array_sort byDateAsc events)) [])) ->
  dates = groupDatesOf key events.
Proof.
  intros H. unfold groupDatesOf.
  set (sorted := Array_sort byDateAsc events) in *.
  apply (Permutation_in _ (Object_entries_perm _)) in H.
  destruct (keysOf_pushAll (datePushes sorted) [] (NoDup_nil _)) as [Hnd _].
  apply (In_getOwn _ _ _ Hnd) in H.
  rewrite getOwn_pushAll, valuesOf_datePushes in H. cbn [getOwn] in H.
  destruct (map e_date (groupOf key sorted)); congruence.
Qed.

Lemma groupDatesOf_ascending (key : string) (events : list CorrelationEvent) :
  ascending (groupDatesOf key events).
Proof.
  unfold ascending, groupDatesOf, groupOf.
  apply StronglySorted_map, StronglySorted_filter.
  apply (Array_sort_sorted e_date).
Qed.

Lemma groupDatesOf_incl (key : string) (events : list CorrelationEvent) (d : Z) :
  In d (groupDatesOf key events) -> In d (map e_date events).
Proof.
  unfold groupDatesOf, groupOf. intros H. apply in_map_iff in H.
  destruct H as [e [<- He]]. apply filter_In in He. destruct He as [He _].
  apply in_map. apply (Array_sort_In byDateAsc). exact He.
Qed.

(** X5.  Every pattern [findTemporalPatterns] emits comes from a group of
    at least 3 events with one key: its recent hits are the last five of
    the group's dates in ascending order, all of them dates of input
    events; its frequency is the span of the group's dates divided by the
    number of intervals, in hours, and lies in [0, 168); its confidence is
    20 per event capped at 100, so 60, 80 or 100. *)
Theorem X5_pattern_invariants (events : list CorrelationEvent) :
  Forall
    (fun p =>
       exists key,
         let dates := groupDatesOf key events in
         3 <= lengthZ dates
         /\ p_recentHits p = slice_last 5 dates
         /\ ascending (p_recentHits p)
         /\ 3 <= lengthZ (p_recentHits p) <= 5
         /\ (forall d, In d (p_recentHits p) -> In d (map e_date events))
         /\ (p_frequency p ==
             inject_Z (last dates 0%Z - hd 0%Z dates) / inject_Z (lengthZ dates - 1)
             / MS_PER_HOUR)%Q
         /\ (0 <= p_frequency p)%Q /\ (p_frequency p < 168)%Q
         /\ p_confidence p = Z.min 100 (20 * lengthZ dates)
         /\ (p_confidence p = 60 \/ p_confidence p = 80 \/ p_confidence p = 100))
    (emitted (findTemporalPatterns events)).
Proof.
  rewrite findTemporalPatterns_eq. cbn [emitted].
  apply Array_sort_Forall, Forall_forall. intros p Hp.
  apply in_flat_map in Hp. destruct Hp as [[key dates] [Hentry Hp]].
  apply group_entries in Hentry. exists key. cbv zeta.
  rewrite <- Hentry.
  pose proof (groupDatesOf_ascending key events) as Hasc.
  pose proof (groupDatesOf_incl key events) as Hincl.
  rewrite <- Hentry in Hasc, Hincl. clear Hentry.
  unfold patternBody in Hp.
  destruct (3 <=? lengthZ dates) eqn:Hlen; [|contradiction].
  apply Z.leb_le in Hlen.
  destruct (consistentLoop _ _); cbn [andb] in Hp; [|contradiction].
  destruct (Qltb _ 168) eqn:Hweek; [|contradiction].
  destruct Hp as [<- | []].
  cbn [p_recentHits p_frequency p_confidence].
  apply Qltb_lt in Hweek. rewrite intervals_sum in *. rewrite Z.add_0_l in *.
  assert (Hround : Math_round (inject_Z (lengthZ dates) * 20) = 20 * lengthZ dates).
  { apply Math_round_integer. rewrite inject_Z_mult. ring. }
  assert (Hhits : lengthZ (slice_last 5 dates) = Z.min 5 (lengthZ dates)).
  { unfold slice_last, lengthZ in *. rewrite length_skipn. lia. }
  split; [assumption|]. split; [reflexivity|].
  split; [apply StronglySorted_skipn, Hasc|].
  split; [lia|].
  split; [intros d Hd; apply Hincl; eapply In_skipn, Hd|].
  split; [reflexivity|]. split.
  - pose proof (ascending_ends dates Hasc) as Hends.
    assert (H1 : (0 <= inject_Z (last dates 0%Z - hd 0%Z dates))%Q)
      by (apply inject_Z_nonneg; lia).
    assert (H2 : (0 < inject_Z (lengthZ dates - 1))%Q)
      by (rewrite <- (Zlt_Qlt 0); lia).
    apply Qle_shift_div_l; [reflexivity|]. rewrite Qmult_0_l.
    apply Qle_shift_div_l; [assumption|]. now rewrite Qmult_0_l.
  - split; [assumption|]. rewrite Hround. split; [reflexivity | lia].
Qed.

(** *** Scores and significance levels *)

Lemma Math_round_ge (z : Z) (q : Q) : (inject_Z z <= q)%Q -> z <= Math_round q.
Proof.
  intros H. unfold Math_round. rewrite <- (Qfloor_Z z).
  apply Qfloor_resp_le. lra.
Qed.

Lemma Math_round_le (z : Z) (q : Q) : (q <= inject_Z z)%Q -> Math_round q <= z.
Proof.
  intros H. rewrite <- (Math_round_integer z (inject_Z z)) by reflexivity.
  unfold Math_round. apply Qfloor_resp_le. lra.
Qed.

Lemma spatial_bands (events : list CorrelationEvent) :
  Forall spatialBand (findSpatialCorrelations events).
Proof.
  rewrite findSpatialCorrelations_unfold. apply Array_sort_Forall.
  apply Forall_flat_map_intro. intros [e1 e2] _. cbn [fst snd].
  unfold spatialBody.
  destruct (coords e1) as [[lat1 lon1]|]; [|constructor].
  destruct (coords e2) as [[lat2 lon2]|]; [|constructor].
  change SPATIAL_THRESHOLD_KM with 500%Q.
  set (d := haversineDistance lat1 lon1 lat2 lon2).
  destruct (Qle_bool d 500) eqn:Hd; [|constructor].
  constructor; [|constructor]. unfold spatialBand.
  cbn [r_significance r_score].
  change (d / 500)%Q with (d * (1 # 500))%Q.
  apply Qle_bool_iff in Hd.
  destruct (Qltb d 100) eqn:H100; [|destruct (Qltb d 250) eqn:H250].
  - apply Qltb_lt in H100.
    pose proof (Math_round_ge 80 ((1 - d * (1 # 500)) * 100)%Q) as H.
    change (inject_Z 80) with 80%Q in H. lapply H; [lia | lra].
  - apply Qltb_lt in H250.
    assert (H1 : ~ (d < 100)%Q) by (intros H; apply Qltb_lt in H; congruence).
    pose proof (Math_round_ge 50 ((1 - d * (1 # 500)) * 100)%Q) as Hlo.
    pose proof (Math_round_le 80 ((1 - d * (1 # 500)) * 100)%Q) as Hhi.
    change (inject_Z 50) with 50%Q in Hlo. change (inject_Z 80) with 80%Q in Hhi.
    lapply Hlo; [|lra]. lapply Hhi; [lia | lra].
  - assert (H1 : ~ (d < 250)%Q) by (intros H; apply Qltb_lt in H; congruence).
    pose proof (Math_round_ge 0 ((1 - d * (1 # 500)) * 100)%Q) as Hlo.
    pose proof (Math_round_le 50 ((1 - d * (1 # 500)) * 100)%Q) as Hhi.
    change (inject_Z 0) with 0%Q in Hlo. change (inject_Z 50) with 50%Q in Hhi.
    lapply Hlo; [|lra]. lapply Hhi; [lia | lra].
Qed.

Lemma cascade_bands (events : list CorrelationEvent) :
  Forall cascadeBand (detectCascades events).
Proof.
  rewrite detectCascades_unfold. apply Array_sort_Forall.
  apply Forall_flat_map_intro. intros [e1 e2] _. cbn [fst snd].
  unfold cascadeBody.
  set (h := (inject_Z (e_date e2 - e_date e1) / MS_PER_HOUR)%Q).
  destruct (Qltb 6 h) eqn:H6; cbn [andb]; [|constructor].
  destruct (Qltb h 48) eqn:H48; [|constructor].
  destruct (String.eqb (e_region e1) (e_region e2) || _) eqn:Hq; [|constructor].
  constructor; [|constructor]. unfold cascadeBand.
  cbn [r_significance r_score].
  change (h / 48)%Q with (h * (1 # 48))%Q.
  apply Qltb_lt in H6, H48.
  set (bonus := if String.eqb (e_region e1) (e_region e2) then 20%Q
                else (inject_Z (lengthZ (sharedKeywords e1 e2)) * 10)%Q).
  assert (Hb : (20 <= bonus)%Q).
  { unfold bonus. destruct (String.eqb (e_region e1) (e_region e2)); [lra|].
    cbn [orb] in Hq. apply Z.leb_le in Hq.
    rewrite Zle_Qle in Hq. change (inject_Z 2) with 2%Q in Hq. lra. }
  destruct (Qltb h 12) eqn:H12.
  - apply Qltb_lt in H12.
    pose proof (Math_round_ge 95 ((1 - h * (1 # 48)) * 100 + bonus)%Q) as H.
    change (inject_Z 95) with 95%Q in H. lapply H; [lia | lra].
  - pose proof (Math_round_ge 20 ((1 - h * (1 # 48)) * 100 + bonus)%Q) as H.
    change (inject_Z 20) with 20%Q in H. lapply H; [lia | lra].
Qed.

Lemma thematic_bands (events : list CorrelationEvent) :
  Forall thematicBand (emitted (findThematicCorrelations events)).
Proof.
  unfold findThematicCorrelations.
  destruct (groupKeywords events) as [d|err]; cbn [bind emitted]; [|constructor].
  apply Array_sort_Forall. rewrite thematic_fold.
  apply Forall_flat_map_intro. intros [keyword eventIds] _.
  unfold thematicBody. destruct (3 <=? lengthZ eventIds) eqn:E; [|constructor].
  constructor; [|constructor]. unfold thematicBand.
  cbn [r_events r_score r_significance]. apply Z.leb_le in E.
  split; [assumption|]. split; [|reflexivity].
  f_equal. apply Math_round_integer. rewrite inject_Z_mult. ring.
Qed.

(** X6.  Score and significance agree on every result: a spatial result
    of high significance scores 80 to 100, of medium significance 50 to 80,
    of low significance 0 to 50; a cascade result is never of low
    significance, scores at least 20, and at least 95 when its significance
    is high; a thematic result lists at least 3 events, scores 15 per
    listed event capped at 100, and is of high significance exactly from 5
    listed events on, otherwise medium. *)
Theorem X6_significance_bands (events : list CorrelationEvent) :
  Forall spatialBand (findSpatialCorrelations events)
  /\ Forall cascadeBand (detectCascades events)
  /\ Forall thematicBand (emitted (findThematicCorrelations events)).
Proof.
  split; [apply spatial_bands|]. split; [apply cascade_bands | apply thematic_bands].
Qed.

Lemma temporal_high (events : list CorrelationEvent) :
  Forall (fun r => r_significance r = high -> 71 <= r_score r <= 100)
         (findTemporalCorrelations events).
Proof.
  pose proof (temporal_scores events) as Hrange.
  rewrite findTemporalCorrelations_unfold in *.
  rewrite Forall_forall in *. intros r Hr Hhigh.
  specialize (Hrange r Hr). unfold scoreInRange, inRange0_100 in Hrange.
  split; [|lia].
  apply Array_sort_In, in_flat_map in Hr. destruct Hr as [[e1 e2] [_ Hr]].
  cbn [fst snd] in Hr. unfold temporalBody in Hr.
  destruct (Qle_bool _ _); [|contradiction].
  destruct (2 <=? _); [|contradiction].
  destruct Hr as [<- | []]. cbn [r_significance r_score] in *.
  destruct (70 <? _) eqn:E; [apply Z.ltb_lt in E; lia|].
  destruct (50 <? _); discriminate.
Qed.

(** X7.  On a bundle the engine produced, every alert
    [correlationsToThreatSignals] returns carries a score between 71 and
    100: a temporal result is of high significance only above 70, a spatial
    one only from 80 on, a cascade only from 95 on. *)
Theorem X7_alert_scores (events : list CorrelationEvent) :
  match runCorrelationEngine events with
  | Normal produced =>
      Forall (fun s => 71 <= s_score s <= 100) (correlationsToThreatSignals produced)
  | Throw _ => True
  end.
Proof.
  unfold runCorrelationEngine.
  destruct (findThematicCorrelations events) as [th|]; cbn [bind]; [|exact I].
  destruct (findTemporalPatterns events) as [ps|]; cbn [bind]; [|exact I].
  rewrite correlationsToThreatSignals_eq. apply Forall_map.
  apply Forall_firstn, Forall_forall. intros r Hr.
  apply alertable_sources in Hr. destruct Hr as [Hr Hhigh].
  cbn [res_temporal res_spatial res_cascades signalFor s_score] in *.
  rewrite !in_app_iff in Hr. destruct Hr as [Hr | [Hr | Hr]].
  - pose proof (temporal_high events) as H. rewrite Forall_forall in H.
    now apply (H r).
  - pose proof (spatial_bands events) as H. rewrite Forall_forall in H.
    specialize (H r Hr). unfold spatialBand in H. rewrite Hhigh in H. lia.
  - pose proof (cascade_bands events) as H. rewrite Forall_forall in H.
    specialize (H r Hr). unfold cascadeBand in H. rewrite Hhigh in H. lia.
Qed.

(** *** Invariants of the clusters *)

(** The date range and the categories the inner loop computes. *)
Lemma absorb_fold_range (seed : CorrelationEvent) (lat lon : Q) :
  coords seed = Some (lat, lon) ->
  forall (l : list CorrelationEvent) (c : GeographicCluster) (used : list string),
    let r := fold_left (absorb seed lat lon) l (c, used) in
    dateRange_start (fst r) =
      fold_left Z.min (map e_date (absorbed seed l)) (dateRange_start c)
    /\ dateRange_end (fst r) =
      fold_left Z.max (map e_date (absorbed seed l)) (dateRange_end c)
    /\ categories (fst r) =
      fold_left (fun cs cat => Set_add cat cs) (map e_category (absorbed seed l))
                (categories c).
Proof.
  intros Hs l. induction l as [|o l IH]; intros c used; cbv zeta.
  - simpl. repeat split.
  - cbn [fold_left]. rewrite (absorb_step seed lat lon c used o Hs).
    unfold absorbed; cbn [filter].
    destruct (joins seed o); [|apply IH].
    cbn [map fold_left]. fold (absorbed seed l).
    match goal with
    | |- context [fold_left (absorb seed lat lon) l (?c', ?u')] =>
        destruct (IH c' u') as (H1 & H2 & H3)
    end.
    cbn [dateRange_start dateRange_end categories] in H1, H2, H3.
    rewrite H1, H2, H3. unfold Set_add. repeat split; f_equal.
    + destruct (Z.ltb_spec (e_date o) (dateRange_start c)); lia.
    + destruct (Z.ltb_spec (dateRange_end c) (e_date o)); lia.
Qed.

Lemma fold_min_isLeast (ds : list Z) (m0 : Z) :
  isLeast (fold_left Z.min ds m0) (m0 :: ds).
Proof.
  revert m0. induction ds as [|d ds IH]; intros m0; cbn [fold_left].
  - split; [now left|]. intros d [<- | []]. lia.
  - destruct (IH (Z.min m0 d)) as [Hin Hle]. split.
    + destruct Hin as [Hin | Hin]; [|right; now right].
      rewrite <- Hin. destruct (Z.min_spec m0 d) as [[_ ->] | [_ ->]];
        [now left | right; now left].
    + intros x [<- | [<- | Hx]].
      * specialize (Hle _ (or_introl eq_refl)). lia.
      * specialize (Hle _ (or_introl eq_refl)). lia.
      * apply Hle. now right.
Qed.

Lemma fold_max_isGreatest (ds : list Z) (m0 : Z) :
  isGreatest (fold_left Z.max ds m0) (m0 :: ds).
Proof.
  revert m0. induction ds as [|d ds IH]; intros m0; cbn [fold_left].
  - split; [now left|]. intros d [<- | []]. lia.
  - destruct (IH (Z.max m0 d)) as [Hin Hle]. split.
    + destruct Hin as [Hin | Hin]; [|right; now right].
      rewrite <- Hin. destruct (Z.max_spec m0 d) as [[_ ->] | [_ ->]];
        [right; now left | now left].
    + intros x [<- | [<- | Hx]].
      * specialize (Hle _ (or_introl eq_refl)). lia.
      * specialize (Hle _ (or_introl eq_refl)). lia.
      * apply Hle. now right.
Qed.

Lemma fold_Set_add (xs cs : list string) :
  NoDup cs ->
  NoDup (fold_left (fun s x => Set_add x s) xs cs)
  /\ forall x, In x (fold_left (fun s x' => Set_add x' s) xs cs) <-> In x cs \/ In x xs.
Proof.
  revert cs. induction xs as [|y xs IH]; intros cs Hnd; cbn [fold_left].
  - split; [assumption|]. intros x. simpl. split; [now left | now intros [H | []]].
  - assert (Hnd' : NoDup (Set_add y cs)).
    { unfold Set_add. destruct (includes y cs) eqn:E; [assumption|].
      apply NoDup_app; [assumption | repeat constructor; intros [] |].
      intros x Hx [<- | []]. apply includes_In in Hx. congruence. }
    destruct (IH _ Hnd') as [H1 H2]. split; [assumption|].
    intros x. rewrite H2. unfold Set_add.
    destruct (includes y cs) eqn:E.
    + apply includes_In in E. simpl.
      split; [intros [H | H]; auto | intros [H | [<- | H]]; auto].
    + rewrite in_app_iff. simpl.
      split; [intros [[H | [<- | []]] | H]; auto | intros [H | [<- | H]]; auto].
Qed.

Lemma filter_shorter {A} (q : A -> bool) (l : list A) (x : A) :
  In x l -> q x = false -> (List.length (filter q l) < List.length l)%nat.
Proof.
  induction l as [|y l IH]; intros Hin Hq; [contradiction|]. simpl.
  pose proof (filter_length_le q l) as Hle.
  destruct Hin as [-> | Hin].
  - rewrite Hq. lia.
  - specialize (IH Hin Hq). destruct (q y); simpl; lia.
Qed.

Lemma joins_self (seed : CorrelationEvent) : joins seed seed = false.
Proof. unfold joins. now rewrite String.eqb_refl. Qed.

(** Every emitted cluster is what the inner loop made of one seed. *)
Lemma clusters_of_seeds (events : list CorrelationEvent)
  (P : CorrelationEvent -> GeographicCluster -> Prop) :
  (forall seed lat lon used,
      In seed events -> coords seed = Some (lat, lon) ->
      P seed (fst (fold_left (absorb seed lat lon) events
                             (seedCluster seed lat lon, used)))) ->
  Forall (fun c => 2 <= eventCount c /\ exists seed, In seed events /\ P seed c)
         (findGeographicClusters events).
Proof.
  intros HP. unfold findGeographicClusters. apply Array_sort_Forall.
  set (Q := fun c => 2 <= eventCount c /\ exists seed, In seed events /\ P seed c).
  assert (G : forall todo st,
             (forall e, In e todo -> In e events) ->
             Forall Q (fst st) ->
             Forall Q (fst (fold_left (clusterBody events) todo st))).
  { induction todo as [|e todo IH]; intros [clusters used] Hsub Hst; cbn [fold_left].
    - exact Hst.
    - apply IH; [intros; apply Hsub; now right|].
      unfold clusterBody.
      destruct (coords e) as [[lat lon]|] eqn:Hc; [|exact Hst].
      destruct (includes (e_id e) used); [exact Hst|].
      pose proof (HP e lat lon used (Hsub e (or_introl eq_refl)) Hc) as Hk.
      destruct (fold_left (absorb e lat lon) events (seedCluster e lat lon, used))
        as [c used'].
      cbn [fst] in Hk. destruct (2 <=? eventCount c) eqn:E; [|exact Hst].
      cbn [fst] in *. apply Forall_app. split; [exact Hst|].
      constructor; [|constructor]. split; [now apply Z.leb_le|].
      exists e. split; [apply Hsub; now left | exact Hk]. }
  apply G; [trivial | constructor].
Qed.

(** X8.  Every cluster [findGeographicClusters] emits is built around a
    located seed of the input: it counts the seed and the events the seed
    absorbed, at least 2 and at most as many as the input has events; its
    date range starts at the earliest and ends at the latest date of these
    members; its categories are the members' categories without
    repetition, the seed's first. *)
Theorem X8_cluster_invariants (events : list CorrelationEvent) :
  Forall
    (fun c =>
       exists seed,
         In seed events /\ located seed = true
         /\ eventCount c = lengthZ (members seed events)
         /\ 2 <= eventCount c <= lengthZ events
         /\ isLeast (dateRange_start c) (map e_date (members seed events))
         /\ isGreatest (dateRange_end c) (map e_date (members seed events))
         /\ dateRange_start c <= dateRange_end c
         /\ NoDup (categories c)
         /\ hd_error (categories c) = Some (e_category seed)
         /\ (forall cat, In cat (categories c)
                         <-> In cat (map e_category (members seed events))))
    (findGeographicClusters events).
Proof.
  eapply Forall_impl;
    [|apply (clusters_of_seeds events
               (fun seed c =>
                  located seed = true
                  /\ eventCount c = lengthZ (members seed events)
                  /\ eventCount c <= lengthZ events
                  /\ isLeast (dateRange_start c) (map e_date (members seed events))
                  /\ isGreatest (dateRange_end c) (map e_date (members seed events))
                  /\ NoDup (categories c)
                  /\ hd_error (categories c) = Some (e_category seed)
                  /\ (forall cat, In cat (categories c)
                         <-> In cat (map e_category (members seed events)))))].
  - intros c [H2 [seed (Hin & Hloc & Hcount & Hmost & Hleast & Hgreatest & Hnd & Hhd & Hcats)]].
    exists seed. repeat (split; [assumption|]).
    split; [lia|]. repeat (split; [assumption|]).
    split; [|split; [assumption | split; assumption]].
    destruct Hleast as [Hl1 Hl2]. exact (proj2 Hgreatest _ Hl1).
  - intros seed lat lon used Hin Hc.
    destruct (absorb_fold seed lat lon Hc events (seedCluster seed lat lon) used)
      as (_ & _ & H3 & _ & _).
    destruct (absorb_fold_range seed lat lon Hc events (seedCluster seed lat lon) used)
      as (H4 & H5 & H6).
    cbv zeta in *. rewrite H3, H4, H5, H6.
    unfold seedCluster; cbn [eventCount dateRange_start dateRange_end categories].
    assert (Hlen : 1 + lengthZ (absorbed seed events) = lengthZ (members seed events))
      by (unfold members, lengthZ; simpl List.length; lia).
    destruct (fold_Set_add (map e_category (absorbed seed events)) [e_category seed])
      as [Hnd Hcats]; [repeat constructor; intros []|].
    split; [rewrite coords_located in Hc; destruct (located seed); congruence|].
    split; [exact Hlen|]. split.
    { rewrite Hlen. unfold members, lengthZ, absorbed. simpl List.length.
      pose proof (filter_shorter (joins seed) events seed Hin (joins_self seed)). lia. }
    split; [apply (fold_min_isLeast (map e_date (absorbed seed events)) (e_date seed))|].
    split; [apply (fold_max_isGreatest (map e_date (absorbed seed events)) (e_date seed))|].
    split; [exact Hnd|]. split.
    + clear. generalize (map e_category (absorbed seed events)).
      assert (G : forall xs cs x, hd_error cs = Some x ->
                    hd_error (fold_left (fun s x' => Set_add x' s) xs cs) = Some x).
      { induction xs as [|y xs IH]; intros cs x H; cbn [fold_left]; [exact H|].
        apply IH. unfold Set_add. destruct (includes y cs); [exact H|].
        destruct cs; [discriminate | exact H]. }
      intros xs. now apply G.
    + intros cat. rewrite Hcats. unfold members. cbn [map]. simpl In.
      split; [intros [[H | []] | H]; auto | intros [H | H]; auto].
Qed.

(** *** The order of the input and the clusters *)

Lemma clusterBody_skip (events : list CorrelationEvent)
  (clusters : list GeographicCluster) (used : list string) (e : CorrelationEvent) :
  includes (e_id e) used = true ->
  clusterBody events (clusters, used) e = (clusters, used).
Proof.
  intros H. unfold clusterBody. destruct (coords e) as [[lat lon]|]; [|reflexivity].
  now rewrite H.
Qed.

Lemma clusterBody_step (events : list CorrelationEvent)
  (clusters : list GeographicCluster) (used : list string) (seed : CorrelationEvent) :
  coords seed <> None -> includes (e_id seed) used = false ->
  exists c,
    clusterBody events (clusters, used) seed =
      ((if 2 <=? 1 + lengthZ (absorbed seed events) then clusters ++ [c] else clusters),
       fold_left (fun u o => Set_add (e_id o) u) (absorbed seed events) used)
    /\ eventCount c = 1 + lengthZ (absorbed seed events)
    /\ clusterOf seed events c.
Proof.
  intros Hc Hu. unfold clusterBody.
  destruct (coords seed) as [[lat lon]|] eqn:E; [|congruence]. rewrite Hu.
  pose proof (seed_clusterOf seed lat lon events used E) as Hk.
  destruct (absorb_fold seed lat lon E events (seedCluster seed lat lon) used)
    as (_ & _ & H3 & _ & H5).
  destruct (fold_left (absorb seed lat lon) events (seedCluster seed lat lon, used))
    as [c used'].
  cbn [fst snd seedCluster eventCount] in *. subst used'. exists c.
  rewrite H3. split; [|split; [reflexivity | exact Hk]].
  now destruct (2 <=? 1 + lengthZ (absorbed seed events)).
Qed.

Lemma joins_located (seed other : CorrelationEvent) :
  joins seed other = true ->
  coords other <> None /\ String.eqb (e_id seed) (e_id other) = false.
Proof.
  unfold joins. intros H. apply andb_prop in H. destruct H as [H1 H2].
  apply negb_true_iff in H1. split; [|assumption].
  destruct (coords other); [discriminate | discriminate].
Qed.

(** X9.  The clusters depend on the order of the input, and an event can
    be counted in two clusters.  Let [b] be within 100 km of both [a] and
    [c], and [a] and [c] not within 100 km of each other.  On the input
    [a, b, c] the builder emits two clusters of 2 events, one around [a]
    and one around [c], both counting [b]; on [b, a, c] it emits one
    cluster of 3 events around [b]. *)
Theorem X9_cluster_order (a b c : CorrelationEvent) :
  joins a b = true -> joins b a = true ->
  joins b c = true -> joins c b = true ->
  joins a c = false -> joins c a = false ->
  (exists k1 k2,
      findGeographicClusters [a; b; c] = [k1; k2]
      /\ clusterOf a [a; b; c] k1 /\ absorbed a [a; b; c] = [b] /\ eventCount k1 = 2
      /\ clusterOf c [a; b; c] k2 /\ absorbed c [a; b; c] = [b] /\ eventCount k2 = 2)
  /\ (exists k,
         findGeographicClusters [b; a; c] = [k]
         /\ clusterOf b [b; a; c] k /\ absorbed b [b; a; c] = [a; c]
         /\ eventCount k = 3).
Proof.
  intros Hab Hba Hbc Hcb Hac Hca.
  destruct (joins_located _ _ Hab) as [Lb Iab].
  destruct (joins_located _ _ Hba) as [La Iba].
  destruct (joins_located _ _ Hbc) as [Lc Ibc].
  destruct (joins_located _ _ Hcb) as [_ Icb].
  assert (Aa : absorbed a [a; b; c] = [b])
    by (unfold absorbed; cbn [filter]; now rewrite joins_self, Hab, Hac).
  assert (Ac : absorbed c [a; b; c] = [b])
    by (unfold absorbed; cbn [filter]; now rewrite joins_self, Hcb, Hca).
  assert (Ab : absorbed b [b; a; c] = [a; c])
    by (unfold absorbed; cbn [filter]; now rewrite joins_self, Hba, Hbc).
  split.
  - unfold findGeographicClusters. cbn [fold_left].
    destruct (clusterBody_step [a; b; c] [] [] a La eq_refl) as (k1 & E1 & C1 & K1).
    rewrite E1, Aa. rewrite Aa in C1.
    change (lengthZ [b]) with 1 in *. cbn [Z.add Pos.add Z.leb Z.compare Pos.compare
      Pos.compare_cont app fold_left] in *.
    change (Set_add (e_id b) []) with [e_id b].
    rewrite clusterBody_skip
      by (unfold includes; cbn [existsb]; now rewrite String.eqb_refl).
    destruct (clusterBody_step [a; b; c] [k1] [e_id b] c Lc) as (k2 & E2 & C2 & K2).
    { unfold includes. cbn [existsb]. rewrite Icb. reflexivity. }
    rewrite E2, Ac. rewrite Ac in C2.
    change (lengthZ [b]) with 1 in *. cbn [Z.add Pos.add Z.leb Z.compare Pos.compare
      Pos.compare_cont app fst] in *.
    exists k1, k2. split.
    + unfold Array_sort. cbn [fold_right insertBy]. unfold byEventCountDesc.
      rewrite C1, C2. reflexivity.
    + auto 10.
  - unfold findGeographicClusters. cbn [fold_left].
    destruct (clusterBody_step [b; a; c] [] [] b Lb eq_refl) as (k & E & C & K).
    rewrite E, Ab. rewrite Ab in C.
    change (lengthZ [a; c]) with 2 in *. cbn [Z.add Pos.add Z.leb Z.compare Pos.compare
      Pos.compare_cont app fold_left] in *.
    rewrite clusterBody_skip.
    2:{ rewrite !includes_Set_add, String.eqb_refl. cbn [orb].
        apply orb_true_r. }
    rewrite clusterBody_skip.
    2:{ rewrite !includes_Set_add, String.eqb_refl. reflexivity. }
    exists k. auto.
Qed.

(** *** The order of the input, the cascades and the patterns *)

Lemma flat_map_filter_nil {A B} (f : A -> list B) (q : A -> bool) (l : list A) :
  (forall x, q x = false -> f x = []) ->
  flat_map f l = flat_map f (filter q l).
Proof.
  intros H. induction l as [|x l IH]; simpl; [reflexivity|].
  destruct (q x) eqn:E; simpl; [now rewrite IH|]. now rewrite (H x E).
Qed.

(** The time test of the cascade detector. *)
Lemma cascadeBody_window (p : CorrelationEvent * CorrelationEvent) :
  Qltb 6 (gapHours (fst p) (snd p)) && Qltb (gapHours (fst p) (snd p)) 48 = false ->
  cascadeBody (fst p) (snd p) [] = [].
Proof.
  intros H. unfold cascadeBody.
  change (inject_Z (e_date (snd p) - e_date (fst p)) / MS_PER_HOUR)%Q
    with (gapHours (fst p) (snd p)).
  now rewrite H.
Qed.

Lemma window_forward (p : CorrelationEvent * CorrelationEvent) :
  Qltb 6 (gapHours (fst p) (snd p)) && Qltb (gapHours (fst p) (snd p)) 48 = true ->
  e_date (fst p) < e_date (snd p).
Proof.
  rewrite andb_true_iff. intros [Hlo _].
  apply Qltb_lt in Hlo. unfold gapHours in Hlo.
  pose proof (proj1 (inject_Z_hours_lt 6 (e_date (snd p) - e_date (fst p))) Hlo).
  lia.
Qed.

(** The cascades are those of the ordered pairs of the input. *)
Lemma detectCascades_orderedPairs (events : list CorrelationEvent) :
  Permutation (detectCascades events)
              (flat_map (fun p => cascadeBody (fst p) (snd p) []) (orderedPairs events)).
Proof.
  rewrite detectCascades_unfold.
  eapply perm_trans; [apply Array_sort_perm|].
  set (q := fun p : CorrelationEvent * CorrelationEvent =>
              Qltb 6 (gapHours (fst p) (snd p)) && Qltb (gapHours (fst p) (snd p)) 48).
  rewrite (flat_map_filter_nil _ q) by (intros; now apply cascadeBody_window).
  rewrite (flat_map_filter_nil _ q (orderedPairs events))
    by (intros; now apply cascadeBody_window).
  pose proof (filter_pairs_sorted e_date q events window_forward) as E.
  cbv zeta in E. fold byDateAsc in E. rewrite <- E.
  apply flat_map_perm, filter_perm, orderedPairs_perm, Array_sort_perm.
Qed.

(** X10.  [detectCascades] does not depend on the order of its input: on
    two arrangements of the same events it returns the same results, up
    to the order of results of equal score. *)
Theorem X10_cascades_any_order (events events' : list CorrelationEvent) :
  Permutation events events' ->
  Permutation (detectCascades events) (detectCascades events').
Proof.
  intros Hp.
  eapply perm_trans; [apply detectCascades_orderedPairs|].
  eapply perm_trans; [|apply Permutation_sym, detectCascades_orderedPairs].
  now apply flat_map_perm, orderedPairs_perm.
Qed.

Lemma ascending_unique (s l : list Z) :
  ascending s -> ascending l -> Permutation s l -> s = l.
Proof.
  unfold ascending. intros Hs Hl. revert s Hs.
  induction Hl as [|x l Hl IH Hx]; intros s Hs Hp.
  - now apply Permutation_sym, Permutation_nil in Hp.
  - destruct s as [|y s]; [now apply Permutation_nil in Hp|].
    inversion Hs as [|? ? Hs' Hy]; subst.
    assert (y = x) as ->.
    { assert (Hyin : In y (x :: l)) by (eapply Permutation_in; [exact Hp | now left]).
      assert (Hxin : In x (y :: s))
        by (eapply Permutation_in; [apply Permutation_sym, Hp | now left]).
      destruct Hyin as [E | Hyin]; [now symmetry|].
      destruct Hxin as [E | Hxin]; [assumption|].
      rewrite Forall_forall in Hx, Hy.
      specialize (Hx y Hyin). specialize (Hy x Hxin). lia. }
    f_equal. apply IH; [assumption|]. eapply Permutation_cons_inv; exact Hp.
Qed.

Lemma groupDatesOf_perm (key : string) (events events' : list CorrelationEvent) :
  Permutation events events' -> groupDatesOf key events = groupDatesOf key events'.
Proof.
  intros Hp. apply ascending_unique; try apply groupDatesOf_ascending.
  unfold groupDatesOf, groupOf. apply Permutation_map, filter_perm.
  eapply perm_trans; [apply Array_sort_perm|].
  eapply perm_trans; [exact Hp | apply Permutation_sym, Array_sort_perm].
Qed.

(** The entries of the grouping dictionary: one for each key that has
    events, with the dates of its events in date order. *)
Lemma group_entries_iff (events : list CorrelationEvent) (key : string)
  (dates : list Z) :
  In (key, dates) (pushAll (datePushes (Array_sort byDateAsc events)) [])
  <-> dates = groupDatesOf key events /\ dates <> [].
Proof.
  unfold groupDatesOf.
  set (sorted := Array_sort byDateAsc events).
  destruct (keysOf_pushAll (datePushes sorted) [] (NoDup_nil _)) as [Hnd _].
  rewrite (In_getOwn _ _ _ Hnd).
  rewrite getOwn_pushAll, valuesOf_datePushes. cbn [getOwn].
  destruct (map e_date (groupOf key sorted)) as [|d ds].
  - split; [discriminate | intros [-> H]; now elim H].
  - split; [intros H; injection H as <-; split; [reflexivity | discriminate]|].
    now intros [-> _].
Qed.

Lemma NoDup_keys {V} (d : Dict (list V)) : NoDup (keysOf d) -> NoDup d.
Proof. unfold keysOf. apply NoDup_map_inv. Qed.

Lemma groups_perm (events events' : list CorrelationEvent) :
  Permutation events events' ->
  Permutation (pushAll (datePushes (Array_sort byDateAsc events)) [])
              (pushAll (datePushes (Array_sort byDateAsc events')) []).
Proof.
  intros Hp. apply NoDup_Permutation.
  - apply NoDup_keys, keysOf_pushAll, NoDup_nil.
  - apply NoDup_keys, keysOf_pushAll, NoDup_nil.
  - intros [key dates]. rewrite !group_entries_iff.
    now rewrite (groupDatesOf_perm key events events' Hp).
Qed.

(** X11.  [findTemporalPatterns] does not depend on the order of its
    input: on two arrangements of the same events it returns the same
    patterns, up to the order of patterns of equal confidence. *)
Theorem X11_patterns_any_order (events events' : list CorrelationEvent) :
  Permutation events events' ->
  exists patterns patterns',
    findTemporalPatterns events = Normal patterns
    /\ findTemporalPatterns events' = Normal patterns'
    /\ Permutation patterns patterns'.
Proof.
  intros Hp. rewrite !findTemporalPatterns_eq.
  eexists. eexists. split; [reflexivity|]. split; [reflexivity|].
  eapply perm_trans; [apply Array_sort_perm|].
  eapply perm_trans; [|apply Permutation_sym, Array_sort_perm].
  apply flat_map_perm.
  eapply perm_trans; [apply Object_entries_perm|].
  eapply perm_trans; [|apply Permutation_sym, Object_entries_perm].
  now apply groups_perm.
Qed.

End Engine.

(** ** The engine on the example inputs *)

Import Examples.

(** The engine with the rational Math functions. *)
Abbreviation clustersQ :=
  (findGeographicClusters Approx.sin Approx.cos Approx.sqrt Approx.atan2 Approx.PI).

Abbreviation distanceQ :=
  (distanceKm Approx.sin Approx.cos Approx.sqrt Approx.atan2 Approx.PI).

Ltac distinct_strings :=
  repeat (constructor; [simpl; intuition discriminate|]); constructor.

Ltac each_event H :=
  simpl in H; repeat (destruct H as [<- | H]; [|]); try contradiction.

(** C1, as the specification states it, fails.  The four example events
    have the signature and the spacing it describes; the intervals are 24,
    24 and 30 hours, their mean is 26 hours, and a pattern of frequency 26
    and confidence 80 is emitted for them. *)
Lemma C1_fourth_event_not_suppressed :
  map (fun p => (p_pattern p, p_confidence p))
      (emitted (findTemporalPatterns [day1; day2; day3; day4]))
  = [("recurring every 26 hours"%string, 80)]
  /\ ~ (forall e1 e2 e3 e4 t,
          signatureXab e1 -> signatureXab e2 -> signatureXab e3 -> signatureXab e4 ->
          e_date e1 = t -> e_date e2 = t + hoursMs 24 ->
          e_date e3 = t + hoursMs 48 -> e_date e4 = t + hoursMs 78 ->
          emitted (findTemporalPatterns [e1; e2; e3; e4]) = []).
Proof.
  split; [reflexivity|]. intros H.
  specialize (H day1 day2 day3 day4 0).
  assert (S : forall e, In e [day1; day2; day3; day4] -> signatureXab e).
  { intros e He. each_event He; split; reflexivity. }
  specialize (H (S _ (or_introl eq_refl)) (S _ (or_intror (or_introl eq_refl)))
                (S _ (or_intror (or_intror (or_introl eq_refl))))
                (S _ (or_intror (or_intror (or_intror (or_introl eq_refl)))))
                eq_refl eq_refl eq_refl eq_refl).
  vm_compute in H. discriminate H.
Qed.

(** The daily pattern on the example events, the three of them given out
    of order. *)
Lemma C1_witness :
  (signatureXab day1 /\ signatureXab day2 /\ signatureXab day3 /\ signatureXab day4)
  /\ (exists p, findTemporalPatterns [day3; day1; day2] = Normal [p]
                /\ (p_frequency p == 24)%Q /\ p_confidence p = 60)
  /\ (exists p, findTemporalPatterns [day1; day2; day3; day4] = Normal [p]
                /\ (p_frequency p == 26)%Q /\ p_confidence p = 80).
Proof.
  assert (S : signatureXab day1 /\ signatureXab day2 /\ signatureXab day3
              /\ signatureXab day4)
    by (repeat split; reflexivity).
  split; [exact S|].
  destruct S as (S1 & S2 & S3 & S4).
  destruct (C1_daily_pattern day1 day2 day3 day4 0 S1 S2 S3 S4
              eq_refl eq_refl eq_refl eq_refl) as [H3 H4].
  split.
  - destruct (H3 [day3; day1; day2]) as (p & Hp & Hf & Hc & _).
    + change [day1; day2; day3] with ([day1; day2] ++ [day3]).
      apply Permutation_cons_app. rewrite app_nil_r. apply Permutation_refl.
    + exists p. auto.
  - destruct (H4 [day1; day2; day3; day4] (Permutation_refl _)) as (p & Hp & Hf & Hc & _).
    exists p. auto.
Defined.










(** C2: the code at the failing input.  The two example events carry
    coordinates, latitude 0, and are about 56 km apart; neither the spatial
    correlator nor the cluster builder emits anything for them, whatever the
    Math functions are. *)
Theorem C2_zero_latitude_dropped :
  position equatorA = Some (0%Q, 10%Q)
  /\ position equatorB = Some (0%Q, 10.5%Q)
  /\ (55 <= distanceQ equatorA equatorB <= 56)%Q
  /\ (forall now sin cos sqrt atan2 PI,
        findSpatialCorrelations now sin cos sqrt atan2 PI [equatorA; equatorB] = []
        /\ findGeographicClusters sin cos sqrt atan2 PI [equatorA; equatorB] = []).
Proof.
  split; [reflexivity|]. split; [reflexivity|]. split.
  - split; vm_compute; discriminate.
  - intros. apply unlocated_ignored.
    intros e He. each_event He; reflexivity.
Qed.

Lemma cities_located (e : CorrelationEvent) :
  In e [berlin; paris1; paris2; paris3] -> nonzeroCoords e.
Proof.
  intros He. unfold nonzeroCoords.
  each_event He; (do 2 eexists); (split; [reflexivity|]); (split; [reflexivity|]);
    split; intros H; discriminate H.
Defined.

Lemma cities_near (x y : CorrelationEvent) :
  In x [berlin; paris1; paris2; paris3] -> In y [berlin; paris1; paris2; paris3] ->
  x <> berlin -> y <> berlin -> (distanceQ x y <= 50)%Q.
Proof.
  intros Hx Hy Nx Ny.
  each_event Hx; try (now elim Nx); each_event Hy; try (now elim Ny);
    vm_compute; discriminate.
Defined.

Lemma berlin_remote (x : CorrelationEvent) :
  In x [berlin; paris1; paris2; paris3] -> x <> berlin ->
  (500 < distanceQ x berlin)%Q /\ (500 < distanceQ berlin x)%Q.
Proof.
  intros Hx Nx. each_event Hx; try (now elim Nx); split; vm_compute; reflexivity.
Defined.

(** One cluster of three for three events in Paris and one in Berlin, the
    remote one first. *)
Lemma C8_witness :
  (NoDup (map e_id [berlin; paris1; paris2; paris3])
   /\ In berlin [berlin; paris1; paris2; paris3])
  /\ exists c, clustersQ [berlin; paris1; paris2; paris3] = [c] /\ eventCount c = 3.
Proof.
  assert (Hids : NoDup (map e_id [berlin; paris1; paris2; paris3]))
    by (simpl; distinct_strings).
  split; [split; [exact Hids | now left]|].
  destruct (C8_one_cluster_of_three
              Approx.sin Approx.cos Approx.sqrt Approx.atan2 Approx.PI
              [berlin; paris1; paris2; paris3] berlin eq_refl Hids
              cities_located (or_introl eq_refl) cities_near berlin_remote)
    as [(c & seed & Hc & Hn & _) _].
  exists c. split; assumption.
Defined.

(** Three simultaneous events of one signature among other events. *)
Lemma C10_witness :
  (3 <= List.length (groupOf "X:a,b" [same1; once; same2; same3]))%nat
  /\ exists patterns p,
       findTemporalPatterns [same1; once; same2; same3] = Normal patterns
       /\ In p patterns /\ (p_frequency p == 0)%Q.
Proof.
  assert (Hn : (3 <= List.length (groupOf "X:a,b" [same1; once; same2; same3]))%nat).
  { vm_compute. lia. }
  split; [exact Hn|].
  destruct (C10_simultaneous_group [same1; once; same2; same3] "X:a,b" 5 Hn)
    as (patterns & p & H1 & H2 & H3 & _).
  - intros e He. vm_compute in He. each_event He; reflexivity.
  - exists patterns, p. auto.
Defined.

(** *** The further properties on the example inputs *)

Abbreviation joinsQ :=
  (joins Approx.sin Approx.cos Approx.sqrt Approx.atan2 Approx.PI).

(** A chain of three events, from one end and from the middle. *)
Lemma X9_witness :
  (joinsQ chainA chainB = true /\ joinsQ chainB chainA = true
   /\ joinsQ chainB chainC = true /\ joinsQ chainC chainB = true
   /\ joinsQ chainA chainC = false /\ joinsQ chainC chainA = false)
  /\ map eventCount (clustersQ [chainA; chainB; chainC]) = [2; 2]
  /\ map eventCount (clustersQ [chainB; chainA; chainC]) = [3].
Proof.
  assert (H : joinsQ chainA chainB = true /\ joinsQ chainB chainA = true
              /\ joinsQ chainB chainC = true /\ joinsQ chainC chainB = true
              /\ joinsQ chainA chainC = false /\ joinsQ chainC chainA = false)
    by (split; [|split; [|split; [|split; [|split]]]]; vm_compute; reflexivity).
  split; [exact H|].
  destruct H as (H1 & H2 & H3 & H4 & H5 & H6).
  destruct (X9_cluster_order Approx.sin Approx.cos Approx.sqrt Approx.atan2 Approx.PI
              chainA chainB chainC H1 H2 H3 H4 H5 H6)
    as [(k1 & k2 & E & _ & _ & C1 & _ & _ & C2) (k & E' & _ & _ & C)].
  rewrite E, E'. clear E E' H1 H2 H3 H4 H5 H6. cbn [map]. rewrite C1, C2, C.
  split; reflexivity.
Defined.

(** The cascades of three events given in two orders. *)
Lemma X10_witness :
  Permutation [step1; step2; step3] [step3; step1; step2]
  /\ Permutation (detectCascades 0 [step1; step2; step3])
                 (detectCascades 0 [step3; step1; step2]).
Proof.
  assert (H : Permutation [step1; step2; step3] [step3; step1; step2]).
  { change [step1; step2; step3] with ([step1; step2] ++ [step3]).
    apply Permutation_sym, Permutation_cons_app. rewrite app_nil_r.
    apply Permutation_refl. }
  split; [exact H | exact (X10_cascades_any_order 0 _ _ H)].
Defined.

(** The patterns of four daily events given in two orders. *)
Lemma X11_witness :
  Permutation [day1; day2; day3; day4] [day4; day1; day2; day3]
  /\ exists patterns patterns',
       findTemporalPatterns [day1; day2; day3; day4] = Normal patterns
       /\ findTemporalPatterns [day4; day1; day2; day3] = Normal patterns'
       /\ Permutation patterns patterns'.
Proof.
  assert (H : Permutation [day1; day2; day3; day4] [day4; day1; day2; day3]).
  { change [day1; day2; day3; day4] with ([day1; day2; day3] ++ [day4]).
    apply Permutation_sym, Permutation_cons_app. rewrite app_nil_r.
    apply Permutation_refl. }
  split; [exact H | exact (X11_patterns_any_order _ _ H)].
Defined.

(** ** The HTTP layer: properties *)

(** *** apiKeyMiddleware *)

Lemma truthy_string (s : string) :
  truthyValue (VString s) = true <-> s <> EmptyString.
Proof.
  simpl. rewrite negb_true_iff. split.
  - intros H E. subst. discriminate.
  - intros H. destruct (String.eqb_spec s EmptyString); congruence.
Qed.

Lemma strictEqString_iff (v : reqValue) (s : string) :
  strictEqString v s = true <-> v = VString s.
Proof.
  destruct v; simpl; try (split; [discriminate | intros H; discriminate H]).
  split.
  - intros H. apply String.eqb_eq in H. now subst.
  - intros H. injection H as ->. apply String.eqb_refl.
Qed.

Lemma apiKeyMiddleware_cases (config : APIConfig) (now : Z) (header query : reqValue) :
  (apiKeyMiddleware config now header query = Next
   /\ orElse header query = VString (cfg_apiKey config)
   /\ cfg_apiKey config <> EmptyString)
  \/ (apiKeyMiddleware config now header query
      = Respond (errorResponse now 401 "Invalid or missing API key")
      /\ ~ (orElse header query = VString (cfg_apiKey config)
            /\ cfg_apiKey config <> EmptyString)).
Proof.
  unfold apiKeyMiddleware. cbv zeta.
  destruct (strictEqString (orElse header query) (cfg_apiKey config)) eqn:E.
  - apply strictEqString_iff in E. rewrite E.
    destruct (truthyValue (VString (cfg_apiKey config))) eqn:T; cbn [negb orb].
    + left. split; [reflexivity|]. split; [reflexivity|]. now apply truthy_string.
    + right. split; [reflexivity|]. intros [_ H]. apply truthy_string in H. congruence.
  - right. rewrite orb_true_r. split; [reflexivity|].
    intros [H _]. apply strictEqString_iff in H. congruence.
Qed.

(** X12.  [apiKeyMiddleware] calls [next()] exactly when the presented key
    (the [X-API-Key] header when it is truthy, the [api_key] query
    parameter otherwise) is the configured key, as a string, and the
    configured key is not empty; in every other case it answers 401
    [Invalid or missing API key].  So a truthy header that is not the key
    is rejected even when the query parameter carries the key, a key
    given more than once (an array, in the header or in the query) is
    rejected, and with an empty configured key every request is
    rejected. *)
Theorem X12_api_key (config : APIConfig) (now : Z) (header query : reqValue) :
  (apiKeyMiddleware config now header query = Next
   \/ apiKeyMiddleware config now header query
      = Respond (errorResponse now 401 "Invalid or missing API key"))
  /\ (apiKeyMiddleware config now header query = Next
      <-> orElse header query = VString (cfg_apiKey config)
          /\ cfg_apiKey config <> EmptyString)
  /\ (truthyValue header = true -> header <> VString (cfg_apiKey config) ->
      apiKeyMiddleware config now header query <> Next)
  /\ (forall keys,
         apiKeyMiddleware config now (VArray keys) query <> Next
         /\ (truthyValue header = false ->
             apiKeyMiddleware config now header (VArray keys) <> Next))
  /\ (cfg_apiKey config = EmptyString ->
      apiKeyMiddleware config now header query <> Next).
Proof.
  split; [|split; [|split; [|split]]].
  - destruct (apiKeyMiddleware_cases config now header query) as [[H _] | [H _]]; auto.
  - destruct (apiKeyMiddleware_cases config now header query) as [[H K] | [H K]].
    + split; auto.
    + rewrite H. split; [discriminate | intros K'; now elim K].
  - intros T Hne.
    destruct (apiKeyMiddleware_cases config now header query) as [[H [K _]] | [H _]].
    + unfold orElse in K. rewrite T in K. contradiction.
    + rewrite H. discriminate.
  - intros keys. split.
    + destruct (apiKeyMiddleware_cases config now (VArray keys) query)
        as [[H [K _]] | [H _]].
      * discriminate K.
      * rewrite H. discriminate.
    + intros F.
      destruct (apiKeyMiddleware_cases config now header (VArray keys))
        as [[H [K _]] | [H _]].
      * unfold orElse in K. rewrite F in K. discriminate K.
      * rewrite H. discriminate.
  - intros Hempty.
    destruct (apiKeyMiddleware_cases config now header query) as [[H [_ K]] | [H _]].
    + contradiction.
    + rewrite H. discriminate.
Qed.

(** *** rateLimitMiddleware *)

Lemma getOwn_set_same {V} (k : string) (v : V) (d : Dict V) :
  getOwn k (setOwn k v d) = Some v.
Proof.
  induction d as [|[k' v'] d IH]; simpl.
  - now rewrite String.eqb_refl.
  - destruct (String.eqb k k') eqn:E; simpl; rewrite E; [reflexivity | exact IH].
Qed.

Lemma getOwn_set_other {V} (k k' : string) (v : V) (d : Dict V) :
  k <> k' -> getOwn k (setOwn k' v d) = getOwn k d.
Proof.
  intros Hne. induction d as [|[k0 v0] d IH]; simpl.
  - destruct (String.eqb_spec k k'); [contradiction | reflexivity].
  - destruct (String.eqb_spec k' k0) as [-> | H0]; simpl.
    + destruct (String.eqb_spec k k0); [contradiction | reflexivity].
    + now rewrite IH.
Qed.

Lemma keys_setOwn {V} (k : string) (v : V) (d : Dict V) :
  map fst (setOwn k v d) =
  match getOwn k d with
  | Some _ => map fst d
  | None => map fst d ++ [k]
  end.
Proof.
  induction d as [|[k0 v0] d IH]; simpl; [reflexivity|].
  destruct (String.eqb_spec k k0) as [-> | H0]; simpl; [reflexivity|].
  rewrite IH. now destruct (getOwn k d).
Qed.

(** The entry a request leaves for its client, and its verdict. *)
Lemma rateLimitMiddleware_entry (config : APIConfig) (now : Z) (ip : option string)
  (store : RateStore) :
  exists entry,
    getOwn (clientIdOf ip) (fst (rateLimitMiddleware config now ip store)) = Some entry
    /\ snd (rateLimitMiddleware config now ip store) =
       (if cfg_rateLimit config <? cd_count entry
        then Respond (errorResponse now 429 "Rate limit exceeded") else Next)
    /\ entry =
       match getOwn (clientIdOf ip) store with
       | None => {| cd_count := 1; cd_resetTime := now + 60000 |}
       | Some found =>
           if cd_resetTime found <? now
           then {| cd_count := 1; cd_resetTime := now + 60000 |}
           else {| cd_count := cd_count found + 1; cd_resetTime := cd_resetTime found |}
       end.
Proof.
  unfold rateLimitMiddleware. cbv zeta.
  match goal with
  | |- context [setOwn _ ?e store] => exists e
  end.
  destruct (cfg_rateLimit config <? _); cbn [fst snd];
    (split; [apply getOwn_set_same | split; reflexivity]).
Qed.

(** Within the window of an entry, the requests count on from it. *)
Lemma serve_within (config : APIConfig) (ip : option string) (times : list Z) :
  forall (store : RateStore) (count reset : Z),
    getOwn (clientIdOf ip) store = Some {| cd_count := count; cd_resetTime := reset |} ->
    Forall (fun t => t <= reset) times ->
    map isNext (snd (serve config ip times store))
    = map (fun i => count + Z.of_nat i <=? cfg_rateLimit config)
          (seq 1 (List.length times))
    /\ getOwn (clientIdOf ip) (fst (serve config ip times store))
       = Some {| cd_count := count + lengthZ times; cd_resetTime := reset |}.
Proof.
  induction times as [|t times IH]; intros store count reset Hentry Htimes.
  - cbn [serve snd fst map seq List.length]. unfold lengthZ. cbn [List.length Z.of_nat].
    rewrite Z.add_0_r. now split.
  - inversion Htimes as [|? ? Ht Hrest]; subst. cbn [serve].
    destruct (rateLimitMiddleware_entry config t ip store) as (entry & H1 & H2 & H3).
    rewrite Hentry in H3. cbn [cd_resetTime cd_count] in H3.
    replace (reset <? t) with false in H3 by (symmetry; apply Z.ltb_ge; lia).
    destruct (rateLimitMiddleware config t ip store) as [store' v]. cbn [fst snd] in *.
    subst entry.
    destruct (IH store' (count + 1) reset H1 Hrest) as [IH1 IH2].
    destruct (serve config ip times store') as [store'' vs]. cbn [fst snd] in *.
    split.
    + cbn [map seq List.length]. f_equal.
      * rewrite H2. cbn [cd_count].
        destruct (Z.ltb_spec (cfg_rateLimit config) (count + 1));
          destruct (Z.leb_spec (count + Z.of_nat 1) (cfg_rateLimit config));
          cbn [isNext]; try reflexivity; lia.
      * rewrite IH1, <- (seq_shift (List.length times) 1), map_map. apply map_ext. intros i.
        f_equal. lia.
    + rewrite IH2. unfold lengthZ. cbn [List.length]. do 2 f_equal. lia.
Qed.

(** X13.  A burst against [rateLimitMiddleware].  When a client has no
    entry, or its window is over, a request at time [t0] opens a window
    that ends at [t0 + 60000]; of the requests made up to that time, the
    first one included, exactly the first [rateLimit] are passed on, and
    every one of them, passed or rejected, is counted. *)
Theorem X13_rate_limit_burst (config : APIConfig) (ip : option string)
  (store : RateStore) (t0 : Z) (times : list Z) :
  windowOver store ip t0 ->
  Forall (fun t => t <= t0 + 60000) times ->
  map isNext (snd (serve config ip (t0 :: times) store))
  = map (fun i => Z.of_nat i <=? cfg_rateLimit config) (seq 1 (S (List.length times)))
  /\ getOwn (clientIdOf ip) (fst (serve config ip (t0 :: times) store))
     = Some {| cd_count := 1 + lengthZ times; cd_resetTime := t0 + 60000 |}.
Proof.
  intros Hover Htimes. cbn [serve].
  destruct (rateLimitMiddleware_entry config t0 ip store) as (entry & H1 & H2 & H3).
  assert (E : entry = {| cd_count := 1; cd_resetTime := t0 + 60000 |}).
  { rewrite H3. unfold windowOver in Hover.
    destruct (getOwn (clientIdOf ip) store) as [found|]; [|reflexivity].
    now replace (cd_resetTime found <? t0) with true by (symmetry; apply Z.ltb_lt; lia). }
  clear H3. subst entry.
  destruct (rateLimitMiddleware config t0 ip store) as [store' v]. cbn [fst snd] in *.
  destruct (serve_within config ip times store' 1 (t0 + 60000) H1 Htimes) as [S1 S2].
  destruct (serve config ip times store') as [store'' vs]. cbn [fst snd] in *.
  split; [|exact S2].
  cbn [map seq]. f_equal.
  - rewrite H2. cbn [cd_count].
    destruct (Z.ltb_spec (cfg_rateLimit config) 1);
      destruct (Z.leb_spec (Z.of_nat 1) (cfg_rateLimit config));
      cbn [isNext]; try reflexivity; lia.
  - rewrite S1, <- (seq_shift (List.length times) 1), map_map. apply map_ext. intros i. f_equal. lia.
Qed.

(** X14.  What a request does to the store of [rateLimitMiddleware]: the
    entries of the other clients stay as they are; no entry is ever
    removed, and the store grows by one entry exactly when the client was
    not known; requests without an address share the entry of the client
    named [unknown]; and the verdict is [next()] or a 429 answer. *)
Theorem X14_rate_limit_store (config : APIConfig) (now : Z) (ip : option string)
  (store : RateStore) :
  (forall other, other <> clientIdOf ip ->
      getOwn other (fst (rateLimitMiddleware config now ip store)) = getOwn other store)
  /\ map fst (fst (rateLimitMiddleware config now ip store))
     = match getOwn (clientIdOf ip) store with
       | Some _ => map fst store
       | None => map fst store ++ [clientIdOf ip]
       end
  /\ rateLimitMiddleware config now None store
     = rateLimitMiddleware config now (Some "unknown"%string) store
  /\ rateLimitMiddleware config now (Some EmptyString) store
     = rateLimitMiddleware config now (Some "unknown"%string) store
  /\ (snd (rateLimitMiddleware config now ip store) = Next
      \/ snd (rateLimitMiddleware config now ip store)
         = Respond (errorResponse now 429 "Rate limit exceeded")).
Proof.
  split; [|split; [|split; [|split]]].
  - intros other Hne. unfold rateLimitMiddleware. cbv zeta.
    destruct (cfg_rateLimit config <? _); cbn [fst]; now apply getOwn_set_other.
  - unfold rateLimitMiddleware. cbv zeta.
    destruct (cfg_rateLimit config <? _); cbn [fst]; apply keys_setOwn.
  - reflexivity.
  - reflexivity.
  - destruct (rateLimitMiddleware_entry config now ip store) as (entry & _ & H & _).
    rewrite H. destruct (cfg_rateLimit config <? cd_count entry); auto.
Qed.

(** *** parseInt on decimal numerals *)











(** *** The limit parameter *)





(** *** The list routes *)

Lemma filterM_pure {A} (test : A -> completion bool) (f : A -> bool) (l : list A) :
  (forall x, In x l -> test x = Normal (f x)) ->
  filterM test l = Normal (filter f l).
Proof.
  induction l as [|x l IH]; intros H; cbn [filterM filter]; [reflexivity|].
  rewrite (H x) by now left. cbn [bind].
  rewrite IH by (intros; apply H; now right). reflexivity.
Qed.

Lemma filterM_throws {A} (test : A -> completion bool) (x : A) (l : list A) (e : string) :
  test x = Throw e -> filterM test (x :: l) = Throw e.
Proof. intros H. cbn [filterM]. now rewrite H. Qed.

Lemma lowerCaseTest_text (toLowerCase : string -> string) (field : anyField)
  (wanted : string) :
  field <> FOther ->
  lowerCaseTest toLowerCase field (VString wanted)
  = Normal (matchesLower toLowerCase field wanted).
Proof. intros H. destruct field; [reflexivity | reflexivity | congruence]. Qed.

Lemma lowerCaseTest_repeated (toLowerCase : string -> string) (field : anyField)
  (wanted : reqValue) :
  truthyValue wanted = true -> ~ givenOnce wanted ->
  exists e, lowerCaseTest toLowerCase field wanted = Throw e.
Proof.
  intros _ H. destruct wanted; cbn [givenOnce] in H; try (now elim H);
    destruct field; cbn; eexists; reflexivity.
Qed.

(** The region or category filter, on items whose field is a string or
    absent and a parameter given at most once. *)
Lemma lowerFilter_kept (toLowerCase : string -> string) (project : Item -> anyField)
  (wanted : reqValue) (items : list Item) :
  givenOnce wanted -> Forall (fun i => project i <> FOther) items ->
  (if truthyValue wanted
   then filterM (fun s => lowerCaseTest toLowerCase (project s) wanted) items
   else Normal items)
  = Normal (keptBy (fun i w => matchesLower toLowerCase (project i) w) wanted items).
Proof.
  intros Hw Hf. destruct wanted as [|w| |]; cbn [givenOnce] in Hw; try contradiction.
  - reflexivity.
  - cbn [truthyValue keptBy]. destruct (String.eqb w EmptyString); cbn [negb]; [reflexivity|].
    apply filterM_pure. intros x Hx. apply lowerCaseTest_text.
    rewrite Forall_forall in Hf. now apply Hf.
Qed.

Lemma keptBy_sub (test : Item -> string -> bool) (wanted : reqValue)
  (items : list Item) (P : Item -> Prop) :
  Forall P items -> Forall P (keptBy test wanted items).
Proof.
  intros H. unfold keptBy. destruct wanted; try assumption.
  destruct (String.eqb s EmptyString); [assumption|].
  rewrite Forall_forall in *. intros x Hx. apply filter_In in Hx. now apply H.
Qed.

(** X16.  GET /api/stories.  When [getStories] resolves with stories whose
    region and category are strings or absent, and the region and category
    parameters are given at most once, the answer is 200 with the stories
    that match the region filter and then the category filter (compared in
    lower case; an absent or empty parameter filters nothing), cut by the
    limit; [count] is the number of stories returned, and the answer
    repeats the parameters and the limit applied. *)
Theorem X16_stories_route (toLowerCase : string -> string) (now : Z)
  (stories : list Item) (region category limit : reqValue) :
  givenOnce region -> givenOnce category -> textFields stories ->
  let shown :=
    slice0 (maxLimitOf limit)
      (keptBy (fun i w => matchesLower toLowerCase (it_category i) w) category
         (keptBy (fun i w => matchesLower toLowerCase (it_region i) w) region stories)) in
  storiesRoute toLowerCase now (Normal stories) region category limit
  = okResponse now (StoriesData shown (lengthZ shown) region category (maxLimitOf limit)).
Proof.
  intros Hr Hc Hf. cbv zeta. unfold storiesRoute. cbn [bind].
  assert (H1 : Forall (fun i => it_region i <> FOther) stories)
    by (eapply Forall_impl; [|exact Hf]; now intros i [H _]).
  assert (H2 : Forall (fun i => it_category i <> FOther) stories)
    by (eapply Forall_impl; [|exact Hf]; now intros i [_ H]).
  rewrite (lowerFilter_kept toLowerCase it_region region stories Hr H1). cbn [bind].
  rewrite (lowerFilter_kept toLowerCase it_category category _ Hc)
    by now apply keptBy_sub.
  reflexivity.
Qed.

(** X17.  GET /api/signals.  When [getSignals] resolves with signals whose
    region is a string or absent and the region parameter is given at most
    once, the answer is 200 with the signals whose severity is the
    severity parameter, exactly and as a string, and whose region matches
    in lower case, cut by the limit.  A severity parameter given more than
    once is no error: it matches no signal. *)
Theorem X17_signals_route (toLowerCase : string -> string) (now : Z)
  (signals : list Item) (severity region limit : reqValue) :
  givenOnce region -> textFields signals ->
  let chosen :=
    if truthyValue severity
    then match severity with
         | VString w => filter (fun i => matchesExactly (it_severity i) w) signals
         | _ => []
         end
    else signals in
  let shown :=
    slice0 (maxLimitOf limit)
      (keptBy (fun i w => matchesLower toLowerCase (it_region i) w) region chosen) in
  signalsRoute toLowerCase now (Normal signals) severity region limit
  = okResponse now (SignalsData shown (lengthZ shown) severity region (maxLimitOf limit)).
Proof.
  intros Hr Hf. cbv zeta. unfold signalsRoute. cbn [bind].
  assert (H1 : Forall (fun i => it_region i <> FOther) signals)
    by (eapply Forall_impl; [|exact Hf]; now intros i [H _]).
  assert (E : (if truthyValue severity
               then filter (fun s => strictTest (it_severity s) severity) signals
               else signals)
              = (if truthyValue severity
                 then match severity with
                      | VString w => filter (fun i => matchesExactly (it_severity i) w) signals
                      | _ => []
                      end
                 else signals)).
  { destruct severity as [|w|ws|]; cbn [truthyValue]; try reflexivity.
    - clear. induction signals as [|i l IH]; [reflexivity|]. cbn [filter].
      unfold strictTest at 1. destruct (it_severity i); exact IH.
    - clear. induction signals as [|i l IH]; [reflexivity|]. cbn [filter].
      unfold strictTest at 1. destruct (it_severity i); exact IH. }
  rewrite E.
  rewrite (lowerFilter_kept toLowerCase it_region region _ Hr).
  - reflexivity.
  - destruct (truthyValue severity); [|assumption].
    destruct severity; try constructor.
    rewrite Forall_forall in *. intros x Hx. apply filter_In in Hx. now apply H1.
Qed.

(** X18.  What makes the list routes fail.  GET /api/stories answers 200
    or 500 [Failed to fetch stories], GET /api/signals 200 or 500
    [Failed to fetch signals]; the answer is the 500 one when the handler
    rejects, and when the region parameter is given more than once while
    there is an item to test. *)
Theorem X18_list_route_failures (toLowerCase : string -> string) (now : Z)
  (getItems : completion (list Item)) (region category severity limit : reqValue)
  (item : Item) (items : list Item) (e : string) :
  (rsp_status (storiesRoute toLowerCase now getItems region category limit) = 200
   \/ storiesRoute toLowerCase now getItems region category limit = storiesFailure now)
  /\ (rsp_status (signalsRoute toLowerCase now getItems severity region limit) = 200
      \/ signalsRoute toLowerCase now getItems severity region limit = signalsFailure now)
  /\ storiesRoute toLowerCase now (Throw e) region category limit = storiesFailure now
  /\ signalsRoute toLowerCase now (Throw e) severity region limit = signalsFailure now
  /\ (truthyValue region = true -> ~ givenOnce region ->
      storiesRoute toLowerCase now (Normal (item :: items)) region category limit
      = storiesFailure now
      /\ signalsRoute toLowerCase now (Normal (item :: items)) VUndefined region limit
         = signalsFailure now).
Proof.
  split; [|split; [|split; [|split]]].
  - unfold storiesRoute. destruct getItems as [stories|]; cbn [bind]; [|now right].
    destruct (if truthyValue region then _ else _) as [s1|]; cbn [bind]; [|now right].
    destruct (if truthyValue category then _ else _) as [s2|]; cbn [bind]; [|now right].
    now left.
  - unfold signalsRoute. destruct getItems as [signals|]; cbn [bind]; [|now right].
    destruct (if truthyValue region then _ else _) as [s1|]; cbn [bind]; [|now right].
    now left.
  - reflexivity.
  - reflexivity.
  - intros Ht Hr.
    destruct (lowerCaseTest_repeated toLowerCase (it_region item) region Ht Hr) as [err E].
    split.
    + unfold storiesRoute. cbn [bind]. rewrite Ht.
      rewrite (filterM_throws _ item items err E). reflexivity.
    + unfold signalsRoute. cbn [bind truthyValue]. rewrite Ht.
      rewrite (filterM_throws _ item items err E). reflexivity.
Qed.

(** *** The request chain *)



(** *** WebhookService *)

Lemma getOwn_delete_same {V} (k : string) (d : Dict V) :
  NoDup (map fst d) -> getOwn k (deleteOwn k d) = None.
Proof.
  induction d as [|[k0 v0] d IH]; intros Hnd; cbn [deleteOwn getOwn map fst] in *;
    [reflexivity|].
  inversion Hnd as [|? ? Hn Hnd']; subst.
  destruct (String.eqb_spec k k0) as [-> | Hne].
  - destruct (getOwn k0 d) eqn:E; [|reflexivity].
    elim Hn. clear - E. induction d as [|[k1 v1] d IH]; [discriminate|].
    cbn [getOwn] in E. destruct (String.eqb_spec k0 k1) as [-> | H]; [now left|].
    right. now apply IH.
  - cbn [getOwn]. destruct (String.eqb_spec k k0); [contradiction|]. now apply IH.
Qed.

Lemma getOwn_delete_other {V} (k k' : string) (d : Dict V) :
  k <> k' -> getOwn k (deleteOwn k' d) = getOwn k d.
Proof.
  intros Hne. induction d as [|[k0 v0] d IH]; cbn [deleteOwn getOwn]; [reflexivity|].
  destruct (String.eqb_spec k' k0) as [-> | H0].
  - destruct (String.eqb_spec k k0); [contradiction | reflexivity].
  - cbn [getOwn]. now rewrite IH.
Qed.

Lemma keys_deleteOwn {V} (k : string) (d : Dict V) :
  NoDup (map fst d) ->
  NoDup (map fst (deleteOwn k d))
  /\ forall x, In x (map fst (deleteOwn k d)) -> In x (map fst d).
Proof.
  induction d as [|[k0 v0] d IH]; intros Hnd; cbn [deleteOwn map fst] in *.
  - split; [constructor | trivial].
  - inversion Hnd as [|? ? Hn Hnd']; subst.
    destruct (String.eqb k k0).
    + split; [assumption | intros; now right].
    + destruct (IH Hnd') as [IH1 IH2]. cbn [map fst]. split.
      * constructor; [|assumption]. intros H. apply Hn. now apply IH2.
      * intros x [<- | H]; [now left | right; now apply IH2].
Qed.

Lemma keys_setOwn_NoDup {V} (k : string) (v : V) (d : Dict V) :
  NoDup (map fst d) -> NoDup (map fst (setOwn k v d)).
Proof.
  intros Hnd. rewrite keys_setOwn. destruct (getOwn k d) eqn:E; [assumption|].
  apply NoDup_app; [assumption | repeat constructor; intros [] |].
  intros x Hx [E' | []]. subst x. clear - E Hx.
  induction d as [|[k1 v1] d IH]; [contradiction|].
  cbn [getOwn map fst] in *. destruct (String.eqb_spec k k1) as [-> | H]; [discriminate|].
  destruct Hx as [-> | Hx]; [congruence | now apply IH].
Qed.

Lemma applyOp_NoDup (validURL : string -> bool) (op : registryOp) (webhooks : Registry) :
  NoDup (map fst webhooks) -> NoDup (map fst (applyOp validURL webhooks op)).
Proof.
  intros Hnd. destruct op as [id config | id]; cbn [applyOp].
  - unfold registerWebhook. destruct (validURL (wh_url config)); cbn [fst];
      [now apply keys_setOwn_NoDup | assumption].
  - cbn [removeWebhook fst]. now apply keys_deleteOwn.
Qed.

(** X20.  The registry of a [WebhookService].  After any sequence of
    registrations and removals on a new service the ids listed by
    [listWebhooks] are distinct.  Registering under a valid URL returns
    true and makes the id hold the new configuration, replacing in place
    the one it held; under an invalid URL it returns false and changes
    nothing.  Removing returns true exactly when the id was registered,
    leaves the id unregistered and the other ids as they were. *)
Theorem X20_webhook_registry (validURL : string -> bool) (ops : list registryOp)
  (id other : string) (config : WebhookConfig) :
  let webhooks := fold_left (applyOp validURL) ops [] in
  NoDup (map fst (listWebhooks webhooks))
  /\ (validURL (wh_url config) = true ->
      snd (registerWebhook validURL id config webhooks) = true
      /\ getOwn id (fst (registerWebhook validURL id config webhooks)) = Some config
      /\ map fst (fst (registerWebhook validURL id config webhooks))
         = match getOwn id webhooks with
           | Some _ => map fst webhooks
           | None => map fst webhooks ++ [id]
           end)
  /\ (validURL (wh_url config) = false ->
      registerWebhook validURL id config webhooks = (webhooks, false))
  /\ (snd (removeWebhook id webhooks) = true <-> In id (map fst webhooks))
  /\ getOwn id (fst (removeWebhook id webhooks)) = None
  /\ (other <> id ->
      getOwn other (fst (removeWebhook id webhooks)) = getOwn other webhooks).
Proof.
  cbv zeta.
  assert (Hnd : NoDup (map fst (fold_left (applyOp validURL) ops []))).
  { assert (G : forall l w, NoDup (map fst w) ->
                  NoDup (map fst (fold_left (applyOp validURL) l w))).
    { induction l as [|op l IH]; intros w Hw; cbn [fold_left]; [assumption|].
      apply IH. now apply applyOp_NoDup. }
    apply G. constructor. }
  set (webhooks := fold_left (applyOp validURL) ops []) in *.
  split; [|split; [|split; [|split; [|split]]]].
  - unfold listWebhooks. now rewrite map_map.
  - intros Hv. unfold registerWebhook. rewrite Hv. cbn [fst snd].
    split; [reflexivity|]. split; [apply getOwn_set_same | apply keys_setOwn].
  - intros Hv. unfold registerWebhook. now rewrite Hv.
  - cbn [removeWebhook snd]. clear. generalize webhooks. clear.
    induction webhooks as [|[k0 v0] d IH]; cbn [getOwn map fst].
    + split; [discriminate | contradiction].
    + destruct (String.eqb_spec id k0) as [-> | Hne].
      * split; [intros _; now left | reflexivity].
      * rewrite IH. split; [now right | intros [E | H]; [congruence | assumption]].
  - cbn [removeWebhook fst]. now apply getOwn_delete_same.
  - intros Hne. cbn [removeWebhook fst]. now apply getOwn_delete_other.
Qed.

Lemma sendWebhook_fails (hmac : string -> string -> string)
  (stringify : Payload -> string) (now : Z) (config : WebhookConfig)
  (event data : string) :
  exists error,
    sendWebhook hmac stringify now config event data
    = [ConsoleError ("Webhook " +++ wh_url config +++ " failed:") error].
Proof. eexists. reflexivity. Qed.

Lemma trigger_unfold (hmac : string -> string -> string)
  (stringify : Payload -> string) (now : Z) (webhooks : Registry)
  (event data : string) :
  trigger hmac stringify now webhooks event data
  = flat_map (fun config => sendWebhook hmac stringify now config event data)
             (subscribers event webhooks).
Proof.
  unfold trigger, subscribers.
  assert (G : forall (l : Registry) (acc : list effect),
             fold_left
               (fun effects entry =>
                  if includes event (wh_events (snd entry))
                  then effects ++ sendWebhook hmac stringify now (snd entry) event data
                  else effects) l acc
             = acc ++ flat_map (fun config => sendWebhook hmac stringify now config event data)
                        (filter (fun config => includes event (wh_events config))
                                (map snd l))).
  { induction l as [|[k c] l IH]; intros acc; cbn [fold_left map filter snd].
    - cbn [flat_map]. now rewrite app_nil_r.
    - rewrite IH. destruct (includes event (wh_events c)); [|reflexivity].
      cbn [flat_map]. now rewrite app_assoc. }
  apply (G webhooks []).
Qed.

(** X21.  [trigger] never delivers.  Whatever the signing and the
    serialising functions are, no call of [fetch] is made: the initializer
    of [payload] in [sendWebhook] reads [payload] itself, which throws, and
    the handler writes one line on [console.error] for each webhook
    subscribed to the event, in registry order, naming its URL. *)
Theorem X21_trigger_never_delivers (hmac : string -> string -> string)
  (stringify : Payload -> string) (now : Z) (webhooks : Registry)
  (event data : string) :
  existsb isFetch (trigger hmac stringify now webhooks event data) = false
  /\ map messageOf (trigger hmac stringify now webhooks event data)
     = map (fun config => "Webhook " +++ wh_url config +++ " failed:")
           (subscribers event webhooks).
Proof.
  rewrite trigger_unfold.
  induction (subscribers event webhooks) as [|c l [IH1 IH2]]; [split; reflexivity|].
  cbn [flat_map]. destruct (sendWebhook_fails hmac stringify now c event data) as [err E].
  rewrite E. cbn [app existsb isFetch map messageOf orb]. split; [exact IH1|].
  now rewrite IH2.
Qed.

(** *** DataExportService.exportStoriesCSV *)

Lemma append_assoc (a b c : string) : (a +++ b) +++ c = a +++ (b +++ c).
Proof. induction a as [|x a IH]; simpl; [reflexivity | now rewrite IH]. Qed.

Lemma length_append (a b : string) :
  String.length (a +++ b) = (String.length a + String.length b)%nat.
Proof. induction a as [|x a IH]; simpl; [reflexivity | now rewrite IH]. Qed.

Lemma prefix_append (a b : string) : String.prefix a (a +++ b) = true.
Proof.
  induction a as [|x a IH]; simpl; [now destruct b|].
  destruct (ascii_dec x x); [exact IH | congruence].
Qed.

Lemma substring_all (s : string) : String.substring 0 (String.length s) s = s.
Proof. induction s as [|x s IH]; simpl; [reflexivity | now rewrite IH]. Qed.

Lemma substring_append (a b : string) :
  String.substring (String.length a) (String.length (a +++ b) - String.length a) (a +++ b)
  = b.
Proof.
  induction a as [|x a IH]; simpl.
  - rewrite Nat.sub_0_r. apply substring_all.
  - exact IH.
Qed.

(** The rows of an export after the header line. *)
Lemma concat_rows (header : string) (rows : list string) :
  String.concat LF (header :: rows)
  = header +++ fold_right (fun r acc => LF +++ r +++ acc) EmptyString rows.
Proof.
  revert header. induction rows as [|r rows IH]; intros header.
  - simpl. clear. induction header as [|x h IH]; simpl; [reflexivity | now rewrite <- IH].
  - change (String.concat LF (header :: r :: rows))
      with (header +++ LF +++ String.concat LF (r :: rows)).
    rewrite IH. reflexivity.
Qed.

Lemma readPlain_field (field rest : string) :
  plain field = true -> atDelimiter rest ->
  readPlain (field +++ rest) = (field, rest).
Proof.
  intros Hp Hr. induction field as [|c f IH]; cbn [String.append].
  - destruct rest as [|c r]; [reflexivity|]. cbn [readPlain]. cbn in Hr. now rewrite Hr.
  - cbn [plain] in Hp. apply andb_prop in Hp. destruct Hp as [Hc Hf].
    cbn [readPlain]. apply negb_true_iff in Hc. rewrite Hc, (IH Hf). reflexivity.
Qed.

Lemma delimiter_no_quote (c : ascii) : isDelimiter c = true -> isQuote c = false.
Proof.
  unfold isDelimiter, isQuote. intros H. apply orb_prop in H.
  destruct H as [H | H]; apply Nat.eqb_eq in H; rewrite H; reflexivity.
Qed.

Lemma readQuotedBody_field (field rest : string) :
  atDelimiter rest ->
  readQuotedBody (doubleQuotes field +++ dquote +++ rest) = Some (field, rest).
Proof.
  intros Hr. induction field as [|c f IH].
  - cbn [doubleQuotes String.append]. unfold dquote. cbn [String.append readQuotedBody].
    change (isQuote (ascii_of_nat 34)) with true. cbv iota.
    destruct rest as [|c r]; [reflexivity|]. cbn in Hr.
    now rewrite (delimiter_no_quote c Hr).
  - cbn [doubleQuotes]. destruct (isQuote c) eqn:E.
    + cbn [String.append readQuotedBody]. rewrite E, IH. reflexivity.
    + cbn [String.append readQuotedBody]. rewrite E, IH. reflexivity.
Qed.

(** A quoted field reads back as the text that was quoted. *)
Lemma readQuoted_field (x : option string) (rest : string) :
  atDelimiter rest -> readQuoted (quoted x +++ rest) = Some (orEmpty x, rest).
Proof.
  intros Hr. unfold quoted. rewrite !append_assoc. unfold dquote at 1.
  cbn [String.append readQuoted]. change (isQuote (ascii_of_nat 34)) with true. cbv iota.
  now apply readQuotedBody_field.
Qed.

Lemma readRow_row (s : CsvStory) (rest : string) :
  plainStory s = true -> atDelimiter rest ->
  readRow (String.concat "," (csvRow s) +++ rest) = Some (csvFields s, rest).
Proof.
  intros Hp Hr. unfold plainStory in Hp.
  apply andb_prop in Hp. destruct Hp as [Hp Hdate].
  apply andb_prop in Hp. destruct Hp as [Hp Hcategory].
  apply andb_prop in Hp. destruct Hp as [Hid Hregion].
  unfold csvRow. cbn [String.concat]. rewrite !append_assoc.
  unfold readRow.
  rewrite (readPlain_field _ _ Hid) by reflexivity.
  cbn [String.append expect]. change (code "," =? 44)%nat with true. cbv iota.
  rewrite readQuoted_field by reflexivity.
  cbn [String.append expect]. change (code "," =? 44)%nat with true. cbv iota.
  rewrite (readPlain_field _ _ Hregion) by reflexivity.
  cbn [String.append expect]. change (code "," =? 44)%nat with true. cbv iota.
  rewrite (readPlain_field _ _ Hcategory) by reflexivity.
  cbn [String.append expect]. change (code "," =? 44)%nat with true. cbv iota.
  rewrite (readPlain_field _ _ Hdate) by reflexivity.
  cbn [String.append expect]. change (code "," =? 44)%nat with true. cbv iota.
  rewrite (readQuoted_field _ _ Hr).
  reflexivity.
Qed.

Lemma rows_atDelimiter (rows : list string) :
  atDelimiter (fold_right (fun r acc => LF +++ r +++ acc) EmptyString rows).
Proof. destruct rows; [exact I | reflexivity]. Qed.

Lemma readRows_rows (stories : list CsvStory) (fuel : nat) :
  plainStories stories -> (List.length stories <= fuel)%nat ->
  readRows fuel
    (fold_right (fun r acc => LF +++ r +++ acc) EmptyString
       (map (fun r => String.concat "," r) (map csvRow stories)))
  = Some (map csvFields stories).
Proof.
  revert fuel. induction stories as [|s stories IH]; intros fuel Hp Hf.
  - destruct fuel; reflexivity.
  - inversion Hp as [|? ? Hs Hrest]; subst.
    destruct fuel as [|fuel]; [simpl in Hf; lia|].
    cbn [map fold_right]. unfold LF at 1. cbn [String.append readRows expect].
    change (code (ascii_of_nat 10) =? 10)%nat with true. cbv iota.
    rewrite (readRow_row s _ Hs) by apply rows_atDelimiter.
    rewrite (IH fuel Hrest) by (simpl in Hf; lia).
    reflexivity.
Qed.

Lemma rows_length (rows : list string) :
  (List.length rows
   <= String.length (fold_right (fun r acc => LF +++ r +++ acc) EmptyString rows))%nat.
Proof.
  induction rows as [|r rows IH]; [simpl; lia|].
  cbn [fold_right List.length]. rewrite !length_append.
  change (String.length LF) with 1%nat. lia.
Qed.

Lemma export_read_back (stories : list CsvStory) :
  plainStories stories ->
  readCSV (exportStoriesCSV stories) = Some (map csvFields stories).
Proof.
  intros Hp. unfold readCSV, exportStoriesCSV. rewrite concat_rows.
  rewrite prefix_append, substring_append.
  apply readRows_rows; [assumption|].
  rewrite length_append.
  pose proof (rows_length (map (fun r => String.concat "," r) (map csvRow stories))) as H.
  rewrite !length_map in H. lia.
Qed.

(** X22.  [exportStoriesCSV] loses nothing on stories whose id, region,
    category and date hold no comma and no line feed: reading the export
    back (header line, then one row per story, quoted fields with doubled
    quotes) gives the six fields of every story, in order, whatever the
    titles and sources contain; so two such lists of stories with the same
    export have the same fields. *)
Theorem X22_csv_round_trip (stories stories' : list CsvStory) :
  plainStories stories ->
  readCSV (exportStoriesCSV stories) = Some (map csvFields stories)
  /\ (plainStories stories' ->
      exportStoriesCSV stories = exportStoriesCSV stories' ->
      map csvFields stories = map csvFields stories').
Proof.
  intros Hp. split; [now apply export_read_back|].
  intros Hp' E. apply export_read_back in Hp, Hp'. rewrite E in Hp. congruence.
Qed.

(** *** The properties on the example inputs *)

Import ApiExamples.

(** A burst of four requests of one new client against a limit of 100. *)
Lemma X13_witness :
  (windowOver [] (Some "10.0.0.1"%string) 1000
   /\ Forall (fun t => t <= 1000 + 60000) [1001; 2000; 61000])
  /\ map isNext
       (snd (serve (defaultConfig None) (Some "10.0.0.1"%string)
               [1000; 1001; 2000; 61000] []))
     = [true; true; true; true].
Proof.
  assert (H : windowOver [] (Some "10.0.0.1"%string) 1000
              /\ Forall (fun t => t <= 1000 + 60000) [1001; 2000; 61000]).
  { split; [exact I|]. repeat constructor; lia. }
  split; [exact H|].
  destruct (X13_rate_limit_burst (defaultConfig None) (Some "10.0.0.1"%string) []
              1000 [1001; 2000; 61000] (proj1 H) (proj2 H)) as [E _].
  rewrite E. reflexivity.
Defined.

(** The stories of Ukraine, whatever the case of the region. *)
Lemma X16_witness :
  (givenOnce (VString "UKRAINE") /\ givenOnce VUndefined
   /\ textFields [kyiv; taipei; odesa])
  /\ storiesRoute lower 0 (Normal [kyiv; taipei; odesa])
       (VString "UKRAINE") VUndefined (VString "10")
     = okResponse 0 (StoriesData [kyiv; odesa] 2 (VString "UKRAINE") VUndefined 10).
Proof.
  assert (H : textFields [kyiv; taipei; odesa])
    by (repeat constructor; discriminate).
  split; [split; [exact I | split; [exact I | exact H]]|].
  rewrite (X16_stories_route lower 0 [kyiv; taipei; odesa]
             (VString "UKRAINE") VUndefined (VString "10") I I H).
  reflexivity.
Defined.

(** The signals of high severity. *)
Lemma X17_witness :
  (givenOnce VUndefined /\ textFields [kyiv; taipei; odesa])
  /\ signalsRoute lower 0 (Normal [kyiv; taipei; odesa])
       (VString "high") VUndefined VUndefined
     = okResponse 0 (SignalsData [kyiv; odesa] 2 (VString "high") VUndefined 50).
Proof.
  assert (H : textFields [kyiv; taipei; odesa])
    by (repeat constructor; discriminate).
  split; [split; [exact I | exact H]|].
  rewrite (X17_signals_route lower 0 [kyiv; taipei; odesa]
             (VString "high") VUndefined VUndefined I H).
  reflexivity.
Defined.

(** A title with a quote, a comma and a line feed, and a story with no
    field at all. *)
Lemma X22_witness :
  plainStories [quotedStory; bareStory]
  /\ readCSV (exportStoriesCSV [quotedStory; bareStory])
     = Some (map csvFields [quotedStory; bareStory]).
Proof.
  assert (H : plainStories [quotedStory; bareStory])
    by (repeat constructor).
  split; [exact H|].
  exact (proj1 (X22_csv_round_trip [quotedStory; bareStory] [] H)).
Defined.
